(** * SourceCode: a shallow embedding of lib/source-code/source-code.js

    The development follows the layout of the JavaScript file: the private
    helpers ([looksLikeExport], [sortedMerge], [nodesOrTokensOverlap],
    [isSpaceBetween]), then the [SourceCode] class with its constructor and
    the methods [getText], [getLines], [getAllComments], [getComments],
    [getNodeByRangeIndex], [isSpaceBetween], [isSpaceBetweenTokens],
    [getLocFromIndex], [getIndexFromLoc], [getScope] and [getAncestors].
    [validate], [splitLines] and [getJSDocComment] come after these, before
    the properties.

    JavaScript strings are sequences of UTF-16 code units ([list Z]);
    offsets, lines and columns are JavaScript numbers ([number], with the
    integers kept apart as [Int]); arrays are lists read by index with
    [arr_get] (an index out of range reads [undefined]); thrown errors are
    the [Throw] case of [result].  Objects that are compared with [===] or
    used as keys of a [WeakMap] carry their identity as a number.  The two
    caches of the class are the only mutable state; the methods that use
    them take the cache and return it.  A [while] loop that follows the
    token store from token to token runs on fuel, and [None] means that the
    fuel ran out.

    Three collaborators live in files of the repository that are not at
    hand (lib/shared/ast-utils.js, lib/shared/traverser.js and
    lib/source-code/token-store); what this file uses of them is modelled
    from the spec, in the modules [AstUtils], [Traverser] and
    [TokenStore]. *)

From Stdlib Require Import ZArith QArith List String Bool Lia.
From stdpp Require Import base option list gmap strings.

Set Warnings "-register-all".

Local Open Scope string_scope.
Local Open Scope list_scope.
Local Open Scope Z_scope.

(** ** JavaScript values *)

Module JS.

(** A JavaScript string, by code unit. *)
Definition jsstring : Type := list Z.

(** The code units of an ASCII literal. *)
Fixpoint units (s : string) : jsstring :=
  match s with
  | EmptyString => []
  | String c rest => Z.of_nat (Ascii.nat_of_ascii c) :: units rest
  end.

(** A number.  [Int z] is the integer [z]; [Frac q] is a finite number
    given by the rational [q] (used for values that are not integers);
    arithmetic on [Frac] is exact, the rounding of doubles is not
    modelled.  Every property below that is stated for all inputs is about
    comparisons, which doubles decide exactly, or about integers. *)
Inductive number : Type :=
| Int (z : Z)
| Frac (q : Q)
| NaN
| Infinity (negative : bool).

Definition to_Q (n : number) : Q :=
  match n with
  | Int z => inject_Z z
  | Frac q => q
  | _ => 0%Q
  end.

Definition of_Q (q : Q) : number :=
  let r := Qred q in
  if (Zpos (Qden r) =? 1) then Int (Qnum r) else Frac r.

(** The integer a number denotes, if it denotes one. *)
Definition to_int (n : number) : option Z :=
  match n with
  | Int z => Some z
  | Frac q => match of_Q q with Int z => Some z | _ => None end
  | _ => None
  end.

(** The order on numbers; [None] when either side is [NaN]. *)
Definition num_compare (a b : number) : option comparison :=
  match a, b with
  | NaN, _ | _, NaN => None
  | Int x, Int y => Some (x ?= y)
  | Infinity s, Infinity t =>
      Some (if s then (if t then Eq else Lt) else (if t then Gt else Eq))
  | Infinity s, _ => Some (if s then Lt else Gt)
  | _, Infinity t => Some (if t then Gt else Lt)
  | _, _ => Some (to_Q a ?= to_Q b)%Q
  end.

(** [a < b], [a > b], [a <= b], [a >= b], [a === b] on numbers. *)
Definition num_lt (a b : number) : bool :=
  match num_compare a b with Some Lt => true | _ => false end.
Definition num_gt (a b : number) : bool := num_lt b a.
Definition num_le (a b : number) : bool :=
  match num_compare a b with Some Lt | Some Eq => true | _ => false end.
Definition num_ge (a b : number) : bool := num_le b a.
Definition num_eq (a b : number) : bool :=
  match num_compare a b with Some Eq => true | _ => false end.

Definition num_sub (a b : number) : number :=
  match a, b with
  | NaN, _ | _, NaN => NaN
  | Int x, Int y => Int (x - y)
  | Infinity s, Infinity t => if Bool.eqb s t then NaN else Infinity s
  | Infinity s, _ => Infinity s
  | _, Infinity t => Infinity (negb t)
  | _, _ => of_Q (to_Q a - to_Q b)
  end.

Definition num_add (a b : number) : number :=
  match a, b with
  | NaN, _ | _, NaN => NaN
  | Int x, Int y => Int (x + y)
  | Infinity s, Infinity t => if Bool.eqb s t then Infinity s else NaN
  | Infinity s, _ => Infinity s
  | _, Infinity t => Infinity t
  | _, _ => of_Q (to_Q a + to_Q b)
  end.

(** The values a caller can pass where the code expects a number or a
    location object. *)
Inductive value : Type :=
| VUndefined
| VNull
| VBoolean (b : bool)
| VNumber (n : number)
| VString (s : jsstring)
| VObject (props : list (string * value)).

Definition typeof (v : value) : string :=
  match v with
  | VUndefined => "undefined"
  | VNull => "object"
  | VBoolean _ => "boolean"
  | VNumber _ => "number"
  | VString _ => "string"
  | VObject _ => "object"
  end.

(** The errors the file throws, by kind. *)
Inductive error : Type := Error | TypeError | RangeError.

Inductive result (A : Type) : Type :=
| Ok (a : A)
| Throw (e : error).
Arguments Ok {A} a.
Arguments Throw {A} e.

(** [o.key]: reading a property of [undefined] or [null] throws a
    [TypeError]; a missing property reads [undefined]. *)
Fixpoint lookup_prop (key : string) (props : list (string * value)) : value :=
  match props with
  | [] => VUndefined
  | (k, v) :: rest => if String.eqb k key then v else lookup_prop key rest
  end.

Definition get_prop (o : value) (key : string) : result value :=
  match o with
  | VUndefined | VNull => Throw TypeError
  | VObject props => Ok (lookup_prop key props)
  | _ => Ok VUndefined
  end.

(** [a[i]] for an integer [i]: [None] is [undefined]. *)
Definition arr_get {A : Type} (a : list A) (i : Z) : option A :=
  if i <? 0 then None else a !! Z.to_nat i.

(** [a[n]] where [a] holds integers and the result is used as a number:
    [undefined] converts to [NaN]. *)
Definition arr_get_num (a : list Z) (n : number) : number :=
  match to_int n with
  | Some i => match arr_get a i with Some z => Int z | None => NaN end
  | None => NaN
  end.

(** [a.length] *)
Definition len {A : Type} (a : list A) : Z := Z.of_nat (length a).

(** [Array.prototype.findIndex]: the first index whose element satisfies
    [p], or -1. *)
Fixpoint findIndex_from {A : Type} (p : A -> bool) (a : list A) (i : Z) : Z :=
  match a with
  | [] => -1
  | x :: rest => if p x then i else findIndex_from p rest (i + 1)
  end.

Definition findIndex {A : Type} (p : A -> bool) (a : list A) : Z :=
  findIndex_from p a 0.

(** [s.slice(from, to)]: a negative bound counts from the end, both are
    clamped to the string, and an empty range gives the empty string. *)
Definition slice {A : Type} (s : list A) (from to : Z) : list A :=
  let n := len s in
  let k := if from <? 0 then Z.max (n + from) 0 else Z.min from n in
  let final := if to <? 0 then Z.max (n + to) 0 else Z.min to n in
  take (Z.to_nat (final - k)) (drop (Z.to_nat k) s).

(** [s.slice(from)] *)
Definition slice_from {A : Type} (s : list A) (from : Z) : list A :=
  slice s from (len s).

End JS.
Import JS.

(** ** The data the class works on *)

(** A token or a comment.  [tok_id] stands for the identity of the object
    (what [===] compares and what a [WeakMap] is keyed by). *)
Record Token : Type := mkToken {
  tok_id : N;
  tok_type : string;
  tok_value : jsstring;
  tok_range : Z * Z
}.

(** An AST node as this file reads it: its identity, [type], [range], the
    [parent] back-reference, and its child properties ([body], [properties],
    [elements], [cases], ...) in the order of the visitor keys of its type.
    An array-valued property is the list of its elements ([None] is a hole,
    [null]); a node-valued property is a one-element list.  The root also
    carries the [tokens] and [comments] arrays.

    [node_parent] is the chain of ancestors as the node reaches them through
    [parent], [node_fields] is the tree below the node; a method goes up
    ([getScope], [getAncestors], the parent test of [getComments]) or down
    ([getNodeByRangeIndex]), never both. *)
Inductive Node : Type := mkNode {
  node_id : N;
  node_type : string;
  node_range : Z * Z;
  node_parent : option Node;
  node_fields : list (string * list (option Node));
  node_tokens : list Token;
  node_comments : list Token
}.

(** [node[key]] for an array-valued property. *)
Fixpoint field_lookup (key : string) (fs : list (string * list (option Node)))
  : list (option Node) :=
  match fs with
  | [] => []
  | (k, v) :: rest => if String.eqb k key then v else field_lookup key rest
  end.

Definition node_field (n : Node) (key : string) : list (option Node) :=
  field_lookup key (node_fields n).

(** [node.start] and [node.end]: the parser sets them to the two ends of
    [range]. *)
Definition node_start (n : Node) : Z := fst (node_range n).
Definition node_end (n : Node) : Z := snd (node_range n).
Definition tok_start (t : Token) : Z := fst (tok_range t).
Definition tok_end (t : Token) : Z := snd (tok_range t).

(** The argument of the functions that take "a node or a token". *)
Inductive NodeOrToken : Type :=
| ANode (n : Node)
| AToken (t : Token).

Definition nt_id (x : NodeOrToken) : N :=
  match x with ANode n => node_id n | AToken t => tok_id t end.
Definition nt_type (x : NodeOrToken) : string :=
  match x with ANode n => node_type n | AToken t => tok_type t end.
Definition nt_range (x : NodeOrToken) : Z * Z :=
  match x with ANode n => node_range n | AToken t => tok_range t end.
(** [x.value]; a node without one reads [undefined], which the regular
    expression test converts to the string "undefined". *)
Definition nt_value (x : NodeOrToken) : jsstring :=
  match x with ANode _ => units "undefined" | AToken t => tok_value t end.

(** [a === b] on objects. *)
Definition same_object (a b : NodeOrToken) : bool := N.eqb (nt_id a) (nt_id b).

(** A scope of the scope manager (eslint-scope, an external package). *)
Inductive Scope : Type := mkScope {
  scope_id : N;
  scope_type : string;
  childScopes : list Scope
}.

(** The scope manager, by the two members this file uses. *)
Record ScopeManager : Type := mkScopeManager {
  acquire : Node -> bool -> option Scope;
  scopes : list Scope
}.

(** [isCommentToken] of eslint-utils (an external package). *)
Definition isCommentToken (t : Token) : bool :=
  String.eqb (tok_type t) "Line" || String.eqb (tok_type t) "Block"
  || String.eqb (tok_type t) "Shebang".

(** ** Private helpers of the file *)

(** [looksLikeExport] *)
Definition looksLikeExport (astNode : Node) : bool :=
  String.eqb (node_type astNode) "ExportDefaultDeclaration"
  || String.eqb (node_type astNode) "ExportNamedDeclaration"
  || String.eqb (node_type astNode) "ExportAllDeclaration"
  || String.eqb (node_type astNode) "ExportSpecifier".

(** [sortedMerge]: the two remaining suffixes [tokens[tokenIndex..]] and
    [comments[commentIndex..]] are the arguments of the recursion.  A token
    is pushed when the comments are exhausted or when its start is strictly
    smaller than the start of the next comment; otherwise the comment is
    pushed. *)
Fixpoint sortedMerge (tokens comments : list Token) : list Token :=
  match tokens with
  | [] => comments
  | t :: tokens' =>
      (fix push_comments (comments : list Token) : list Token :=
         match comments with
         | [] => t :: tokens'
         | c :: comments' =>
             if tok_start t <? tok_start c
             then t :: sortedMerge tokens' comments
             else c :: push_comments comments'
         end) comments
  end.

(** [nodesOrTokensOverlap] *)
Definition nodesOrTokensOverlap (first second : NodeOrToken) : bool :=
  (fst (nt_range first) <=? fst (nt_range second))
    && (snd (nt_range first) >=? fst (nt_range second))
  || (fst (nt_range second) <=? fst (nt_range first))
    && (snd (nt_range second) >=? fst (nt_range first)).

(** ** Collaborators that live in other files of the repository *)

Module AstUtils.

(** Modelled from the spec: the line-break matcher
    [astUtils.createGlobalLinebreakMatcher()] of lib/shared/ast-utils.js,
    which is not part of the sources at hand.  The spec (section 3) gives
    the line-break sequences: CR, LF, CRLF, and the line and paragraph
    separators U+2028 and U+2029; a CR followed by LF is one break. *)
Definition isLinebreakUnit (c : Z) : bool :=
  (c =? 10) || (c =? 13) || (c =? 8232) || (c =? 8233).

(** Modelled from the spec: every match of the global matcher on a text, in
    order, as [(match.index, match[0].length)]; [pos] is the offset of the
    text that remains. *)
Fixpoint linebreakMatches (pos : Z) (s : jsstring) : list (Z * Z) :=
  match s with
  | [] => []
  | c :: rest =>
      if c =? 13 then
        match rest with
        | d :: rest' =>
            if d =? 10 then (pos, 2) :: linebreakMatches (pos + 2) rest'
            else (pos, 1) :: linebreakMatches (pos + 1) rest
        | [] => [(pos, 1)]
        end
      else if isLinebreakUnit c then (pos, 1) :: linebreakMatches (pos + 1) rest
      else linebreakMatches (pos + 1) rest
  end.

(** Modelled from the spec: [text.match(astUtils.shebangPattern)]; the spec
    (section 3) speaks of "a shebang pattern found at the start of the
    text".  The result is the first capture group: the characters after
    [#!] up to the first CR or LF, when there is at least one. *)
Fixpoint untilLineEnd (s : jsstring) : jsstring :=
  match s with
  | [] => []
  | c :: rest => if (c =? 10) || (c =? 13) then [] else c :: untilLineEnd rest
  end.

Definition shebangMatch (s : jsstring) : option jsstring :=
  match s with
  | 35 :: 33 :: rest =>
      match untilLineEnd rest with
      | [] => None
      | body => Some body
      end
  | _ => None
  end.

(** The character class [\s] of a regular expression. *)
Definition isWhitespaceUnit (c : Z) : bool :=
  ((9 <=? c) && (c <=? 13)) || (c =? 32) || (c =? 160) || (c =? 5760)
  || ((8192 <=? c) && (c <=? 8202)) || (c =? 8232) || (c =? 8233)
  || (c =? 8239) || (c =? 8287) || (c =? 12288) || (c =? 65279).

(** [/\s/u.test(s)] *)
Definition hasWhitespace (s : jsstring) : bool := existsb isWhitespaceUnit s.

End AstUtils.
Import AstUtils.

(** ** The SourceCode object *)

(** The fields the constructor sets.  [tokens] and [comments] are the two
    arrays handed to the [TokenStore] base class; the caches, which are the
    only mutable part, are threaded through the methods that use them. *)
Record SourceCode : Type := mkSourceCode {
  hasBOM : bool;
  text : jsstring;
  ast : Node;
  scopeManager : option ScopeManager;
  tokens : list Token;
  comments : list Token;
  tokensAndComments : list Token;
  lines : list jsstring;
  lineStartIndices : list Z
}.

(** One turn of the constructor's [while] loop over the line-break matches:
    push the line that ends at the match, push the start of the next. *)
Definition pushLine (text : jsstring) (st : list jsstring * list Z) (m : Z * Z)
  : list jsstring * list Z :=
  let '(lines, starts) := st in
  let lineStart := default 0 (arr_get starts (len starts - 1)) in
  (lines ++ [slice text lineStart (fst m)], starts ++ [fst m + snd m]).

Definition splitAtLinebreaks (text : jsstring) : list jsstring * list Z :=
  let '(lines, starts) :=
    fold_left (pushLine text) (linebreakMatches 0 text) ([], [0]) in
  let lineStart := default 0 (arr_get starts (len starts - 1)) in
  (lines ++ [slice_from text lineStart], starts).

(** The shebang check of the constructor: the first comment becomes a
    "Shebang" comment when its value is what follows [#!] on the first
    line. *)
Definition retagShebang (text : jsstring) (comments : list Token) : list Token :=
  match shebangMatch text, comments with
  | Some body, c :: rest =>
      if decide (tok_value c = body)
      then mkToken (tok_id c) "Shebang" (tok_value c) (tok_range c) :: rest
      else comments
  | _, _ => comments
  end.

(** The constructor, called with the configuration object.  [validate] asks
    for the [tokens], [comments], [loc] and [range] of the root: a [Node] has
    them by its type. *)
Definition SourceCode_new (text0 : jsstring) (ast0 : Node)
    (scopeManager0 : option ScopeManager) : SourceCode :=
  let bom := match text0 with c :: _ => c =? 65279 | [] => false end in
  let text := if bom then slice_from text0 1 else text0 in
  let comments := retagShebang text (node_comments ast0) in
  let ast := mkNode (node_id ast0) (node_type ast0) (node_range ast0)
               (node_parent ast0) (node_fields ast0) (node_tokens ast0) comments in
  let '(lines, starts) := splitAtLinebreaks text in
  {| hasBOM := bom;
     text := text;
     ast := ast;
     scopeManager := scopeManager0;
     tokens := node_tokens ast0;
     comments := comments;
     tokensAndComments := sortedMerge (node_tokens ast0) comments;
     lines := lines;
     lineStartIndices := starts |}.

(** ** Methods: text and positions *)

(** [getText(node, beforeCount, afterCount)]; an argument left out is
    [None], and [count || 0] reads a missing count as 0. *)
Definition getText (sc : SourceCode) (node : option NodeOrToken)
    (beforeCount afterCount : option Z) : jsstring :=
  match node with
  | Some node =>
      slice (text sc)
        (Z.max (fst (nt_range node) - default 0 beforeCount) 0)
        (snd (nt_range node) + default 0 afterCount)
  | None => text sc
  end.

(** [getLines()] *)
Definition getLines (sc : SourceCode) : list jsstring := lines sc.

(** [getAllComments()] *)
Definition getAllComments (sc : SourceCode) : list Token := node_comments (ast sc).

(** A [{line, column}] location. *)
Record Loc : Type := mkLoc { line : number; column : number }.

Definition Loc_object (l : Loc) : value :=
  VObject [("line", VNumber (line l)); ("column", VNumber (column l))].

(** [getLocFromIndex(index)] *)
Definition getLocFromIndex (sc : SourceCode) (index : value) : result Loc :=
  match index with
  | VNumber index =>
      if num_lt index (Int 0) || num_gt index (Int (len (text sc)))
      then Throw RangeError
      else if num_eq index (Int (len (text sc))) then
        match arr_get (lines sc) (len (lines sc) - 1) with
        | Some lastLine =>
            Ok {| line := Int (len (lines sc)); column := Int (len lastLine) |}
        | None => Throw TypeError
        end
      else
        let starts := lineStartIndices sc in
        let lineNumber :=
          if num_ge index (arr_get_num starts (Int (len starts - 1)))
          then len starts
          else findIndex (fun el => num_lt index (Int el)) starts in
        Ok {| line := Int lineNumber;
              column := num_sub index (arr_get_num starts (Int (lineNumber - 1))) |}
  | _ => Throw TypeError
  end.

(** [getIndexFromLoc(loc)] *)
Definition getIndexFromLoc (sc : SourceCode) (loc : value) : result number :=
  if negb (String.eqb (typeof loc) "object") then Throw TypeError else
  match get_prop loc "line", get_prop loc "column" with
  | Ok (VNumber line), Ok (VNumber column) =>
      let starts := lineStartIndices sc in
      if num_le line (Int 0) then Throw RangeError
      else if num_gt line (Int (len starts)) then Throw RangeError
      else
        let lineStartIndex := arr_get_num starts (num_sub line (Int 1)) in
        let lineEndIndex :=
          if num_eq line (Int (len starts)) then Int (len (text sc))
          else arr_get_num starts line in
        let positionIndex := num_add lineStartIndex column in
        if num_eq line (Int (len starts)) && num_gt positionIndex lineEndIndex
           || num_lt line (Int (len starts)) && num_ge positionIndex lineEndIndex
        then Throw RangeError
        else Ok positionIndex
  | _, _ => Throw TypeError
  end.

Module TokenStore.

(** Modelled from the spec: the token-navigation primitive of
    lib/source-code/token-store, the base class of [SourceCode], which is
    not part of the sources at hand.  The spec (section 1) describes it as
    the adjacency queries "token before/after a position, optionally
    including comments" and "first/last token of a node"; with comments
    included the queries run over the merged stream. *)
Definition stream (sc : SourceCode) (includeComments : bool) : list Token :=
  if includeComments then tokensAndComments sc else tokens sc.

(** Modelled from the spec: the first entry that starts at or after the end
    of [x]. *)
Definition getTokenAfter (sc : SourceCode) (x : NodeOrToken)
    (includeComments : bool) : option Token :=
  List.find (fun e => snd (nt_range x) <=? tok_start e) (stream sc includeComments).

(** Modelled from the spec: the last entry that ends at or before the start
    of [x]. *)
Definition getTokenBefore (sc : SourceCode) (x : NodeOrToken)
    (includeComments : bool) : option Token :=
  List.find (fun e => tok_end e <=? fst (nt_range x))
    (rev (stream sc includeComments)).

(** Modelled from the spec: the first token of [x], the first token that
    starts at or after the start of [x], if it lies inside [x]. *)
Definition getFirstToken (sc : SourceCode) (x : NodeOrToken) : option Token :=
  match List.find (fun e => fst (nt_range x) <=? tok_start e) (tokens sc) with
  | Some e => if tok_end e <=? snd (nt_range x) then Some e else None
  | None => None
  end.

(** Modelled from the spec: the last token of [x]. *)
Definition getLastToken (sc : SourceCode) (x : NodeOrToken) : option Token :=
  match List.find (fun e => tok_end e <=? snd (nt_range x)) (rev (tokens sc)) with
  | Some e => if fst (nt_range x) <=? tok_start e then Some e else None
  | None => None
  end.

(** Modelled from the spec: the entries inside the range of [x] that pass
    [filter], in source order. *)
Definition getTokens (sc : SourceCode) (x : NodeOrToken)
    (includeComments : bool) (filter : Token -> bool) : list Token :=
  List.filter
    (fun e => (fst (nt_range x) <=? tok_start e)
              && (tok_end e <=? snd (nt_range x)) && filter e)
    (stream sc includeComments).

End TokenStore.
Import TokenStore.

(** ** [isSpaceBetween]

    The [while] loop runs on fuel: [None] means that the walk did not reach
    [finalToken] within [fuel] steps.  A [nextToken] that is [null] makes
    [nextToken.range] throw. *)
Fixpoint spaceWalk (fuel : nat) (sc : SourceCode)
    (currentToken finalToken : NodeOrToken) (checkInsideOfJSXText : bool)
  : option (result bool) :=
  if same_object currentToken finalToken then Some (Ok false)
  else
    match fuel with
    | O => None
    | S fuel' =>
        match getTokenAfter sc currentToken true with
        | None => Some (Throw TypeError)
        | Some nextToken =>
            if negb (snd (nt_range currentToken) =? tok_start nextToken)
               || (checkInsideOfJSXText
                   && negb (same_object (AToken nextToken) finalToken)
                   && String.eqb (tok_type nextToken) "JSXText"
                   && hasWhitespace (tok_value nextToken))
            then Some (Ok true)
            else spaceWalk fuel' sc (AToken nextToken) finalToken checkInsideOfJSXText
        end
    end.

Definition isSpaceBetween (fuel : nat) (sc : SourceCode)
    (first second : NodeOrToken) (checkInsideOfJSXText : bool)
  : option (result bool) :=
  if nodesOrTokensOverlap first second then Some (Ok false)
  else
    let '(startingNodeOrToken, endingNodeOrToken) :=
      if snd (nt_range first) <=? fst (nt_range second)
      then (first, second) else (second, first) in
    let firstToken :=
      match getLastToken sc startingNodeOrToken with
      | Some t => AToken t
      | None => startingNodeOrToken
      end in
    let finalToken :=
      match getFirstToken sc endingNodeOrToken with
      | Some t => AToken t
      | None => endingNodeOrToken
      end in
    spaceWalk fuel sc firstToken finalToken checkInsideOfJSXText.

(** The methods [isSpaceBetween(first, second)] and
    [isSpaceBetweenTokens(first, second)] of the class. *)
Definition SourceCode_isSpaceBetween (fuel : nat) (sc : SourceCode)
    (first second : NodeOrToken) : option (result bool) :=
  isSpaceBetween fuel sc first second false.

Definition isSpaceBetweenTokens (fuel : nat) (sc : SourceCode)
    (first second : NodeOrToken) : option (result bool) :=
  isSpaceBetween fuel sc first second true.

Module Traverser.

(** Modelled from the spec: the tree-traversal utility
    lib/shared/traverser.js, which is not part of the sources at hand.  The
    spec (sections 1 and 4.6) describes a depth-first descent with a
    per-node-type child-key mapping: a node is entered, its children are
    visited in order unless the [enter] callback asked to skip them, and the
    node is left; a callback can stop the whole traversal.  [control] is what
    a callback asked for: nothing, [this.skip()] or [this.break()]. *)
Inductive control : Type := Continue | Skip | Break.

Record Visitor (S : Type) : Type := mkVisitor {
  enter : Node -> S -> S * control;
  leave : Node -> S -> S * control
}.
Arguments mkVisitor {S} enter leave.
Arguments enter {S} v node s.
Arguments leave {S} v node s.

(** Modelled from the spec: the loop over the elements of one child
    property; [visit] is the traversal of a child.  An element that is not
    a node (a hole of an array, [null]) is passed over; the loop stops when
    the traversal was stopped. *)
Definition visitChildren {S : Type} (visit : Node -> S -> S * bool)
  : list (option Node) -> S -> S * bool :=
  fix children (cs : list (option Node)) (s : S) : S * bool :=
    match cs with
    | [] => (s, false)
    | None :: rest => children rest s
    | Some child :: rest =>
        let '(s', broken) := visit child s in
        if broken then (s', true) else children rest s'
    end.

(** Modelled from the spec: the loop over the child properties of a node,
    in the order of its visitor keys. *)
Definition visitFields {S : Type} (visit : Node -> S -> S * bool)
  : list (string * list (option Node)) -> S -> S * bool :=
  fix fields (fs : list (string * list (option Node))) (s : S) : S * bool :=
    match fs with
    | [] => (s, false)
    | (_, cs) :: rest =>
        let '(s', broken) := visitChildren visit cs s in
        if broken then (s', true) else fields rest s'
    end.

(** Modelled from the spec: [Traverser.traverse(node, visitor)].  The state
    [S] is what the callbacks close over; the boolean tells whether the
    traversal was stopped. *)
Fixpoint traverse {S : Type} (v : Visitor S) (node : Node) (s : S) : S * bool :=
  let '(s1, asked) := enter v node s in
  let '(s2, broken) :=
    match asked with
    | Continue => visitFields (traverse v) (node_fields node) s1
    | Skip => (s1, false)
    | Break => (s1, true)
    end in
  if broken then (s2, true)
  else
    let '(s3, asked') := leave v node s2 in
    (s3, match asked' with Break => true | _ => false end).

End Traverser.
Import Traverser.

(** ** Methods: nodes, comments, scopes *)

(** [node === result], where [result] may be [null]. *)
Definition is_result (node : Node) (result : option Node) : bool :=
  match result with
  | Some r => N.eqb (node_id node) (node_id r)
  | None => false
  end.

(** The visitor of [getNodeByRangeIndex]; its state is the variable
    [result]. *)
Definition rangeIndexVisitor (index : Z) : Visitor (option Node) :=
  mkVisitor
    (fun node result =>
       if (fst (node_range node) <=? index) && (index <? snd (node_range node))
       then (Some node, Continue)
       else (result, Skip))
    (fun node result =>
       if is_result node result then (result, Break) else (result, Continue)).

(** [getNodeByRangeIndex(index)] *)
Definition getNodeByRangeIndex (sc : SourceCode) (index : Z) : option Node :=
  fst (traverse (rangeIndexVisitor index) (ast sc) None).

(** The object [getComments] returns. *)
Record Comments : Type := mkComments {
  leading : list Token;
  trailing : list Token
}.

(** [node.parent && node.parent.type !== "Program" && outside(node.parent)] *)
Definition outsideParent (node : Node) (outside : Node -> bool) : bool :=
  match node_parent node with
  | Some parent => negb (String.eqb (node_type parent) "Program") && outside parent
  | None => false
  end.

(** The first [while] loop of [getComments]: the comments before the node,
    in the order they are pushed (nearest first). *)
Fixpoint commentsBefore (fuel : nat) (sc : SourceCode) (node : Node)
    (currentToken : option Token) (leading : list Token) : option (list Token) :=
  match fuel with
  | O => None
  | S fuel' =>
      match currentToken with
      | Some tok =>
          if isCommentToken tok then
            if outsideParent node (fun parent => tok_start tok <? node_start parent)
            then Some leading
            else commentsBefore fuel' sc node
                   (getTokenBefore sc (AToken tok) true) (leading ++ [tok])
          else Some leading
      | None => Some leading
      end
  end.

(** The second [while] loop of [getComments]. *)
Fixpoint commentsAfter (fuel : nat) (sc : SourceCode) (node : Node)
    (currentToken : option Token) (trailing : list Token) : option (list Token) :=
  match fuel with
  | O => None
  | S fuel' =>
      match currentToken with
      | Some tok =>
          if isCommentToken tok then
            if outsideParent node (fun parent => tok_end tok >? node_end parent)
            then Some trailing
            else commentsAfter fuel' sc node
                   (getTokenAfter sc (AToken tok) true) (trailing ++ [tok])
          else Some trailing
      | None => Some trailing
      end
  end.

(** The test for a node that can only contain comments. *)
Definition onlyContainsComments (node : Node) : bool :=
  (String.eqb (node_type node) "BlockStatement"
   || String.eqb (node_type node) "ClassBody")
    && (len (node_field node "body") =? 0)
  || String.eqb (node_type node) "ObjectExpression"
    && (len (node_field node "properties") =? 0)
  || String.eqb (node_type node) "ArrayExpression"
    && (len (node_field node "elements") =? 0)
  || String.eqb (node_type node) "SwitchStatement"
    && (len (node_field node "cases") =? 0).

(** [getComments(node)]; [cache] is [this._commentCache], a map keyed by the
    identity of the node.  The result comes with the cache after the call;
    [None] means that a loop ran out of fuel. *)
Definition getComments (fuel : nat) (sc : SourceCode) (node : Node)
    (cache : gmap N Comments) : option (Comments * gmap N Comments) :=
  match cache !! node_id node with
  | Some cached => Some (cached, cache)
  | None =>
      let computed :=
        if String.eqb (node_type node) "Program" then
          if len (node_field node "body") =? 0
          then Some (mkComments (node_comments node) [])
          else Some (mkComments [] [])
        else
          let trailing0 :=
            if onlyContainsComments node
            then getTokens sc (ANode node) true isCommentToken
            else [] in
          match commentsBefore fuel sc node (getTokenBefore sc (ANode node) true) [] with
          | Some pushed =>
              match commentsAfter fuel sc node (getTokenAfter sc (ANode node) true) trailing0 with
              | Some trailing => Some (mkComments (rev pushed) trailing)
              | None => None
              end
          | None => None
          end in
      match computed with
      | Some comments => Some (comments, <[node_id node := comments]> cache)
      | None => None
      end
  end.

(** The [for] loop of [getScope]: the first scope the scope manager has for
    the node or one of its ancestors. *)
Fixpoint acquireFirst (sm : ScopeManager) (inner : bool) (node : Node) : option Scope :=
  match acquire sm node inner with
  | Some scope => Some scope
  | None =>
      match node_parent node with
      | Some parent => acquireFirst sm inner parent
      | None => None
      end
  end.

(** [getScope(currentNode)]; [cache] is the "scopes" map of [this[caches]].
    A cached value is a JavaScript value and may be [undefined] ([None]),
    which the test [if (cachedScope)] treats like a miss.  A missing scope
    manager makes [this.scopeManager.acquire] throw. *)
Definition getScope (sc : SourceCode) (currentNode : option Node)
    (cache : gmap N (option Scope))
  : result (option Scope) * gmap N (option Scope) :=
  match currentNode with
  | None => (Throw TypeError, cache)
  | Some currentNode =>
      match cache !! node_id currentNode with
      | Some (Some cachedScope) => (Ok (Some cachedScope), cache)
      | _ =>
          match scopeManager sc with
          | None => (Throw TypeError, cache)
          | Some sm =>
              let inner := negb (String.eqb (node_type currentNode) "Program") in
              match acquireFirst sm inner currentNode with
              | Some scope =>
                  if String.eqb (scope_type scope) "function-expression-name"
                  then (Ok (arr_get (childScopes scope) 0),
                        <[node_id currentNode := arr_get (childScopes scope) 0]> cache)
                  else (Ok (Some scope), <[node_id currentNode := Some scope]> cache)
              | None =>
                  (Ok (arr_get (scopes sm) 0),
                   <[node_id currentNode := arr_get (scopes sm) 0]> cache)
              end
          end
      end
  end.

(** [getAncestors(node)] *)
Fixpoint ancestorsStartingAtParent (node : Node) : list Node :=
  match node_parent node with
  | Some ancestor => ancestor :: ancestorsStartingAtParent ancestor
  | None => []
  end.

Definition getAncestors (node : option Node) : result (list Node) :=
  match node with
  | None => Throw TypeError
  | Some node => Ok (rev (ancestorsStartingAtParent node))
  end.

(** ** Vocabulary of the properties *)

(** The offset after a match, and the line starts of a text written out:
    0, then the offset after each line break. *)
Definition matchEnd (m : Z * Z) : Z := fst m + snd m.

Definition lineStarts (text : jsstring) : list Z :=
  0 :: map matchEnd (linebreakMatches 0 text).

(** The start of the last line of the text that remains at offset [pos]. *)
Definition lastStart (pos : Z) (s : jsstring) : Z :=
  List.last (map matchEnd (linebreakMatches pos s)) pos.

(** The order the parser gives an array of tokens or of comments: no entry
    starts after a later one. *)
Fixpoint startsAscending (l : list Token) : bool :=
  match l with
  | [] => true
  | a :: rest =>
      forallb (fun b => tok_start a <=? tok_start b) rest && startsAscending rest
  end.

(** A range [start, end) has its start at or before its end. *)
Definition wellFormedRange (x : NodeOrToken) : Prop :=
  fst (nt_range x) <= snd (nt_range x).

(** Two ranges neither intersect nor touch: one ends strictly before the
    other starts. *)
Definition rangesApart (a b : NodeOrToken) : Prop :=
  snd (nt_range a) < fst (nt_range b) \/ snd (nt_range b) < fst (nt_range a).

(** No entry of the merged stream is empty. *)
Definition nonEmptyEntries (sc : SourceCode) : Prop :=
  Forall (fun e => tok_start e < tok_end e) (tokensAndComments sc).

(** The entries of the merged stream that start at or after the end of [x]:
    what a forward walk from [x] has before it. *)
Definition entriesAfter (sc : SourceCode) (x : NodeOrToken) : list Token :=
  List.filter (fun e => snd (nt_range x) <=? tok_start e) (tokensAndComments sc).

(** The entries that end at or before the start of [x]. *)
Definition entriesBefore (sc : SourceCode) (x : NodeOrToken) : list Token :=
  List.filter (fun e => tok_end e <=? fst (nt_range x)) (tokensAndComments sc).

(** The nodes directly below a node, in traversal order. *)
Definition someNodes (cs : list (option Node)) : list Node :=
  flat_map (fun c => match c with Some n => [n] | None => [] end) cs.

Definition childNodes (n : Node) : list Node :=
  flat_map (fun f => someNodes (snd f)) (node_fields n).

(** A node and everything below it, in traversal order. *)
Fixpoint nodesOf (n : Node) : list Node :=
  n :: flat_map
         (fun f => flat_map
                     (fun c => match c with Some m => nodesOf m | None => [] end)
                     (snd f))
         (node_fields n).

(** The nodes strictly below a node. *)
Definition descendants (n : Node) : list Node := flat_map nodesOf (childNodes n).

(** [index] lies in the half-open range of the node. *)
Definition containsIndex (n : Node) (index : Z) : bool :=
  (fst (node_range n) <=? index) && (index <? snd (node_range n)).

(** The range of every node below [root] lies inside the range of its
    parent. *)
Definition nestedRanges (root : Node) : bool :=
  forallb
    (fun p => forallb
                (fun c => (node_start p <=? node_start c) && (node_end c <=? node_end p))
                (childNodes p))
    (nodesOf root).

(** Distinct nodes of the tree are distinct objects. *)
Definition distinctNodes (root : Node) : Prop :=
  NoDup (map node_id (nodesOf root)).

(** [r] is a deepest node at [index]: its range contains the index, and the
    range of no node below it does. *)
Definition deepestAt (index : Z) (r : Node) : Prop :=
  containsIndex r index = true
  /\ forall (d : Node), In d (descendants r) -> containsIndex d index = false.

(** No node of the tree below and including [n] contains the index. *)
Definition noneContains (index : Z) (n : Node) : Prop :=
  forall (d : Node), In d (nodesOf n) -> containsIndex d index = false.

(** What the traversal of one subtree does to the variable [result]: a
    subtree whose root contains the index stops the traversal at a deepest
    node of that subtree; any other subtree is skipped, and nothing in it
    contains the index. *)
Definition subtreeOutcome (index : Z) (c : Node) (s : option Node) : Prop :=
  (containsIndex c index = true ->
   exists (r : Node),
     traverse (rangeIndexVisitor index) c s = (Some r, true)
     /\ In r (nodesOf c) /\ deepestAt index r)
  /\ (containsIndex c index = false ->
      traverse (rangeIndexVisitor index) c s = (s, false)
      /\ noneContains index c).

(** The variable [result] holds no node of the subtree [n]. *)
Definition freshFor (s : option Node) (n : Node) : Prop :=
  forall (r : Node), s = Some r -> ~ In (node_id r) (map node_id (nodesOf n)).

(** The node and its ancestors, nearest first: the nodes the loop of
    [getScope] goes through. *)
Definition parentChain (node : Node) : list Node :=
  node :: ancestorsStartingAtParent node.

(** The scope the scope manager yields at the first node of a chain for
    which it yields one. *)
Fixpoint firstYield (sm : ScopeManager) (inner : bool) (chain : list Node)
  : option Scope :=
  match chain with
  | [] => None
  | n :: rest =>
      match acquire sm n inner with
      | Some scope => Some scope
      | None => firstYield sm inner rest
      end
  end.

(** The scope of a node in the words of the spec: the scope found at the
    first node of the parent chain that has one, replaced by its first child
    scope when it is a "function-expression-name" scope; the outermost scope
    when no node of the chain has one. *)
Definition scopeOf (sm : ScopeManager) (node : Node) : option Scope :=
  match firstYield sm (negb (String.eqb (node_type node) "Program")) (parentChain node) with
  | Some scope =>
      if String.eqb (scope_type scope) "function-expression-name"
      then arr_get (childScopes scope) 0
      else Some scope
  | None => arr_get (scopes sm) 0
  end.

(** Every scope the cache holds for a node of [nodes] is the scope of that
    node. *)
Definition scopeCacheHolds (sm : ScopeManager) (nodes : list Node)
    (cache : gmap N (option Scope)) : Prop :=
  forall (n : Node) (s : Scope),
    In n nodes -> cache !! node_id n = Some (Some s) -> scopeOf sm n = Some s.

(** Every comment strictly inside the range of [node] is a trailing comment
    of [r] and not a leading one. *)
Definition insideAreTrailing (sc : SourceCode) (node : Node) (r : Comments) : Prop :=
  forall (c : Token),
    In c (tokensAndComments sc) -> isCommentToken c = true ->
    node_start node < tok_start c -> tok_end c < node_end node ->
    In c (trailing r) /\ ~ In c (leading r).

(** Every entry the comment cache holds for a node of [nodes] was computed
    by [getComments] for that node. *)
Definition commentCacheHolds (sc : SourceCode) (nodes : list Node)
    (cache : gmap N Comments) : Prop :=
  forall (n : Node) (r : Comments),
    In n nodes -> cache !! node_id n = Some r ->
    exists (fuel : nat), getComments fuel sc n ∅ = Some (r, <[node_id n := r]> ∅).

(** What a backward walk from [cur] has behind it, counting [cur]. *)
Definition stepsBefore (sc : SourceCode) (cur : option Token) : nat :=
  match cur with
  | Some t => S (length (entriesBefore sc (AToken t)))
  | None => 0
  end.

(** What a forward walk from [cur] has ahead of it, counting [cur]. *)
Definition stepsAfter (sc : SourceCode) (cur : option Token) : nat :=
  match cur with
  | Some t => S (length (entriesAfter sc (AToken t)))
  | None => 0
  end.

(** ** Examples *)

(** A node as its children see it through [parent]. *)
Definition parentView (id : N) (type : string) (range : Z * Z)
    (parent : option Node) : Node :=
  mkNode id type range parent [] [] [].

(** The running example of the spec: "a//x", a linefeed, "b". *)
Definition exampleText : jsstring := units "a//x" ++ [10] ++ units "b".

Definition tokenA : Token := mkToken 10 "Identifier" (units "a") (0, 1).
Definition tokenB : Token := mkToken 11 "Identifier" (units "b") (5, 6).
Definition commentX : Token := mkToken 12 "Line" (units "x") (1, 4).

Definition exampleProgramView : Node := parentView 0 "Program" (0, 6) None.

Definition exampleStatement (id : N) (range : Z * Z) : Node :=
  let view := parentView id "ExpressionStatement" range (Some exampleProgramView) in
  mkNode id "ExpressionStatement" range (Some exampleProgramView)
    [("expression", [Some (parentView (id + 1) "Identifier" range (Some view))])]
    [] [].

Definition exampleAst : Node :=
  mkNode 0 "Program" (0, 6) None
    [("body", [Some (exampleStatement 1 (0, 1)); Some (exampleStatement 3 (5, 6))])]
    [tokenA; tokenB] [commentX].

Definition exampleSource : SourceCode := SourceCode_new exampleText exampleAst None.

(** The empty block of the spec: an opening brace, a block comment "c", a
    closing brace. *)
Definition blockText : jsstring := units "{ /*c*/ }".

Definition braceOpen : Token := mkToken 10 "Punctuator" (units "{") (0, 1).
Definition braceClose : Token := mkToken 11 "Punctuator" (units "}") (8, 9).
Definition commentC : Token := mkToken 12 "Block" (units "c") (2, 7).

Definition emptyBlock : Node :=
  mkNode 1 "BlockStatement" (0, 9) (Some (parentView 0 "Program" (0, 9) None))
    [("body", [])] [] [].

Definition blockAst : Node :=
  mkNode 0 "Program" (0, 9) None [("body", [Some emptyBlock])]
    [braceOpen; braceClose] [commentC].

Definition blockSource : SourceCode := SourceCode_new blockText blockAst None.

(** A named function expression: the scope manager answers its node with
    the scope of the name, whose only child is the scope of the function. *)
Definition functionScope : Scope := mkScope 2 "function" [].
Definition functionNameScope : Scope :=
  mkScope 1 "function-expression-name" [functionScope].
Definition globalScope : Scope := mkScope 0 "global" [functionNameScope].

Definition scopedProgram : Node := parentView 20 "Program" (0, 22) None.
Definition scopedFunction : Node :=
  parentView 21 "FunctionExpression" (1, 19) (Some scopedProgram).
Definition scopedIdentifier : Node :=
  parentView 22 "Identifier" (16, 17) (Some scopedFunction).

Definition exampleManager : ScopeManager :=
  mkScopeManager
    (fun node inner =>
       if N.eqb (node_id node) 21 then Some functionNameScope
       else if N.eqb (node_id node) 20 then Some globalScope
       else None)
    [globalScope].

Definition scopedSource : SourceCode :=
  SourceCode_new (units "(function f() { x })()") scopedProgram (Some exampleManager).

(** A token and a comment that start at the same offset: only an empty
    entry can share its start with another. *)
Definition tieToken : Token := mkToken 1 "Template" [] (0, 0).
Definition tieComment : Token := mkToken 2 "Block" (units "c") (0, 5).


(** ** More of the file: [validate], [splitLines], [getJSDocComment] *)

(** The test [!x] reads a value as a boolean: [undefined], [null],
    [false], 0, NaN and the empty string are falsy; every object, an empty
    array too, is truthy. *)
Definition truthy (v : value) : bool :=
  match v with
  | VUndefined | VNull => false
  | VBoolean b => b
  | VNumber NaN => false
  | VNumber n => negb (num_eq n (Int 0))
  | VString s => negb (len s =? 0)
  | VObject _ => true
  end.

(** [if (!ast[key]) throw new Error(...)], followed by [rest]. *)
Definition required (ast : value) (key : string) (rest : result unit)
  : result unit :=
  match get_prop ast key with
  | Ok v => if negb (truthy v) then Throw Error else rest
  | Throw e => Throw e
  end.

(** [validate(ast)]; the constructor hands it whatever it was given as the
    AST, [undefined] when it was given none. *)
Definition validate (ast : value) : result unit :=
  required ast "tokens"
    (required ast "comments"
       (required ast "loc"
          (required ast "range" (Ok tt)))).

(** [SourceCode.splitLines(text)], that is [text.split(matcher)] with the
    line-break matcher.  The matcher has no capture group and matches no
    empty string, so [split] answers the pieces of the text between the
    matches, in order; [from] is the end of the match before. *)
Fixpoint piecesBetween (text : jsstring) (from : Z) (ms : list (Z * Z))
  : list jsstring :=
  match ms with
  | [] => [slice_from text from]
  | m :: rest => slice text from (fst m) :: piecesBetween text (matchEnd m) rest
  end.

Definition splitLines (text : jsstring) : list jsstring :=
  piecesBetween text 0 (linebreakMatches 0 text).

(** [value.charAt(0) === "*"] *)
Definition startsWithStar (s : jsstring) : bool :=
  match s with
  | c :: _ => c =? 42
  | [] => false
  end.

(** [/Function/u.test(type)]: the type contains "Function". *)
Fixpoint containsFunction (type : string) : bool :=
  String.prefix "Function" type
  || match type with
     | String _ rest => containsFunction rest
     | EmptyString => false
     end.

Section JSDoc.

(** What [getJSDocComment] reads and the records above do not hold: the
    line [astNode.loc.start.line] on which a node starts, the line
    [tokenBefore.loc.end.line] on which a token ends, and the method
    [getCommentsBefore] of the token store, of which only the length of the
    answer is used. *)
Variable startLine : Node -> Z.
Variable endLine : Token -> Z.
Variable getCommentsBefore : Node -> list Token.

Variable sc : SourceCode.

(** [findJSDocComment(astNode)] *)
Definition findJSDocComment (astNode : Node) : option Token :=
  match getTokenBefore sc (ANode astNode) true with
  | Some tokenBefore =>
      if isCommentToken tokenBefore
         && String.eqb (tok_type tokenBefore) "Block"
         && startsWithStar (tok_value tokenBefore)
         && (startLine astNode - endLine tokenBefore <=? 1)
      then Some tokenBefore
      else None
  | None => None
  end.

(** The [while] loop over the ancestors: the value of [parent] when the
    loop ends, [None] when it ran out of ancestors. *)
Fixpoint jsdocAncestor (parent : Node) : option Node :=
  if (len (getCommentsBefore parent) =? 0)
     && negb (containsFunction (node_type parent))
     && negb (String.eqb (node_type parent) "MethodDefinition")
     && negb (String.eqb (node_type parent) "Property")
  then
    match node_parent parent with
    | Some ancestor => jsdocAncestor ancestor
    | None => None
    end
  else Some parent.

(** [getJSDocComment(node)].  Reading [type] or [parent] of a parent that
    is [null] throws, and so does [getTokenBefore] on a node that is
    [null], which reads its range. *)
Definition getJSDocComment (node : Node) : result (option Token) :=
  let type := node_type node in
  if String.eqb type "ClassDeclaration" || String.eqb type "FunctionDeclaration" then
    match node_parent node with
    | Some parent =>
        Ok (findJSDocComment (if looksLikeExport parent then parent else node))
    | None => Throw TypeError
    end
  else if String.eqb type "ClassExpression" then
    match node_parent node with
    | Some parent =>
        match node_parent parent with
        | Some grandparent => Ok (findJSDocComment grandparent)
        | None => Throw TypeError
        end
    | None => Throw TypeError
    end
  else if String.eqb type "ArrowFunctionExpression"
          || String.eqb type "FunctionExpression" then
    match node_parent node with
    | Some parent =>
        if negb (String.eqb (node_type parent) "CallExpression")
           && negb (String.eqb (node_type parent) "NewExpression")
        then
          match jsdocAncestor parent with
          | Some found =>
              if negb (String.eqb (node_type found) "FunctionDeclaration")
                 && negb (String.eqb (node_type found) "Program")
              then Ok (findJSDocComment found)
              else Ok (findJSDocComment node)
          | None => Ok (findJSDocComment node)
          end
        else Ok (findJSDocComment node)
    | None => Throw TypeError
    end
  else Ok None.

End JSDoc.

(** ** More vocabulary *)

(** A "JSXText" token that contains whitespace: what the test for backward
    compatibility in [isSpaceBetween] looks for. *)
Definition isJSXTextWithSpace (t : Token) : bool :=
  String.eqb (tok_type t) "JSXText" && hasWhitespace (tok_value t).

(** The lines of a text read unit by unit: [cur] is the line that is being
    read, a line break ends it. *)
Fixpoint linesFrom (cur : jsstring) (s : jsstring) : list jsstring :=
  match s with
  | [] => [cur]
  | c :: rest =>
      if c =? 13 then
        match rest with
        | d :: rest' =>
            if d =? 10 then cur :: linesFrom [] rest'
            else cur :: linesFrom [] rest
        | [] => [cur; []]
        end
      else if isLinebreakUnit c then cur :: linesFrom [] rest
      else linesFrom (cur ++ [c]) rest
  end.

Definition linesOf (text : jsstring) : list jsstring := linesFrom [] text.

(** The line breaks of a text, in order: what the matcher matches. *)
Fixpoint linebreaksOf (s : jsstring) : list jsstring :=
  match s with
  | [] => []
  | c :: rest =>
      if c =? 13 then
        match rest with
        | d :: rest' =>
            if d =? 10 then [c; d] :: linebreaksOf rest'
            else [c] :: linebreaksOf rest
        | [] => [[c]]
        end
      else if isLinebreakUnit c then [c] :: linebreaksOf rest
      else linebreaksOf rest
  end.

(** Lines put together again, each followed by its line break. *)
Fixpoint joinLines (lines breaks : list jsstring) : jsstring :=
  match lines, breaks with
  | l :: lines', b :: breaks' => l ++ b ++ joinLines lines' breaks'
  | l :: _, [] => l
  | [], _ => []
  end.

(** One of the line-break sequences: CR LF, or a single CR, LF, U+2028 or
    U+2029. *)
Definition isLinebreakSequence (b : jsstring) : Prop :=
  b = [13; 10] \/ exists (c : Z), b = [c] /\ isLinebreakUnit c = true.

(** The matches lie between [lo] and [hi], none is empty, and each starts at
    or after the end of the one before. *)
Fixpoint ascendingMatches (lo hi : Z) (ms : list (Z * Z)) : Prop :=
  match ms with
  | [] => True
  | m :: rest =>
      lo <= fst m /\ 0 < snd m /\ matchEnd m <= hi
      /\ ascendingMatches (matchEnd m) hi rest
  end.

(** An array of offsets in strictly ascending order. *)
Definition strictlyAscending (l : list Z) : Prop :=
  forall (i j : nat) (a b : Z),
    (i < j)%nat -> l !! i = Some a -> l !! j = Some b -> a < b.

(** What [getComments] lets be a leading comment of a node: a comment of
    the merged stream that ends at or before the start of the node and does
    not start before the start of a parent that is not the root. *)
Definition leadingFor (sc : SourceCode) (node : Node) (c : Token) : Prop :=
  In c (tokensAndComments sc) /\ isCommentToken c = true
  /\ tok_end c <= node_start node
  /\ forall (parent : Node),
       node_parent node = Some parent -> node_type parent <> "Program" ->
       node_start parent <= tok_start c.

(** What it lets be a trailing comment: a comment of the merged stream that
    lies inside the node, or that starts at or after the end of the node and
    does not end after the end of a parent that is not the root. *)
Definition trailingFor (sc : SourceCode) (node : Node) (c : Token) : Prop :=
  In c (tokensAndComments sc) /\ isCommentToken c = true
  /\ (node_start node <= tok_start c /\ tok_end c <= node_end node
      \/ node_end node <= tok_start c
         /\ forall (parent : Node),
              node_parent node = Some parent -> node_type parent <> "Program" ->
              tok_end c <= node_end parent).

(** The node types [getJSDocComment] looks at. *)
Definition documentedType (type : string) : bool :=
  String.eqb type "ClassDeclaration" || String.eqb type "FunctionDeclaration"
  || String.eqb type "ClassExpression"
  || String.eqb type "ArrowFunctionExpression" || String.eqb type "FunctionExpression".

(** ** More examples *)

(** A JSXText token between two tokens it touches: the case the two
    methods differ on. *)
Definition jsxOpen : Token := mkToken 1 "Punctuator" (units ">") (0, 1).
Definition jsxText : Token := mkToken 2 "JSXText" (units " x ") (1, 4).
Definition jsxClose : Token := mkToken 3 "Punctuator" (units "<") (4, 5).
Definition jsxSource : SourceCode :=
  SourceCode_new (units "> x <")
    (mkNode 0 "Program" (0, 5) None [] [jsxOpen; jsxText; jsxClose] []) None.

(** A function declaration under a JSDoc comment. *)
Definition docText : jsstring := units "/**d*/" ++ [10] ++ units "function f(){}".
Definition docComment : Token := mkToken 30 "Block" (units "*d") (0, 6).
Definition docTokens : list Token :=
  [mkToken 31 "Keyword" (units "function") (7, 15);
   mkToken 32 "Identifier" (units "f") (16, 17);
   mkToken 33 "Punctuator" (units "(") (17, 18);
   mkToken 34 "Punctuator" (units ")") (18, 19);
   mkToken 35 "Punctuator" (units "{") (19, 20);
   mkToken 36 "Punctuator" (units "}") (20, 21)].
Definition docProgramView : Node := parentView 0 "Program" (7, 21) None.
Definition docFunction : Node :=
  mkNode 1 "FunctionDeclaration" (7, 21) (Some docProgramView) [] [] [].
Definition docAst : Node :=
  mkNode 0 "Program" (7, 21) None [("body", [Some docFunction])] docTokens [docComment].
Definition docSource : SourceCode := SourceCode_new docText docAst None.
Definition docStartLine (n : Node) : Z := 2.
Definition docEndLine (t : Token) : Z := if N.eqb (tok_id t) 30 then 1 else 2.


(** * Properties *)

(** ** Numbers and arrays *)

Lemma num_lt_Int (x y : Z) : num_lt (Int x) (Int y) = (x <? y).
Proof. unfold num_lt, Z.ltb; simpl. destruct (x ?= y); reflexivity. Qed.

Lemma num_gt_Int (x y : Z) : num_gt (Int x) (Int y) = (y <? x).
Proof. apply num_lt_Int. Qed.

Lemma num_le_Int (x y : Z) : num_le (Int x) (Int y) = (x <=? y).
Proof. unfold num_le, Z.leb; simpl. destruct (x ?= y); reflexivity. Qed.

Lemma num_ge_Int (x y : Z) : num_ge (Int x) (Int y) = (y <=? x).
Proof. apply num_le_Int. Qed.

Lemma num_eq_Int (x y : Z) : num_eq (Int x) (Int y) = (x =? y).
Proof.
  unfold num_eq; simpl.
  destruct (Z.compare_spec x y), (Z.eqb_spec x y); try reflexivity; lia.
Qed.

Create Rewrite HintDb js_num.
#[local] Hint Rewrite num_lt_Int num_gt_Int num_le_Int num_ge_Int num_eq_Int : js_num.

Lemma arr_get_Some {A : Type} (a : list A) (i : Z) (x : A) :
  arr_get a i = Some x <-> 0 <= i /\ a !! Z.to_nat i = Some x.
Proof.
  unfold arr_get. destruct (Z.ltb_spec i 0); split.
  - discriminate.
  - intros [? _]; lia.
  - intros; split; [lia | assumption].
  - intros [_ ?]; assumption.
Qed.

Lemma arr_get_nat {A : Type} (a : list A) (k : nat) :
  arr_get a (Z.of_nat k) = a !! k.
Proof.
  unfold arr_get. destruct (Z.ltb_spec (Z.of_nat k) 0); [lia |].
  now rewrite Nat2Z.id.
Qed.

Lemma arr_get_last {A : Type} (a : list A) (x : A) :
  arr_get (a ++ [x]) (len (a ++ [x]) - 1) = Some x.
Proof.
  unfold len. rewrite length_app; simpl.
  replace (Z.of_nat (length a + 1) - 1) with (Z.of_nat (length a)) by lia.
  rewrite arr_get_nat. apply list_lookup_middle. reflexivity.
Qed.

(** [findIndex] returns the first index whose element passes the test. *)
Lemma findIndex_from_first {A : Type} (p : A -> bool) (a : list A) (i : Z) (x : A) :
  In x a -> p x = true ->
  exists (k : nat) (y : A),
    findIndex_from p a i = i + Z.of_nat k /\ a !! k = Some y /\ p y = true
    /\ forall (j : nat) (z : A), (j < k)%nat -> a !! j = Some z -> p z = false.
Proof.
  revert i. induction a as [| h rest IH]; intros i Hin Hp; [destruct Hin |].
  simpl. destruct (p h) eqn:Hh.
  - exists 0%nat, h. repeat split; [lia | assumption | intros; lia].
  - destruct Hin as [-> | Hin]; [congruence |].
    destruct (IH (i + 1) Hin Hp) as (k & y & Hk & Hy & Hpy & Hfirst).
    exists (S k), y. repeat split; [lia | assumption | assumption |].
    intros [| j] z Hj Hz; simpl in Hz.
    + congruence.
    + apply (Hfirst j); [lia | assumption].
Qed.

(** ** The line table *)

(** The line starts, as the constructor's loop computes them. *)
Lemma fold_pushLine (text : jsstring) (ms : list (Z * Z))
    (lines0 : list jsstring) (starts0 : list Z) :
  snd (fold_left (pushLine text) ms (lines0, starts0)) = starts0 ++ map matchEnd ms
  /\ length (fst (fold_left (pushLine text) ms (lines0, starts0)))
     = (length lines0 + length ms)%nat.
Proof.
  revert lines0 starts0. induction ms as [| m ms IH]; intros lines0 starts0; simpl.
  - rewrite app_nil_r. split; [reflexivity | lia].
  - destruct (IH (lines0 ++ [slice text (default 0 (arr_get starts0 (len starts0 - 1))) (fst m)])
                 (starts0 ++ [fst m + snd m])) as [Hs Hl].
    rewrite Hs, Hl, <- app_assoc, length_app. simpl. split; [reflexivity | lia].
Qed.

Lemma splitAtLinebreaks_starts (text : jsstring) :
  snd (splitAtLinebreaks text) = lineStarts text.
Proof.
  unfold splitAtLinebreaks.
  pose proof (fold_pushLine text (linebreakMatches 0 text) [] [0]) as [Hs _].
  destruct (fold_left _ _ _) as [ls st]. simpl in *. now subst.
Qed.

Lemma splitAtLinebreaks_lines (text : jsstring) :
  exists (init : list jsstring),
    fst (splitAtLinebreaks text)
    = init ++ [slice_from text (List.last (lineStarts text) 0)]
    /\ length init = length (linebreakMatches 0 text).
Proof.
  unfold splitAtLinebreaks.
  pose proof (fold_pushLine text (linebreakMatches 0 text) [] [0]) as [Hs Hl].
  destruct (fold_left _ _ _) as [ls st]. simpl in *. subst st.
  exists ls. split; [| assumption].
  do 2 f_equal. fold (lineStarts text).
  change ([0] ++ map matchEnd (linebreakMatches 0 text)) with (lineStarts text).
  destruct (exists_last (l := lineStarts text)) as (front & final & E);
    [discriminate |].
  rewrite E, arr_get_last.
  change (match map matchEnd (linebreakMatches 0 text) with
          | [] => 0
          | _ :: _ => List.last (map matchEnd (linebreakMatches 0 text)) 0
          end) with (List.last (lineStarts text) 0).
  rewrite E, last_last. reflexivity.
Qed.

Lemma last_cons_default {A : Type} (x d : A) (l : list A) :
  List.last (x :: l) d = List.last l x.
Proof.
  revert x d. induction l as [| y l IH]; intros x d; [reflexivity |].
  change (List.last (y :: l) d = List.last (y :: l) x). now rewrite !IH.
Qed.

Lemma lastStart_lineStarts (text : jsstring) :
  List.last (lineStarts text) 0 = lastStart 0 text.
Proof. apply last_cons_default. Qed.

(** The last line start lies in the text, and no line break follows it. *)
Lemma lastStart_spec (n : nat) :
  forall (s : jsstring), (length s <= n)%nat ->
  forall (pos : Z),
    pos <= lastStart pos s <= pos + len s
    /\ Forall (fun c => isLinebreakUnit c = false)
         (drop (Z.to_nat (lastStart pos s - pos)) s).
Proof.
  unfold lastStart, len.
  induction n as [| n IH]; intros s Hn pos.
  - destruct s; [| simpl in Hn; lia]. simpl. split; [lia |].
    rewrite drop_nil. constructor.
  - destruct s as [| c rest];
      [simpl; split; [lia | rewrite drop_nil; constructor] |].
    simpl in Hn.
    assert (Hrest : forall (k : Z),
               pos + 1 <= k <= pos + 1 + Z.of_nat (length rest) ->
               Forall (fun c => isLinebreakUnit c = false)
                 (drop (Z.to_nat (k - (pos + 1))) rest) ->
               pos <= k <= pos + Z.of_nat (length (c :: rest))
               /\ Forall (fun c => isLinebreakUnit c = false)
                    (drop (Z.to_nat (k - pos)) (c :: rest))).
    { intros k Hk HF. simpl length. split; [lia |].
      replace (Z.to_nat (k - pos)) with (S (Z.to_nat (k - (pos + 1)))) by lia.
      exact HF. }
    simpl linebreakMatches.
    destruct (c =? 13) eqn:Hcr.
    + destruct rest as [| d rest'].
      * simpl map. unfold matchEnd; simpl List.last; simpl fst; simpl snd.
        apply Hrest; [simpl; lia | rewrite drop_nil; constructor].
      * destruct (d =? 10) eqn:Hlf.
        -- simpl map. rewrite last_cons_default.
           change (matchEnd (pos, 2)) with (pos + 2).
           destruct (IH rest' ltac:(simpl in Hn; lia) (pos + 2)) as [Hb HF].
           simpl length.
           simpl length in Hb. split; [lia |].
           replace (Z.to_nat (List.last (map matchEnd (linebreakMatches (pos + 2) rest')) (pos + 2) - pos))
             with (S (S (Z.to_nat (List.last (map matchEnd (linebreakMatches (pos + 2) rest')) (pos + 2) - (pos + 2)))))
             by lia.
           exact HF.
        -- simpl map. rewrite last_cons_default.
           change (matchEnd (pos, 1)) with (pos + 1).
           destruct (IH (d :: rest') ltac:(lia) (pos + 1)) as [Hb HF].
           apply Hrest; assumption.
    + destruct (isLinebreakUnit c) eqn:Hc.
      * simpl map. rewrite last_cons_default.
        change (matchEnd (pos, 1)) with (pos + 1).
        destruct (IH rest ltac:(lia) (pos + 1)) as [Hb HF].
        apply Hrest; assumption.
      * destruct (IH rest ltac:(lia) (pos + 1)) as [Hb HF].
        destruct (linebreakMatches (pos + 1) rest) as [| m ms] eqn:Hm.
        -- simpl in *. split; [lia |].
           replace (Z.to_nat (pos - pos)) with 0%nat by lia.
           replace (Z.to_nat (pos + 1 - (pos + 1))) with 0%nat in HF by lia.
           constructor; assumption.
        -- simpl map in *. rewrite last_cons_default in *.
           apply Hrest; assumption.
Qed.

Lemma slice_from_drop {A : Type} (s : list A) (k : Z) :
  0 <= k <= len s -> slice_from s k = drop (Z.to_nat k) s.
Proof.
  intros Hk. unfold slice_from, slice.
  destruct (Z.ltb_spec k 0); [lia |].
  destruct (Z.ltb_spec (len s) 0); [unfold len in *; lia |].
  rewrite Z.min_id, Z.min_l by lia.
  apply take_ge. rewrite length_drop. unfold len in *. lia.
Qed.

(** What the constructor leaves in [lines] and [lineStartIndices]: the line
    starts are 0 and the offsets after the line breaks; there is one line
    more than there are line breaks; the last line is the text from the last
    line start on, it lies in the text and holds no line break. *)
Lemma line_table_spec (text0 : jsstring) (ast0 : Node) (sm : option ScopeManager) :
  let sc := SourceCode_new text0 ast0 sm in
  let last_start := lastStart 0 (text sc) in
  lineStartIndices sc = lineStarts (text sc)
  /\ (exists (init : list jsstring),
        lines sc = init ++ [drop (Z.to_nat last_start) (text sc)]
        /\ length init = length (linebreakMatches 0 (text sc)))
  /\ 0 <= last_start <= len (text sc)
  /\ Forall (fun c => isLinebreakUnit c = false)
       (drop (Z.to_nat last_start) (text sc)).
Proof.
  unfold SourceCode_new.
  set (txt := if match text0 with c :: _ => c =? 65279 | [] => false end
              then slice_from text0 1 else text0).
  pose proof (splitAtLinebreaks_starts txt) as Hs.
  destruct (splitAtLinebreaks_lines txt) as (init & Hl & Hinit).
  destruct (splitAtLinebreaks txt) as [ls st]. cbn [fst snd] in Hs, Hl. subst ls st.
  cbn [text lines lineStartIndices].
  destruct (lastStart_spec (length txt) txt ltac:(lia) 0) as [Hb HF].
  rewrite Z.sub_0_r in HF. rewrite Z.add_0_l in Hb.
  rewrite lastStart_lineStarts, slice_from_drop by exact Hb.
  repeat split; try assumption; try apply Hb.
  exists init. split; [reflexivity | assumption].
Qed.

(** The same, as the two array reads of [getLocFromIndex] see it. *)
Lemma line_table_last (text0 : jsstring) (ast0 : Node) (sm : option ScopeManager) :
  let sc := SourceCode_new text0 ast0 sm in
  let last_start := lastStart 0 (text sc) in
  len (lines sc) = len (lineStartIndices sc)
  /\ 1 <= len (lineStartIndices sc)
  /\ arr_get (lineStartIndices sc) 0 = Some 0
  /\ arr_get (lineStartIndices sc) (len (lineStartIndices sc) - 1) = Some last_start
  /\ arr_get (lines sc) (len (lines sc) - 1)
     = Some (drop (Z.to_nat last_start) (text sc))
  /\ 0 <= last_start <= len (text sc).
Proof.
  intros sc last_start.
  destruct (line_table_spec text0 ast0 sm) as (Hs & (init & Hl & Hinit) & Hb & _).
  fold sc in Hs, Hl, Hinit, Hb. fold last_start in Hl, Hb.
  rewrite Hs, Hl. repeat split; try apply Hb.
  - unfold len, lineStarts. rewrite length_app. simpl. rewrite length_map. lia.
  - unfold len, lineStarts. simpl. lia.
  - destruct (exists_last (l := lineStarts (text sc))) as (front & final & E);
      [discriminate |].
    unfold last_start.
    rewrite <- lastStart_lineStarts, E, arr_get_last, last_last. reflexivity.
  - apply arr_get_last.
Qed.

(** ** Offsets and locations *)

(** [getIndexFromLoc] on a location object with integer [line] and
    [column]. *)
Lemma getIndexFromLoc_Int (sc : SourceCode) (l c : Z) :
  getIndexFromLoc sc (Loc_object (mkLoc (Int l) (Int c)))
  = let starts := lineStartIndices sc in
    if l <=? 0 then Throw RangeError
    else if len starts <? l then Throw RangeError
    else
      let lineStartIndex := arr_get_num starts (Int (l - 1)) in
      let lineEndIndex :=
        if l =? len starts then Int (len (text sc)) else arr_get_num starts (Int l) in
      let positionIndex := num_add lineStartIndex (Int c) in
      if (l =? len starts) && num_gt positionIndex lineEndIndex
         || (l <? len starts) && num_ge positionIndex lineEndIndex
      then Throw RangeError
      else Ok positionIndex.
Proof.
  unfold getIndexFromLoc.
  change (typeof (Loc_object (mkLoc (Int l) (Int c)))) with "object".
  change (get_prop (Loc_object (mkLoc (Int l) (Int c))) "line")
    with (Ok (VNumber (Int l))).
  change (get_prop (Loc_object (mkLoc (Int l) (Int c))) "column")
    with (Ok (VNumber (Int c))).
  cbn [String.eqb Ascii.eqb Bool.eqb negb].
  autorewrite with js_num. reflexivity.
Qed.

(** C4: for every source text, [getLocFromIndex] at the text length answers
    the number of lines and the length of the last line; the last line is
    what follows the last line break (the whole text when there is none), it
    may be empty and holds no line break; there is one line more than there
    are line breaks. *)
Theorem getLocFromIndex_text_length
    (text0 : jsstring) (ast0 : Node) (sm : option ScopeManager) :
  let sc := SourceCode_new text0 ast0 sm in
  exists (init : list jsstring) (lastLine : jsstring),
    lines sc = init ++ [lastLine]
    /\ length init = length (linebreakMatches 0 (text sc))
    /\ lastLine = drop (Z.to_nat (lastStart 0 (text sc))) (text sc)
    /\ Forall (fun c => isLinebreakUnit c = false) lastLine
    /\ getLocFromIndex sc (VNumber (Int (len (text sc))))
       = Ok {| line := Int (len (lines sc)); column := Int (len lastLine) |}.
Proof.
  intros sc.
  destruct (line_table_spec text0 ast0 sm) as (_ & (init & Hl & Hinit) & _ & HF).
  destruct (line_table_last text0 ast0 sm) as (_ & _ & _ & _ & Hlast & _).
  fold sc in Hl, Hinit, HF, Hlast.
  exists init, (drop (Z.to_nat (lastStart 0 (text sc))) (text sc)).
  repeat split; try assumption.
  unfold getLocFromIndex.
  rewrite num_lt_Int, num_gt_Int, num_eq_Int, Z.ltb_irrefl, Z.eqb_refl.
  destruct (Z.ltb_spec (len (text sc)) 0) as [Hneg |]; [unfold len in Hneg; lia |].
  cbn [orb]. rewrite Hlast. reflexivity.
Qed.

(** C1: for every source text and every offset from 0 to the text length,
    end of file included, [getLocFromIndex] answers a location and
    [getIndexFromLoc] maps that location back to the offset. *)
Theorem getIndexFromLoc_getLocFromIndex
    (text0 : jsstring) (ast0 : Node) (sm : option ScopeManager) (i : Z) :
  let sc := SourceCode_new text0 ast0 sm in
  0 <= i <= len (text sc) ->
  exists (loc : Loc),
    getLocFromIndex sc (VNumber (Int i)) = Ok loc
    /\ getIndexFromLoc sc (Loc_object loc) = Ok (Int i).
Proof.
  intros sc Hi.
  destruct (line_table_last text0 ast0 sm)
    as (Hlen & Hne & Hfirst & Hstart & Hlast & Hb).
  fold sc in Hlen, Hne, Hfirst, Hstart, Hlast, Hb.
  set (starts := lineStartIndices sc) in *.
  set (last_start := lastStart 0 (text sc)) in *.
  unfold getLocFromIndex.
  rewrite num_lt_Int, num_gt_Int, num_eq_Int.
  destruct (Z.ltb_spec i 0); [lia |].
  destruct (Z.ltb_spec (len (text sc)) i); [lia |]. cbn [orb].
  destruct (Z.eqb_spec i (len (text sc))) as [Heof | Hin].
  - (* the end of the file *)
    rewrite Hlast. eexists; split; [reflexivity |].
    rewrite getIndexFromLoc_Int. fold starts. cbv zeta.
    rewrite Hlen.
    destruct (Z.leb_spec (len starts) 0); [lia |].
    rewrite Z.ltb_irrefl, Z.eqb_refl.
    unfold arr_get_num; cbn [to_int]. rewrite Hstart. cbn [num_add].
    rewrite num_gt_Int.
    assert (Hcol : last_start + len (drop (Z.to_nat last_start) (text sc)) = i).
    { unfold len in *. rewrite length_drop. lia. }
    rewrite Hcol.
    destruct (Z.ltb_spec (len (text sc)) i); [lia |].
    rewrite andb_false_r. reflexivity.
  - fold starts. cbv zeta.
    replace (arr_get_num starts (Int (len starts - 1))) with (Int last_start)
      by (unfold arr_get_num; cbn [to_int]; now rewrite Hstart).
    rewrite num_ge_Int.
    destruct (Z.leb_spec last_start i) as [Hlastline | Hearlier].
    + (* on the last line *)
      replace (arr_get_num starts (Int (len starts - 1))) with (Int last_start)
        by (unfold arr_get_num; cbn [to_int]; now rewrite Hstart).
      cbn [num_sub]. eexists; split; [reflexivity |].
      rewrite getIndexFromLoc_Int. fold starts. cbv zeta.
      destruct (Z.leb_spec (len starts) 0); [lia |].
      rewrite Z.ltb_irrefl, Z.eqb_refl.
      unfold arr_get_num; cbn [to_int]. rewrite Hstart. cbn [num_add].
      rewrite num_gt_Int.
      replace (last_start + (i - last_start)) with i by lia.
      destruct (Z.ltb_spec (len (text sc)) i); [lia |].
      rewrite andb_false_r. reflexivity.
    + (* on an earlier line: the first line start beyond the offset *)
      assert (Hex : In last_start starts).
      { apply arr_get_Some in Hstart as [_ Hstart].
        apply list_elem_of_In, list_elem_of_lookup. eauto. }
      destruct (findIndex_from_first (fun el => num_lt (Int i) (Int el))
                  starts 0 last_start Hex) as (k & next & Hk & Hnext & Hp & Hmin).
      { rewrite num_lt_Int. apply Z.ltb_lt. lia. }
      fold (findIndex (fun el => num_lt (Int i) (Int el)) starts) in Hk.
      rewrite Hk, Z.add_0_l.
      rewrite num_lt_Int in Hp. apply Z.ltb_lt in Hp.
      destruct k as [| k].
      { apply arr_get_Some in Hfirst as [_ Hfirst].
        change (Z.to_nat 0) with 0%nat in Hfirst.
        rewrite Hfirst in Hnext. injection Hnext as <-. lia. }
      assert (Hklt : (S k < length starts)%nat)
        by (apply lookup_lt_is_Some; eauto).
      destruct (lookup_lt_is_Some_2 starts k ltac:(lia)) as [prev Hprev].
      pose proof (Hmin k prev ltac:(lia) Hprev) as Hprevle.
      rewrite num_lt_Int in Hprevle. apply Z.ltb_ge in Hprevle.
      replace (Z.of_nat (S k) - 1) with (Z.of_nat k) by lia.
      replace (arr_get_num starts (Int (Z.of_nat k))) with (Int prev)
        by (unfold arr_get_num; cbn [to_int]; now rewrite arr_get_nat, Hprev).
      cbn [num_sub]. eexists; split; [reflexivity |].
      rewrite getIndexFromLoc_Int. fold starts. cbv zeta.
      destruct (Z.leb_spec (Z.of_nat (S k)) 0); [lia |].
      destruct (Z.ltb_spec (len starts) (Z.of_nat (S k))); [unfold len in *; lia |].
      destruct (Z.eqb_spec (Z.of_nat (S k)) (len starts)); [unfold len in *; lia |].
      replace (Z.of_nat (S k) - 1) with (Z.of_nat k) by lia.
      unfold arr_get_num; cbn [to_int]. rewrite !arr_get_nat, Hprev, Hnext.
      cbn [num_add andb orb]. rewrite num_ge_Int.
      replace (prev + (i - prev)) with i by lia.
      destruct (Z.leb_spec next i); [lia |].
      rewrite andb_false_r. reflexivity.
Qed.

(** A number below 0 or above the text length is out of range. *)
Lemma getLocFromIndex_out_of_range (sc : SourceCode) (n : number) :
  num_lt n (Int 0) = true \/ num_gt n (Int (len (text sc))) = true ->
  getLocFromIndex sc (VNumber n) = Throw RangeError.
Proof.
  intros [H | H]; unfold getLocFromIndex; rewrite H; [| rewrite orb_true_r];
    reflexivity.
Qed.

(** Any other number gets an answer, whether it is an integer or not. *)
Lemma getLocFromIndex_in_range
    (text0 : jsstring) (ast0 : Node) (sm : option ScopeManager) (n : number) :
  let sc := SourceCode_new text0 ast0 sm in
  num_lt n (Int 0) = false -> num_gt n (Int (len (text sc))) = false ->
  exists (loc : Loc), getLocFromIndex sc (VNumber n) = Ok loc.
Proof.
  intros sc H0 H1.
  destruct (line_table_last text0 ast0 sm) as (_ & _ & _ & _ & Hlast & _).
  fold sc in Hlast.
  unfold getLocFromIndex. rewrite H0, H1. cbn [orb].
  destruct (num_eq n (Int (len (text sc)))).
  - rewrite Hlast. eexists; reflexivity.
  - eexists; reflexivity.
Qed.

(** C2, as the code has it: [getLocFromIndex] throws a [TypeError] exactly
    when its argument is not of type number, so a number that is not an
    integer is no type error; it throws a [RangeError] for every number below
    0 or above the text length, -1 and length + 1 among them; and every
    integer from 0 to the text length gets a location. *)
Theorem getLocFromIndex_errors
    (text0 : jsstring) (ast0 : Node) (sm : option ScopeManager) :
  let sc := SourceCode_new text0 ast0 sm in
  (forall (v : value),
      getLocFromIndex sc v = Throw TypeError <-> typeof v <> "number")
  /\ (forall (n : number),
        num_lt n (Int 0) = true \/ num_gt n (Int (len (text sc))) = true ->
        getLocFromIndex sc (VNumber n) = Throw RangeError)
  /\ (forall (i : Z), i < 0 \/ len (text sc) < i ->
        getLocFromIndex sc (VNumber (Int i)) = Throw RangeError)
  /\ getLocFromIndex sc (VNumber (Int (-1))) = Throw RangeError
  /\ getLocFromIndex sc (VNumber (Int (len (text sc) + 1))) = Throw RangeError
  /\ (forall (i : Z), 0 <= i <= len (text sc) ->
        exists (loc : Loc), getLocFromIndex sc (VNumber (Int i)) = Ok loc).
Proof.
  intros sc. split; [| split; [| split; [| split; [| split]]]].
  - intros v. split.
    + intros Hthrow Htype. destruct v; try discriminate Htype; try (now apply Htype).
      destruct (num_lt n (Int 0) || num_gt n (Int (len (text sc)))) eqn:Hrange.
      * unfold getLocFromIndex in Hthrow. rewrite Hrange in Hthrow. discriminate.
      * apply orb_false_elim in Hrange as [H0 H1].
        destruct (getLocFromIndex_in_range text0 ast0 sm n H0 H1) as [loc Hloc].
        fold sc in Hloc. congruence.
    + intros Htype. destruct v; try reflexivity. now contradiction Htype.
  - apply getLocFromIndex_out_of_range.
  - intros i Hi. apply getLocFromIndex_out_of_range.
    rewrite num_lt_Int, num_gt_Int. destruct Hi; [left | right]; apply Z.ltb_lt; lia.
  - apply getLocFromIndex_out_of_range. left. reflexivity.
  - apply getLocFromIndex_out_of_range. right.
    rewrite num_gt_Int. apply Z.ltb_lt. lia.
  - intros i Hi. subst sc. apply getLocFromIndex_in_range.
    + rewrite num_lt_Int. apply Z.ltb_ge. lia.
    + rewrite num_gt_Int. apply Z.ltb_ge. lia.
Qed.

(** C2, as stated, fails: 1.5 is not an integer, and on the text of the
    running example it gets a location, no error of any kind. *)
Lemma getLocFromIndex_fraction_no_TypeError :
  to_int (Frac (3 # 2)) = None
  /\ getLocFromIndex exampleSource (VNumber (Frac (3 # 2)))
     = Ok {| line := Int 1; column := Frac (3 # 2) |}
  /\ getLocFromIndex exampleSource (VNumber (Frac (3 # 2))) <> Throw TypeError.
Proof.
  split; [vm_compute; reflexivity |].
  split; [vm_compute; reflexivity |].
  intros H. vm_compute in H. discriminate H.
Qed.

(** [getIndexFromLoc] on a line that is not the last one: the offset must be
    strictly before the start of the next line. *)
Lemma getIndexFromLoc_inner_line (sc : SourceCode) (l c lineStart nextStart : Z) :
  1 <= l < len (lineStartIndices sc) ->
  arr_get (lineStartIndices sc) (l - 1) = Some lineStart ->
  arr_get (lineStartIndices sc) l = Some nextStart ->
  getIndexFromLoc sc (Loc_object (mkLoc (Int l) (Int c)))
  = if nextStart <=? lineStart + c then Throw RangeError
    else Ok (Int (lineStart + c)).
Proof.
  intros Hl Hs He. rewrite getIndexFromLoc_Int. cbv zeta.
  destruct (Z.leb_spec l 0); [lia |].
  destruct (Z.ltb_spec (len (lineStartIndices sc)) l); [lia |].
  destruct (Z.eqb_spec l (len (lineStartIndices sc))); [lia |].
  destruct (Z.ltb_spec l (len (lineStartIndices sc))); [| lia].
  unfold arr_get_num; cbn [to_int]. rewrite Hs, He. cbn [num_add andb orb].
  rewrite num_ge_Int. reflexivity.
Qed.

(** [getIndexFromLoc] on the last line: the offset may reach the end of the
    text. *)
Lemma getIndexFromLoc_last_line (sc : SourceCode) (c lineStart : Z) :
  arr_get (lineStartIndices sc) (len (lineStartIndices sc) - 1) = Some lineStart ->
  getIndexFromLoc sc (Loc_object (mkLoc (Int (len (lineStartIndices sc))) (Int c)))
  = if len (text sc) <? lineStart + c then Throw RangeError
    else Ok (Int (lineStart + c)).
Proof.
  intros Hs. rewrite getIndexFromLoc_Int. cbv zeta.
  assert (1 <= len (lineStartIndices sc)).
  { apply arr_get_Some in Hs as [? _]. lia. }
  destruct (Z.leb_spec (len (lineStartIndices sc)) 0); [lia |].
  rewrite Z.ltb_irrefl, Z.eqb_refl.
  unfold arr_get_num; cbn [to_int]. rewrite Hs. cbn [num_add andb orb].
  rewrite num_gt_Int, orb_false_r. reflexivity.
Qed.

(** C3, as the code has it: on the text of the running example
    [{line: 1, column: 5}] is out of range.  On a line that is not the last
    one the offset must stay strictly before the start of the next line, so
    4, the place of the linefeed, is the last column of line 1; offset 5 is
    [{line: 2, column: 0}]; only on the last line may the column reach the
    end of the line. *)
Theorem getIndexFromLoc_line_end :
  getIndexFromLoc exampleSource (Loc_object (mkLoc (Int 1) (Int 5)))
    = Throw RangeError
  /\ getIndexFromLoc exampleSource (Loc_object (mkLoc (Int 1) (Int 4))) = Ok (Int 4)
  /\ getIndexFromLoc exampleSource (Loc_object (mkLoc (Int 2) (Int 0))) = Ok (Int 5)
  /\ getIndexFromLoc exampleSource (Loc_object (mkLoc (Int 2) (Int 1))) = Ok (Int 6)
  /\ (forall (sc : SourceCode) (l c lineStart nextStart : Z),
        1 <= l < len (lineStartIndices sc) ->
        arr_get (lineStartIndices sc) (l - 1) = Some lineStart ->
        arr_get (lineStartIndices sc) l = Some nextStart ->
        getIndexFromLoc sc (Loc_object (mkLoc (Int l) (Int c)))
        = if nextStart <=? lineStart + c then Throw RangeError
          else Ok (Int (lineStart + c)))
  /\ (forall (sc : SourceCode) (c lineStart : Z),
        arr_get (lineStartIndices sc) (len (lineStartIndices sc) - 1)
        = Some lineStart ->
        getIndexFromLoc sc
          (Loc_object (mkLoc (Int (len (lineStartIndices sc))) (Int c)))
        = if len (text sc) <? lineStart + c then Throw RangeError
          else Ok (Int (lineStart + c))).
Proof.
  repeat split; try (vm_compute; reflexivity).
  - exact getIndexFromLoc_inner_line.
  - exact getIndexFromLoc_last_line.
Qed.

(** C3, as stated, fails: the call throws a [RangeError], it does not
    return 5. *)
Lemma getIndexFromLoc_line1_column5 :
  text exampleSource = units "a//x" ++ [10] ++ units "b"
  /\ getIndexFromLoc exampleSource (Loc_object (mkLoc (Int 1) (Int 5)))
     = Throw RangeError
  /\ getIndexFromLoc exampleSource (Loc_object (mkLoc (Int 1) (Int 5)))
     <> Ok (Int 5).
Proof.
  split; [vm_compute; reflexivity |].
  split; [vm_compute; reflexivity |].
  intros H. vm_compute in H. discriminate H.
Qed.

(** C1 at offset 5 of the running example, the start of its second line. *)
Lemma getIndexFromLoc_getLocFromIndex_witness :
  0 <= 5 <= len (text exampleSource)
  /\ exists (loc : Loc),
       getLocFromIndex exampleSource (VNumber (Int 5)) = Ok loc
       /\ getIndexFromLoc exampleSource (Loc_object loc) = Ok (Int 5).
Proof.
  assert (H : 0 <= 5 <= len (text exampleSource))
    by (vm_compute; split; discriminate).
  split; [exact H |].
  exact (getIndexFromLoc_getLocFromIndex exampleText exampleAst None 5 H).
Defined.

(** The examples of the spec. *)
Example exampleSource_table :
  lines exampleSource = [units "a//x"; units "b"]
  /\ lineStartIndices exampleSource = [0; 5]
  /\ getLocFromIndex exampleSource (VNumber (Int 5)) = Ok (mkLoc (Int 2) (Int 0)).
Proof. repeat split; reflexivity. Qed.

Example single_line_without_newline :
  let sc := SourceCode_new (units "x") (parentView 0 "Program" (0, 1) None) None in
  lines sc = [units "x"]
  /\ getLocFromIndex sc (VNumber (Int 1)) = Ok (mkLoc (Int 1) (Int 1)).
Proof. split; reflexivity. Qed.

Example empty_file :
  let sc := SourceCode_new [] (parentView 0 "Program" (0, 0) None) None in
  lines sc = [[]]
  /\ getIndexFromLoc sc (Loc_object (mkLoc (Int 1) (Int 0))) = Ok (Int 0).
Proof. split; reflexivity. Qed.

Example byte_order_mark :
  let sc := SourceCode_new (65279 :: units "x") (parentView 0 "Program" (0, 1) None) None in
  hasBOM sc = true /\ text sc = units "x".
Proof. split; reflexivity. Qed.

(** ** [getText] *)

(** A slice between two bounds that are not negative is the part of the text
    between them. *)
Lemma slice_take_drop {A : Type} (s : list A) (from to : Z) :
  0 <= from -> 0 <= to ->
  slice s from to
  = take (Z.to_nat (Z.min to (len s) - from)) (drop (Z.to_nat from) s).
Proof.
  intros Hfrom Hto. unfold slice.
  destruct (Z.ltb_spec from 0); [lia |]. destruct (Z.ltb_spec to 0); [lia |].
  destruct (Z.le_gt_cases from (len s)) as [Hin | Hout].
  - rewrite (Z.min_l from) by lia. reflexivity.
  - rewrite (Z.min_r from) by lia.
    rewrite !drop_ge by (unfold len in *; lia). now rewrite !take_nil.
Qed.

(** C10: without a node [getText] is the whole text; with a node it is the
    slice from max(start - beforeCount, 0) to end + afterCount, a missing
    count being 0.  The function is total: no call raises an error.  When
    the end bound is not negative the slice is the text between the two
    bounds, cut at the end of the text; a [beforeCount] that exceeds the
    start of the node makes the slice begin with the text. *)
Theorem getText_spec (sc : SourceCode) (node : NodeOrToken)
    (beforeCount afterCount : option Z) :
  let from := Z.max (fst (nt_range node) - default 0 beforeCount) 0 in
  let to := snd (nt_range node) + default 0 afterCount in
  getText sc None beforeCount afterCount = text sc
  /\ getText sc (Some node) beforeCount afterCount = slice (text sc) from to
  /\ getText sc (Some node) None None
     = slice (text sc) (Z.max (fst (nt_range node)) 0) (snd (nt_range node))
  /\ (0 <= to ->
      getText sc (Some node) beforeCount afterCount
      = take (Z.to_nat (Z.min to (len (text sc)) - from))
          (drop (Z.to_nat from) (text sc)))
  /\ (fst (nt_range node) <= default 0 beforeCount ->
      0 <= to ->
      getText sc (Some node) beforeCount afterCount
      = take (Z.to_nat (Z.min to (len (text sc)))) (text sc)).
Proof.
  intros from to. unfold getText. fold from to.
  split; [reflexivity |]. split; [reflexivity |]. split.
  { cbn [default from_option id]. now rewrite Z.sub_0_r, Z.add_0_r. }
  split.
  - intros Hto. apply slice_take_drop; [apply Z.le_max_r | assumption].
  - intros Hclamp Hto.
    rewrite slice_take_drop by (try apply Z.le_max_r; assumption).
    replace from with 0 by (unfold from; lia).
    now rewrite Z.sub_0_r, drop_0.
Qed.

(** ** [sortedMerge] *)

Lemma sortedMerge_nil_r (tokens : list Token) : sortedMerge tokens [] = tokens.
Proof. destruct tokens; reflexivity. Qed.

Lemma sortedMerge_cons (t c : Token) (tokens comments : list Token) :
  sortedMerge (t :: tokens) (c :: comments)
  = if tok_start t <? tok_start c
    then t :: sortedMerge tokens (c :: comments)
    else c :: sortedMerge (t :: tokens) comments.
Proof. reflexivity. Qed.

(** Both arrays go into the merged stream. *)
Lemma sortedMerge_In (x : Token) (tokens comments : list Token) :
  In x (sortedMerge tokens comments) <-> In x tokens \/ In x comments.
Proof.
  revert comments. induction tokens as [| t tokens IHt]; intros comments.
  - simpl. tauto.
  - induction comments as [| c comments IHc].
    + rewrite sortedMerge_nil_r. simpl. tauto.
    + rewrite sortedMerge_cons. destruct (tok_start t <? tok_start c).
      * simpl. rewrite IHt. simpl. tauto.
      * simpl. rewrite IHc. simpl. tauto.
Qed.

Lemma sortedMerge_length (tokens comments : list Token) :
  length (sortedMerge tokens comments) = (length tokens + length comments)%nat.
Proof.
  revert comments. induction tokens as [| t tokens IHt]; intros comments.
  - reflexivity.
  - induction comments as [| c comments IHc].
    + rewrite sortedMerge_nil_r. simpl. lia.
    + rewrite sortedMerge_cons.
      destruct (tok_start t <? tok_start c); cbn [length].
      * rewrite IHt. cbn [length]. lia.
      * rewrite IHc. cbn [length]. lia.
Qed.

Lemma startsAscending_cons (c : Token) (comments : list Token) :
  startsAscending (c :: comments) = true ->
  startsAscending comments = true
  /\ forall (x : Token), In x comments -> tok_start c <= tok_start x.
Proof.
  simpl. intros H. apply andb_true_iff in H as [Hall Hrest].
  split; [assumption |]. intros x Hx.
  rewrite forallb_forall in Hall. apply Z.leb_le, Hall, Hx.
Qed.

(** C5, as the code has it: a token is pushed first only when it starts
    strictly before the next comment, so a comment that starts where a token
    starts is placed before that token in the merged stream. *)
Theorem sortedMerge_tie_comment_first (tokens comments : list Token) (t c : Token) :
  startsAscending comments = true ->
  In t tokens -> In c comments -> tok_start t = tok_start c ->
  exists (pre mid post : list Token),
    sortedMerge tokens comments = pre ++ c :: mid ++ t :: post.
Proof.
  revert comments. induction tokens as [| t0 tokens IHt]; intros comments Hasc Ht Hc Htie.
  - destruct Ht.
  - induction comments as [| c0 comments IHc]; [destruct Hc |].
    destruct (startsAscending_cons _ _ Hasc) as [Hasc' Hle].
    rewrite sortedMerge_cons. destruct (Z.ltb_spec (tok_start t0) (tok_start c0)) as [Hlt | Hge].
    + (* the token starts first: it is not [t] *)
      destruct Ht as [-> | Ht].
      * destruct Hc as [-> | Hc]; [lia |]. specialize (Hle c Hc). lia.
      * destruct (IHt (c0 :: comments) Hasc Ht Hc Htie) as (pre & mid & post & E).
        exists (t0 :: pre), mid, post. now rewrite E.
    + (* the comment is pushed *)
      destruct Hc as [-> | Hc].
      * assert (Hin : In t (sortedMerge (t0 :: tokens) comments))
          by (apply sortedMerge_In; left; exact Ht).
        apply in_split in Hin as (mid & post & E).
        exists [], mid, post. now rewrite E.
      * destruct (IHc Hasc' Hc) as (pre & mid & post & E).
        exists (c0 :: pre), mid, post. now rewrite E.
Qed.

(** C5, as stated, fails: an empty token and a comment that both start at
    0; the merged stream has the comment first. *)
Lemma sortedMerge_tie_token_not_first :
  tok_start tieToken = tok_start tieComment
  /\ sortedMerge [tieToken] [tieComment] = [tieComment; tieToken]
  /\ ~ exists (pre mid post : list Token),
         sortedMerge [tieToken] [tieComment]
         = pre ++ tieToken :: mid ++ tieComment :: post.
Proof.
  split; [reflexivity |]. split; [reflexivity |].
  intros (pre & mid & post & E).
  change (sortedMerge _ _) with [tieComment; tieToken] in E.
  unfold tieComment, tieToken in E.
  destruct pre as [| p [| q pre]]; cbn [app] in E.
  - discriminate E.
  - injection E as _ E. destruct mid; discriminate E.
  - injection E as _ _ E. destruct pre; discriminate E.
Qed.

(** C5 on the same two entries. *)
Lemma sortedMerge_tie_comment_first_witness :
  startsAscending [tieComment] = true
  /\ exists (pre mid post : list Token),
       sortedMerge [tieToken] [tieComment]
       = pre ++ tieComment :: mid ++ tieToken :: post.
Proof.
  split; [reflexivity |].
  apply (sortedMerge_tie_comment_first [tieToken] [tieComment] tieToken tieComment).
  - reflexivity.
  - simpl. left. reflexivity.
  - simpl. left. reflexivity.
  - reflexivity.
Defined.

(** ** Walking the merged stream *)

Lemma filter_length_mono {A : Type} (p q : A -> bool) (l : list A) :
  (forall (x : A), In x l -> q x = true -> p x = true) ->
  (length (List.filter q l) <= length (List.filter p l))%nat.
Proof.
  induction l as [| x l IH]; intros Himp; [reflexivity |].
  assert (IH' := IH (fun y Hy => Himp y (or_intror Hy))).
  simpl. destruct (q x) eqn:Hq.
  - rewrite (Himp x (or_introl eq_refl) Hq). simpl. lia.
  - destruct (p x); simpl; lia.
Qed.

Lemma filter_length_strict {A : Type} (p q : A -> bool) (l : list A) (y : A) :
  (forall (x : A), In x l -> q x = true -> p x = true) ->
  In y l -> p y = true -> q y = false ->
  (length (List.filter q l) < length (List.filter p l))%nat.
Proof.
  induction l as [| x l IH]; intros Himp Hin Hp Hq; [destruct Hin |].
  assert (Hle := filter_length_mono p q l (fun z Hz => Himp z (or_intror Hz))).
  simpl. destruct Hin as [-> | Hin].
  - rewrite Hp, Hq. simpl. lia.
  - assert (IH' := IH (fun z Hz => Himp z (or_intror Hz)) Hin Hp Hq).
    destruct (q x) eqn:Hqx.
    + rewrite (Himp x (or_introl eq_refl) Hqx). simpl. lia.
    + destruct (p x); simpl; lia.
Qed.

Section StreamWalk.

(** A source whose merged stream has no empty entry: every step of a walk
    through the stream makes progress. *)
Variable sc : SourceCode.
Hypothesis Hne : nonEmptyEntries sc.

Lemma entry_not_empty (e : Token) :
  In e (tokensAndComments sc) -> tok_start e < tok_end e.
Proof.
  unfold nonEmptyEntries in Hne. rewrite List.Forall_forall in Hne. apply Hne.
Qed.

(** A step forward leaves strictly fewer entries ahead. *)
Lemma getTokenAfter_progress (x : NodeOrToken) (e : Token) :
  getTokenAfter sc x true = Some e ->
  (length (entriesAfter sc (AToken e)) < length (entriesAfter sc x))%nat.
Proof.
  intros Hfind. unfold getTokenAfter, stream in Hfind.
  apply find_some in Hfind as [Hin Hafter]. apply Z.leb_le in Hafter.
  pose proof (entry_not_empty e Hin) as He.
  unfold entriesAfter. apply filter_length_strict with (y := e); try assumption.
  - intros z _ Hz. apply Z.leb_le in Hz. apply Z.leb_le.
    unfold tok_start, tok_end in *. simpl in Hz. lia.
  - now apply Z.leb_le.
  - apply Z.leb_gt. simpl. exact He.
Qed.

(** A step backward leaves strictly fewer entries behind. *)
Lemma getTokenBefore_progress (x : NodeOrToken) (e : Token) :
  getTokenBefore sc x true = Some e ->
  (length (entriesBefore sc (AToken e)) < length (entriesBefore sc x))%nat.
Proof.
  intros Hfind. unfold getTokenBefore, stream in Hfind.
  apply find_some in Hfind as [Hin Hbefore]. apply in_rev in Hin.
  apply Z.leb_le in Hbefore.
  pose proof (entry_not_empty e Hin) as He.
  unfold entriesBefore. apply filter_length_strict with (y := e); try assumption.
  - intros z _ Hz. apply Z.leb_le in Hz. apply Z.leb_le.
    unfold tok_start, tok_end in *. simpl in Hz. lia.
  - now apply Z.leb_le.
  - apply Z.leb_gt. simpl. exact He.
Qed.

(** The walk of [isSpaceBetween] ends: with more fuel than there are
    entries ahead of the current token it gives a result, and the result
    does not depend on the fuel. *)
Lemma spaceWalk_ends (finalToken : NodeOrToken) (check : bool) :
  forall (n : nat) (currentToken : NodeOrToken),
    (length (entriesAfter sc currentToken) <= n)%nat ->
    exists (r : result bool),
      forall (fuel : nat), (n < fuel)%nat ->
        spaceWalk fuel sc currentToken finalToken check = Some r.
Proof.
  induction n as [| n IH]; intros cur Hn.
  - destruct (same_object cur finalToken) eqn:Hsame.
    + exists (Ok false). intros [| fuel] _; simpl; now rewrite Hsame.
    + destruct (getTokenAfter sc cur true) as [next |] eqn:Hnext.
      * apply getTokenAfter_progress in Hnext. lia.
      * exists (Throw TypeError). intros [| fuel] Hf; [lia |].
        simpl. now rewrite Hsame, Hnext.
  - destruct (same_object cur finalToken) eqn:Hsame.
    + exists (Ok false). intros [| fuel] _; simpl; now rewrite Hsame.
    + destruct (getTokenAfter sc cur true) as [next |] eqn:Hnext.
      * pose proof (getTokenAfter_progress cur next Hnext) as Hlt.
        destruct (IH (AToken next) ltac:(lia)) as [r Hr].
        destruct (negb (snd (nt_range cur) =? tok_start next)
                  || check && negb (same_object (AToken next) finalToken)
                     && String.eqb (tok_type next) "JSXText"
                     && hasWhitespace (tok_value next)) eqn:Hgap.
        -- exists (Ok true). intros [| fuel] Hf; [lia |].
           simpl. now rewrite Hsame, Hnext, Hgap.
        -- exists r. intros [| fuel] Hf; [lia |].
           simpl. rewrite Hsame, Hnext, Hgap. apply Hr. lia.
      * exists (Throw TypeError). intros [| fuel] Hf; [lia |].
        simpl. now rewrite Hsame, Hnext.
Qed.

End StreamWalk.

(** ** [isSpaceBetween] *)

Lemma nodesOrTokensOverlap_comm (a b : NodeOrToken) :
  nodesOrTokensOverlap a b = nodesOrTokensOverlap b a.
Proof. unfold nodesOrTokensOverlap. apply orb_comm. Qed.

(** On well-formed ranges the overlap test says "intersect or touch". *)
Lemma nodesOrTokensOverlap_apart (a b : NodeOrToken) :
  wellFormedRange a -> wellFormedRange b ->
  nodesOrTokensOverlap a b = false <-> rangesApart a b.
Proof.
  unfold wellFormedRange, rangesApart, nodesOrTokensOverlap. intros Ha Hb.
  destruct (Z.leb_spec (fst (nt_range a)) (fst (nt_range b)));
    destruct (Z.geb_spec (snd (nt_range a)) (fst (nt_range b)));
    destruct (Z.leb_spec (fst (nt_range b)) (fst (nt_range a)));
    destruct (Z.geb_spec (snd (nt_range b)) (fst (nt_range a)));
    cbn [andb orb]; split; intros Hgoal; try discriminate Hgoal; try lia.
Qed.

(** Both argument orders walk from the same token to the same token. *)
Lemma isSpaceBetween_swap (fuel : nat) (sc : SourceCode) (a b : NodeOrToken)
    (check : bool) :
  wellFormedRange a -> wellFormedRange b -> rangesApart a b ->
  isSpaceBetween fuel sc a b check = isSpaceBetween fuel sc b a check.
Proof.
  intros Ha Hb Hapart. unfold isSpaceBetween.
  rewrite (nodesOrTokensOverlap_comm b a).
  destruct (nodesOrTokensOverlap a b); [reflexivity |].
  unfold wellFormedRange, rangesApart in *.
  destruct (Z.leb_spec (snd (nt_range a)) (fst (nt_range b)));
    destruct (Z.leb_spec (snd (nt_range b)) (fst (nt_range a)));
    try reflexivity; lia.
Qed.

(** C6: for two nodes or tokens whose ranges neither intersect nor touch,
    [isSpaceBetween] gives the same outcome in both argument orders; for two
    that intersect or touch it is [false] in both orders.  When no entry of
    the merged stream is empty the call ends, with an outcome that does not
    depend on the order. *)
Theorem isSpaceBetween_symmetric (sc : SourceCode) (a b : NodeOrToken)
    (check : bool) :
  wellFormedRange a -> wellFormedRange b ->
  (rangesApart a b ->
   forall (fuel : nat),
     isSpaceBetween fuel sc a b check = isSpaceBetween fuel sc b a check)
  /\ (~ rangesApart a b ->
      forall (fuel : nat),
        isSpaceBetween fuel sc a b check = Some (Ok false)
        /\ isSpaceBetween fuel sc b a check = Some (Ok false))
  /\ (nonEmptyEntries sc ->
      exists (r : result bool),
        forall (fuel : nat), (length (tokensAndComments sc) < fuel)%nat ->
          isSpaceBetween fuel sc a b check = Some r
          /\ isSpaceBetween fuel sc b a check = Some r).
Proof.
  intros Ha Hb. split; [| split].
  - intros Hapart fuel. now apply isSpaceBetween_swap.
  - intros Hmeet fuel.
    assert (Hab : nodesOrTokensOverlap a b = true).
    { destruct (nodesOrTokensOverlap a b) eqn:E; [reflexivity |].
      apply nodesOrTokensOverlap_apart in E; [contradiction | assumption..]. }
    unfold isSpaceBetween. rewrite <- (nodesOrTokensOverlap_comm a b), Hab.
    split; reflexivity.
  - intros Hne.
    destruct (nodesOrTokensOverlap a b) eqn:Hab.
    + exists (Ok false). intros fuel _. unfold isSpaceBetween.
      rewrite <- (nodesOrTokensOverlap_comm a b), Hab. split; reflexivity.
    + assert (Hapart : rangesApart a b)
        by (apply nodesOrTokensOverlap_apart; assumption).
      assert (Hwalk : exists (r : result bool),
                 forall (fuel : nat), (length (tokensAndComments sc) < fuel)%nat ->
                   isSpaceBetween fuel sc a b check = Some r).
      { unfold isSpaceBetween. rewrite Hab.
        destruct (if snd (nt_range a) <=? fst (nt_range b) then (a, b) else (b, a))
          as [starting ending].
        apply (spaceWalk_ends sc Hne _ check (length (tokensAndComments sc))).
        unfold entriesAfter. apply List.filter_length_le. }
      destruct Hwalk as [r Hr]. exists r. intros fuel Hfuel.
      rewrite <- (isSpaceBetween_swap fuel sc a b check Ha Hb Hapart).
      split; apply Hr; assumption.
Qed.

(** C6 on the running example: between [a] and [b] there is a gap (after
    the comment), whichever comes first in the call; a token never has space
    between it and itself. *)
Lemma isSpaceBetween_symmetric_witness :
  isSpaceBetween 4 exampleSource (AToken tokenA) (AToken tokenB) false = Some (Ok true)
  /\ isSpaceBetween 4 exampleSource (AToken tokenB) (AToken tokenA) false = Some (Ok true)
  /\ (rangesApart (AToken tokenA) (AToken tokenB) ->
      forall (fuel : nat),
        isSpaceBetween fuel exampleSource (AToken tokenA) (AToken tokenB) false
        = isSpaceBetween fuel exampleSource (AToken tokenB) (AToken tokenA) false)
  /\ (~ rangesApart (AToken tokenA) (AToken tokenB) ->
      forall (fuel : nat),
        isSpaceBetween fuel exampleSource (AToken tokenA) (AToken tokenB) false
        = Some (Ok false)
        /\ isSpaceBetween fuel exampleSource (AToken tokenB) (AToken tokenA) false
           = Some (Ok false))
  /\ (nonEmptyEntries exampleSource ->
      exists (r : result bool),
        forall (fuel : nat), (length (tokensAndComments exampleSource) < fuel)%nat ->
          isSpaceBetween fuel exampleSource (AToken tokenA) (AToken tokenB) false = Some r
          /\ isSpaceBetween fuel exampleSource (AToken tokenB) (AToken tokenA) false
             = Some r).
Proof.
  split; [reflexivity |]. split; [reflexivity |].
  apply (isSpaceBetween_symmetric exampleSource (AToken tokenA) (AToken tokenB) false).
  - unfold wellFormedRange. simpl. lia.
  - unfold wellFormedRange. simpl. lia.
Defined.

Example isSpaceBetween_example :
  nonEmptyEntries exampleSource
  /\ rangesApart (AToken tokenA) (AToken tokenB)
  /\ isSpaceBetween 4 exampleSource (AToken tokenA) (AToken commentX) false
     = Some (Ok false)
  /\ isSpaceBetween 0 exampleSource (AToken tokenA) (AToken tokenA) false
     = Some (Ok false).
Proof.
  split; [unfold nonEmptyEntries; vm_compute; repeat constructor |].
  split; [left; simpl; lia |]. split; reflexivity.
Qed.

(** ** The tree *)

Lemma someNodes_app (a b : list (option Node)) :
  someNodes (a ++ b) = someNodes a ++ someNodes b.
Proof. unfold someNodes. apply flat_map_app. Qed.

Lemma childNodes_flat (n : Node) :
  childNodes n = someNodes (flat_map snd (node_fields n)).
Proof.
  unfold childNodes. induction (node_fields n) as [| f fs IH]; [reflexivity |].
  simpl. now rewrite someNodes_app, IH.
Qed.

Lemma nodesOf_eq (n : Node) : nodesOf n = n :: descendants n.
Proof.
  destruct n as [id type range parent fields toks coms]. simpl. f_equal.
  unfold descendants, childNodes. simpl.
  induction fields as [| [key cs] fields IH]; [reflexivity |].
  simpl. rewrite flat_map_app, <- IH. f_equal.
  induction cs as [| [c |] cs IHcs]; [reflexivity | |]; simpl.
  - now rewrite IHcs.
  - exact IHcs.
Qed.

Lemma flat_map_split {A B : Type} (f : A -> list B) (l : list A) (x : A) :
  In x l -> exists (pre post : list B), flat_map f l = pre ++ f x ++ post.
Proof.
  intros Hin. apply in_split in Hin as (l1 & l2 & ->).
  rewrite flat_map_app. simpl. eauto.
Qed.

Lemma In_nodesOf_self (n : Node) : In n (nodesOf n).
Proof. rewrite nodesOf_eq. now left. Qed.

Lemma In_nodesOf_child (n c d : Node) :
  In c (childNodes n) -> In d (nodesOf c) -> In d (descendants n).
Proof. intros Hc Hd. unfold descendants. apply in_flat_map. eauto. Qed.

Lemma nodesOf_child_smaller (n c : Node) :
  In c (childNodes n) -> (length (nodesOf c) < length (nodesOf n))%nat.
Proof.
  intros Hc. rewrite (nodesOf_eq n). unfold descendants.
  destruct (flat_map_split nodesOf _ _ Hc) as (pre & post & ->).
  simpl. rewrite !length_app. lia.
Qed.

(** Induction on a tree: a property holds of a node when it holds of the
    nodes directly below it. *)
Lemma Node_children_ind (P : Node -> Prop) :
  (forall (n : Node), (forall (c : Node), In c (childNodes n) -> P c) -> P n) ->
  forall (n : Node), P n.
Proof.
  intros step n. remember (length (nodesOf n)) as size eqn:Hsize.
  revert n Hsize. induction size as [size IH] using lt_wf_ind. intros n ->.
  apply step. intros c Hc.
  exact (IH (length (nodesOf c)) (nodesOf_child_smaller n c Hc) c eq_refl).
Qed.

(** Distinct identities and nested ranges pass to the subtrees. *)
Lemma distinctNodes_child (n c : Node) :
  distinctNodes n -> In c (childNodes n) ->
  distinctNodes c /\ ~ In (node_id n) (map node_id (nodesOf c)).
Proof.
  unfold distinctNodes. intros Hn Hc. rewrite (nodesOf_eq n) in Hn.
  unfold descendants in Hn.
  destruct (flat_map_split nodesOf _ _ Hc) as (pre & post & E).
  rewrite E in Hn. simpl in Hn. rewrite !map_app in Hn.
  apply NoDup_cons in Hn as [Hfresh Hn].
  apply NoDup_app in Hn as (_ & _ & Hn). apply NoDup_app in Hn as (Hn & _ & _).
  split; [assumption |]. intros Hin. apply Hfresh.
  apply list_elem_of_In. apply in_or_app. right. apply in_or_app. now left.
Qed.

Lemma nestedRanges_child (n c : Node) :
  nestedRanges n = true -> In c (childNodes n) ->
  nestedRanges c = true
  /\ node_start n <= node_start c /\ node_end c <= node_end n.
Proof.
  unfold nestedRanges. rewrite !forallb_forall. intros Hn Hc. split.
  - intros p Hp. apply Hn. rewrite nodesOf_eq. right.
    now apply (In_nodesOf_child n c p).
  - specialize (Hn n (In_nodesOf_self n)). rewrite forallb_forall in Hn.
    specialize (Hn c Hc). apply andb_true_iff in Hn as [H1 H2].
    split; [now apply Z.leb_le in H1 | now apply Z.leb_le in H2].
Qed.

(** ** [getNodeByRangeIndex] *)

Lemma traverse_eq {S : Type} (v : Visitor S) (node : Node) (s : S) :
  traverse v node s
  = let '(s1, asked) := enter v node s in
    let '(s2, broken) :=
      match asked with
      | Continue => visitFields (traverse v) (node_fields node) s1
      | Skip => (s1, false)
      | Break => (s1, true)
      end in
    if broken then (s2, true)
    else
      let '(s3, asked') := leave v node s2 in
      (s3, match asked' with Break => true | _ => false end).
Proof. destruct node; reflexivity. Qed.

Lemma visitChildren_app {S : Type} (visit : Node -> S -> S * bool)
    (a b : list (option Node)) (s : S) :
  visitChildren visit (a ++ b) s
  = let '(s', broken) := visitChildren visit a s in
    if broken then (s', true) else visitChildren visit b s'.
Proof.
  revert s. induction a as [| [c |] a IH]; intros s; simpl.
  - destruct (visitChildren visit b s) as [s' [|]]; reflexivity.
  - destruct (visit c s) as [s' [|]]; [reflexivity | apply IH].
  - apply IH.
Qed.

(** The two loops of the traversal visit the child nodes in order. *)
Lemma visitFields_flat {S : Type} (visit : Node -> S -> S * bool)
    (fs : list (string * list (option Node))) (s : S) :
  visitFields visit fs s = visitChildren visit (flat_map snd fs) s.
Proof.
  revert s. induction fs as [| [key cs] fs IH]; intros s; [reflexivity |].
  simpl. rewrite visitChildren_app.
  destruct (visitChildren visit cs s) as [s' [|]]; [reflexivity | apply IH].
Qed.

Section RangeIndex.

(** The traversal of [getNodeByRangeIndex(index)]. *)
Variable index : Z.

Lemma visitChildren_rangeIndex (s : option Node) (cs : list (option Node)) :
  (forall (c : Node), In c (someNodes cs) -> subtreeOutcome index c s) ->
  (visitChildren (traverse (rangeIndexVisitor index)) cs s = (s, false)
   /\ forall (c : Node), In c (someNodes cs) -> noneContains index c)
  \/ (exists (r c : Node),
        In c (someNodes cs) /\ In r (nodesOf c) /\ deepestAt index r
        /\ visitChildren (traverse (rangeIndexVisitor index)) cs s = (Some r, true)).
Proof.
  induction cs as [| [c |] cs IH]; intros Hall.
  - left. split; [reflexivity | intros c []].
  - assert (Hrest : forall (c' : Node), In c' (someNodes cs) -> subtreeOutcome index c' s).
    { intros c' Hc'. apply Hall. simpl. now right. }
    destruct (Hall c ltac:(simpl; now left)) as [Hyes Hno].
    simpl visitChildren.
    destruct (containsIndex c index) eqn:Hc.
    + destruct (Hyes eq_refl) as (r & Hr & Hin & Hdeep). right.
      exists r, c. rewrite Hr. repeat split; try assumption; try apply Hdeep.
      simpl. now left.
    + destruct (Hno eq_refl) as [Hskip Hnone]. rewrite Hskip.
      destruct (IH Hrest) as [[Hloop Hnones] | (r & c' & Hc' & Hin & Hdeep & Hloop)].
      * left. split; [assumption |]. intros c' [<- | Hc']; auto.
      * right. exists r, c'. repeat split; try assumption; try apply Hdeep.
        simpl. now right.
  - simpl. apply IH. exact Hall.
Qed.

(** The traversal of a subtree, by induction on the tree. *)
Lemma traverse_rangeIndex (n : Node) :
  distinctNodes n -> nestedRanges n = true ->
  forall (s : option Node), freshFor s n -> subtreeOutcome index n s.
Proof.
  induction n as [n IH] using Node_children_ind.
  intros Hdistinct Hnested s Hfresh.
  assert (Hchildren : forall (s' : option Node),
             (forall (c : Node), In c (childNodes n) -> freshFor s' c) ->
             forall (c : Node), In c (childNodes n) -> subtreeOutcome index c s').
  { intros s' Hs' c Hc. apply IH; try assumption.
    - apply (distinctNodes_child n c Hdistinct Hc).
    - apply (nestedRanges_child n c Hnested Hc).
    - now apply Hs'. }
  split; intros Hcontains.
  - (* the node is recorded, then its children are visited *)
    rewrite traverse_eq. cbn [enter leave rangeIndexVisitor].
    fold (containsIndex n index). rewrite Hcontains, visitFields_flat.
    assert (Hfresh' : forall (c : Node), In c (childNodes n) -> freshFor (Some n) c).
    { intros c Hc r [= <-]. apply (distinctNodes_child n c Hdistinct Hc). }
    destruct (visitChildren_rangeIndex (Some n) (flat_map snd (node_fields n)))
      as [[Hloop Hnone] | (r & c & Hc & Hin & Hdeep & Hloop)].
    + intros c Hc. apply (Hchildren (Some n) Hfresh'). now rewrite childNodes_flat.
    + rewrite Hloop. cbn [is_result]. rewrite N.eqb_refl.
      exists n. split; [reflexivity |]. split; [apply In_nodesOf_self |].
      split; [assumption |]. intros d Hd. unfold descendants in Hd.
      apply in_flat_map in Hd as (c & Hc & Hd).
      apply (Hnone c); [now rewrite <- childNodes_flat | assumption].
    + rewrite Hloop. exists r. split; [reflexivity |]. split; [| assumption].
      rewrite nodesOf_eq. right. apply (In_nodesOf_child n c r); [| assumption].
      now rewrite childNodes_flat.
  - (* the subtree is skipped *)
    rewrite traverse_eq. cbn [enter leave rangeIndexVisitor].
    fold (containsIndex n index). rewrite Hcontains.
    assert (Hother : is_result n s = false).
    { destruct s as [r |]; [| reflexivity]. cbn [is_result].
      apply N.eqb_neq. intros E. apply (Hfresh r eq_refl).
      rewrite <- E. apply in_map, In_nodesOf_self. }
    rewrite Hother. split; [reflexivity |].
    intros d Hd. rewrite nodesOf_eq in Hd. destruct Hd as [<- | Hd]; [assumption |].
    unfold descendants in Hd. apply in_flat_map in Hd as (c & Hc & Hd).
    destruct (nestedRanges_child n c Hnested Hc) as (_ & Hlo & Hhi).
    assert (Hc_out : containsIndex c index = false).
    { unfold containsIndex, node_start, node_end in *.
      apply andb_false_iff in Hcontains as [H | H];
        [apply Z.leb_gt in H | apply Z.ltb_ge in H].
      - apply andb_false_iff. left. apply Z.leb_gt. lia.
      - apply andb_false_iff. right. apply Z.ltb_ge. lia. }
    destruct (Hchildren None ltac:(intros ? ? ? [=]) c Hc) as [_ Hno].
    now apply (Hno Hc_out).
Qed.

End RangeIndex.

(** C7: in a tree whose nodes are distinct objects and whose ranges nest,
    [getNodeByRangeIndex] answers a node of the tree whose range contains the
    index while the range of no node below it does; it answers [null] exactly
    when the index lies outside every node of the tree. *)
Theorem getNodeByRangeIndex_deepest (sc : SourceCode) (index : Z) :
  distinctNodes (ast sc) -> nestedRanges (ast sc) = true ->
  match getNodeByRangeIndex sc index with
  | Some r =>
      In r (nodesOf (ast sc))
      /\ containsIndex r index = true
      /\ forall (d : Node), In d (descendants r) -> containsIndex d index = false
  | None =>
      forall (n : Node), In n (nodesOf (ast sc)) -> containsIndex n index = false
  end.
Proof.
  intros Hdistinct Hnested. unfold getNodeByRangeIndex.
  destruct (traverse_rangeIndex index (ast sc) Hdistinct Hnested None
              ltac:(intros ? [=])) as [Hyes Hno].
  destruct (containsIndex (ast sc) index) eqn:Hroot.
  - destruct (Hyes eq_refl) as (r & -> & Hin & Hdeep & Hbelow). cbn [fst].
    repeat split; assumption.
  - destruct (Hno eq_refl) as [-> Hnone]. cbn [fst]. exact Hnone.
Qed.

(** C7 on the running example: offset 5 is the identifier [b]. *)
Lemma getNodeByRangeIndex_deepest_witness :
  distinctNodes (ast exampleSource)
  /\ nestedRanges (ast exampleSource) = true
  /\ match getNodeByRangeIndex exampleSource 5 with
     | Some r =>
         In r (nodesOf (ast exampleSource))
         /\ containsIndex r 5 = true
         /\ forall (d : Node), In d (descendants r) -> containsIndex d 5 = false
     | None =>
         forall (n : Node), In n (nodesOf (ast exampleSource)) -> containsIndex n 5 = false
     end.
Proof.
  assert (H1 : distinctNodes (ast exampleSource)).
  { unfold distinctNodes. apply (bool_decide_unpack _). vm_compute. exact I. }
  assert (H2 : nestedRanges (ast exampleSource) = true) by reflexivity.
  split; [exact H1 |]. split; [exact H2 |].
  exact (getNodeByRangeIndex_deepest exampleSource 5 H1 H2).
Defined.

Example getNodeByRangeIndex_example :
  option_map node_id (getNodeByRangeIndex exampleSource 5) = Some 4%N
  /\ option_map node_id (getNodeByRangeIndex exampleSource 2) = Some 0%N
  /\ getNodeByRangeIndex exampleSource 6 = None.
Proof. repeat split; reflexivity. Qed.

(** ** [getScope] *)

(** Induction along the parent chain: a property holds of a node when it
    holds of its parent. *)
Lemma Node_parent_ind (P : Node -> Prop) :
  (forall (n : Node), (forall (p : Node), node_parent n = Some p -> P p) -> P n) ->
  forall (n : Node), P n.
Proof.
  intros step n.
  remember (length (ancestorsStartingAtParent n)) as depth eqn:Hdepth.
  revert n Hdepth. induction depth as [| depth IH]; intros n Hdepth.
  - apply step. intros p Hp. destruct n; simpl in *. subst. discriminate Hdepth.
  - apply step. intros p Hp. apply IH. destruct n; simpl in *. subst.
    simpl in Hdepth. now injection Hdepth.
Qed.

(** The loop of [getScope] goes through the parent chain. *)
Lemma acquireFirst_firstYield (sm : ScopeManager) (inner : bool) (node : Node) :
  acquireFirst sm inner node = firstYield sm inner (parentChain node).
Proof.
  unfold parentChain. induction node as [node IH] using Node_parent_ind.
  destruct node as [id type range parent fields toks coms].
  simpl in *. destruct (acquire sm _ inner); [reflexivity |].
  destruct parent as [p |]; [| reflexivity].
  now rewrite (IH p eq_refl).
Qed.

(** Among distinct objects, the identity tells the node. *)
Lemma NoDup_node_id (nodes : list Node) (n m : Node) :
  NoDup (map node_id nodes) -> In n nodes -> In m nodes ->
  node_id n = node_id m -> n = m.
Proof.
  induction nodes as [| x nodes IH]; intros Hnd Hn Hm E; [destruct Hn |].
  simpl in Hnd. apply NoDup_cons in Hnd as [Hx Hnd].
  assert (Hfresh : forall (y : Node), In y nodes -> node_id y <> node_id x).
  { intros y Hy Ey. apply Hx. rewrite <- Ey.
    apply list_elem_of_In, in_map, Hy. }
  destruct Hn as [-> | Hn], Hm as [-> | Hm].
  - reflexivity.
  - exfalso. now apply (Hfresh m Hm).
  - exfalso. now apply (Hfresh n Hn).
  - now apply IH.
Qed.

Section ScopeCache.

(** The cache of [getScope] over the nodes of one tree, which are distinct
    objects. *)
Variable sm : ScopeManager.
Variable nodes : list Node.
Hypothesis Hnd : NoDup (map node_id nodes).

Lemma scopeCacheHolds_empty : scopeCacheHolds sm nodes ∅.
Proof. intros n s _ H. rewrite lookup_empty in H. discriminate H. Qed.

Lemma scopeCacheHolds_insert (cache : gmap N (option Scope)) (node : Node) :
  In node nodes ->
  scopeCacheHolds sm nodes cache ->
  scopeCacheHolds sm nodes (<[node_id node := scopeOf sm node]> cache).
Proof.
  intros Hnode Hcache n s Hn Hlook.
  destruct (decide (node_id node = node_id n)) as [E | E].
  - rewrite E, lookup_insert_eq in Hlook. injection Hlook as Hs.
    now rewrite <- (NoDup_node_id nodes node n Hnd Hnode Hn E).
  - rewrite lookup_insert_ne in Hlook by exact E. now apply Hcache.
Qed.

End ScopeCache.

(** C9: for a node that is present, [getScope] goes up the parent chain
    and answers the scope of the first node the scope manager has a scope
    for, or the first child of that scope when it is a
    "function-expression-name" scope; when no node of the chain has a scope
    it answers [scopes[0]].  The cache only ever holds such answers. *)
Theorem getScope_spec (sc : SourceCode) (sm : ScopeManager) (nodes : list Node)
    (node : Node) (cache : gmap N (option Scope)) :
  scopeManager sc = Some sm ->
  NoDup (map node_id nodes) -> In node nodes ->
  scopeCacheHolds sm nodes cache ->
  exists (cache' : gmap N (option Scope)),
    getScope sc (Some node) cache = (Ok (scopeOf sm node), cache')
    /\ scopeCacheHolds sm nodes cache'.
Proof.
  intros Hsm Hnd Hnode Hcache. unfold getScope. rewrite Hsm.
  pose proof (scopeCacheHolds_insert sm nodes Hnd cache node Hnode Hcache) as Hnew.
  assert (Hmiss :
    exists (cache' : gmap N (option Scope)),
      match acquireFirst sm (negb (String.eqb (node_type node) "Program")) node with
      | Some scope =>
          if String.eqb (scope_type scope) "function-expression-name"
          then (Ok (arr_get (childScopes scope) 0),
                <[node_id node := arr_get (childScopes scope) 0]> cache)
          else (Ok (Some scope), <[node_id node := Some scope]> cache)
      | None =>
          (Ok (arr_get (scopes sm) 0), <[node_id node := arr_get (scopes sm) 0]> cache)
      end = (Ok (scopeOf sm node), cache')
      /\ scopeCacheHolds sm nodes cache').
  { unfold scopeOf in *. rewrite acquireFirst_firstYield.
    destruct (firstYield sm _ (parentChain node)) as [scope |].
    - destruct (String.eqb (scope_type scope) "function-expression-name");
        eexists; split; try reflexivity; exact Hnew.
    - eexists; split; [reflexivity | exact Hnew]. }
  destruct (cache !! node_id node) as [[cached |] |] eqn:Hlook; try exact Hmiss.
  exists cache. split; [| exact Hcache].
  now rewrite (Hcache node cached Hnode Hlook).
Qed.

(** C9 on the named function expression: the identifier inside it gets the
    scope of the function, not the scope of the name. *)
Lemma getScope_spec_witness :
  scopeManager scopedSource = Some exampleManager
  /\ NoDup (map node_id [scopedIdentifier; scopedFunction; scopedProgram])
  /\ In scopedIdentifier [scopedIdentifier; scopedFunction; scopedProgram]
  /\ scopeOf exampleManager scopedIdentifier = Some functionScope
  /\ exists (cache' : gmap N (option Scope)),
       getScope scopedSource (Some scopedIdentifier) ∅
       = (Ok (scopeOf exampleManager scopedIdentifier), cache')
       /\ scopeCacheHolds exampleManager
            [scopedIdentifier; scopedFunction; scopedProgram] cache'.
Proof.
  assert (H1 : scopeManager scopedSource = Some exampleManager) by reflexivity.
  assert (H2 : NoDup (map node_id [scopedIdentifier; scopedFunction; scopedProgram]))
    by (apply (bool_decide_unpack _); vm_compute; exact I).
  assert (H3 : In scopedIdentifier [scopedIdentifier; scopedFunction; scopedProgram])
    by (left; reflexivity).
  split; [exact H1 |]. split; [exact H2 |]. split; [exact H3 |].
  split; [reflexivity |].
  exact (getScope_spec scopedSource exampleManager
           [scopedIdentifier; scopedFunction; scopedProgram] scopedIdentifier ∅
           H1 H2 H3
           (scopeCacheHolds_empty exampleManager
              [scopedIdentifier; scopedFunction; scopedProgram])).
Defined.

(** ** [getComments] *)

(** A call that misses the cache computes what a call on an empty cache
    computes, and stores it. *)
Lemma getComments_miss (fuel : nat) (sc : SourceCode) (node : Node)
    (cache : gmap N Comments) :
  cache !! node_id node = None ->
  getComments fuel sc node cache
  = match getComments fuel sc node ∅ with
    | Some (r, _) => Some (r, <[node_id node := r]> cache)
    | None => None
    end.
Proof.
  intros Hmiss. unfold getComments. rewrite Hmiss, lookup_empty. cbv zeta.
  match goal with
  | |- match ?computed with _ => _ end = _ => destruct computed; reflexivity
  end.
Qed.

Section CommentLoops.

(** The two loops of [getComments] for one node, over a merged stream
    without empty entries. *)
Variable sc : SourceCode.
Hypothesis Hne : nonEmptyEntries sc.
Variable node : Node.

(** A loop that stops at once returns what it has collected, whatever the
    fuel; [tac] rewrites the tests that make it stop. *)
Ltac stops_with acc tac :=
  exists acc; intros [| ?] ?; [lia | simpl; tac; reflexivity].

(** The second loop only adds to [trailing]. *)
Lemma commentsAfter_extends (fuel : nat) :
  forall (cur : option Token) (acc out : list Token),
    commentsAfter fuel sc node cur acc = Some out ->
    exists (more : list Token), out = acc ++ more.
Proof.
  induction fuel as [| fuel IH]; intros cur acc out H; [discriminate H |].
  simpl in H. destruct cur as [tok |].
  - destruct (isCommentToken tok).
    + destruct (outsideParent node _).
      * injection H as <-. exists []. now rewrite app_nil_r.
      * apply IH in H as [more ->]. exists (tok :: more). now rewrite <- app_assoc.
    + injection H as <-. exists []. now rewrite app_nil_r.
  - injection H as <-. exists []. now rewrite app_nil_r.
Qed.

(** The first loop only collects entries that end at or before the node. *)
Lemma commentsBefore_bound (bound : Z) (fuel : nat) :
  forall (cur : option Token) (acc out : list Token),
    (forall (x : Token), In x acc -> tok_end x <= bound) ->
    (forall (t : Token), cur = Some t ->
       In t (tokensAndComments sc) /\ tok_end t <= bound) ->
    commentsBefore fuel sc node cur acc = Some out ->
    forall (x : Token), In x out -> tok_end x <= bound.
Proof.
  induction fuel as [| fuel IH]; intros cur acc out Hacc Hcur H;
    [discriminate H |].
  simpl in H. destruct cur as [tok |].
  - destruct (Hcur tok eq_refl) as [Hin Hend].
    destruct (isCommentToken tok).
    + destruct (outsideParent node _).
      * injection H as <-. exact Hacc.
      * apply (IH (getTokenBefore sc (AToken tok) true) (acc ++ [tok]) out);
          [| | exact H].
        -- intros x Hx. apply in_app_or in Hx as [Hx | [<- | []]]; auto.
        -- intros t Ht. unfold getTokenBefore, stream in Ht.
           apply find_some in Ht as [Ht Hle]. apply in_rev in Ht.
           split; [assumption |]. apply Z.leb_le in Hle. simpl in Hle.
           pose proof (entry_not_empty sc Hne tok Hin) as Htok.
           unfold tok_start, tok_end in *. lia.
    + injection H as <-. exact Hacc.
  - injection H as <-. exact Hacc.
Qed.

(** Both loops end. *)
Lemma commentsBefore_ends :
  forall (n : nat) (cur : option Token) (acc : list Token),
    (stepsBefore sc cur <= n)%nat ->
    exists (out : list Token),
      forall (fuel : nat), (n < fuel)%nat ->
        commentsBefore fuel sc node cur acc = Some out.
Proof.
  induction n as [| n IH]; intros cur acc Hn.
  - destruct cur as [tok |]; [simpl in Hn; lia |]. stops_with acc idtac.
  - destruct cur as [tok |]; [| stops_with acc idtac].
    destruct (isCommentToken tok) eqn:Hcomment;
      [| stops_with acc ltac:(rewrite Hcomment)].
    destruct (outsideParent node (fun parent => tok_start tok <? node_start parent))
      eqn:Hout; [stops_with acc ltac:(rewrite Hcomment, Hout) |].
    destruct (IH (getTokenBefore sc (AToken tok) true) (acc ++ [tok])) as [out Hout'].
    { destruct (getTokenBefore sc (AToken tok) true) as [e |] eqn:He; [| simpl; lia].
      pose proof (getTokenBefore_progress sc Hne (AToken tok) e He).
      simpl in *. lia. }
    exists out. intros [| fuel] Hf; [lia |].
    simpl. rewrite Hcomment, Hout. apply Hout'. lia.
Qed.

Lemma commentsAfter_ends :
  forall (n : nat) (cur : option Token) (acc : list Token),
    (stepsAfter sc cur <= n)%nat ->
    exists (out : list Token),
      forall (fuel : nat), (n < fuel)%nat ->
        commentsAfter fuel sc node cur acc = Some out.
Proof.
  induction n as [| n IH]; intros cur acc Hn.
  - destruct cur as [tok |]; [simpl in Hn; lia |]. stops_with acc idtac.
  - destruct cur as [tok |]; [| stops_with acc idtac].
    destruct (isCommentToken tok) eqn:Hcomment;
      [| stops_with acc ltac:(rewrite Hcomment)].
    destruct (outsideParent node (fun parent => tok_end tok >? node_end parent))
      eqn:Hout; [stops_with acc ltac:(rewrite Hcomment, Hout) |].
    destruct (IH (getTokenAfter sc (AToken tok) true) (acc ++ [tok])) as [out Hout'].
    { destruct (getTokenAfter sc (AToken tok) true) as [e |] eqn:He; [| simpl; lia].
      pose proof (getTokenAfter_progress sc Hne (AToken tok) e He).
      simpl in *. lia. }
    exists out. intros [| fuel] Hf; [lia |].
    simpl. rewrite Hcomment, Hout. apply Hout'. lia.
Qed.

Lemma stepsBefore_bound (cur : option Token) :
  (stepsBefore sc cur <= S (length (tokensAndComments sc)))%nat.
Proof.
  destruct cur as [t |]; simpl; [| lia].
  unfold entriesBefore. pose proof (List.filter_length_le
    (fun e => tok_end e <=? fst (nt_range (AToken t))) (tokensAndComments sc)). lia.
Qed.

Lemma stepsAfter_bound (cur : option Token) :
  (stepsAfter sc cur <= S (length (tokensAndComments sc)))%nat.
Proof.
  destruct cur as [t |]; simpl; [| lia].
  unfold entriesAfter. pose proof (List.filter_length_le
    (fun e => snd (nt_range (AToken t)) <=? tok_start e) (tokensAndComments sc)). lia.
Qed.

(** What [getComments] computes for a node that can only contain
    comments. *)
Lemma getComments_inside (fuel : nat) (r : Comments) (cache' : gmap N Comments) :
  node_type node <> "Program" -> onlyContainsComments node = true ->
  getComments fuel sc node ∅ = Some (r, cache') ->
  insideAreTrailing sc node r.
Proof.
  intros Htype Hempty H. unfold getComments in H.
  rewrite lookup_empty in H. cbv zeta in H.
  apply String.eqb_neq in Htype. rewrite Htype, Hempty in H.
  destruct (commentsBefore fuel sc node _ []) as [pushed |] eqn:Hbefore;
    [| discriminate H].
  destruct (commentsAfter fuel sc node _ _) as [after |] eqn:Hafter;
    [| discriminate H].
  injection H as <- _.
  intros c Hc Hcomment Hstart Hend. cbn [leading trailing]. split.
  - apply commentsAfter_extends in Hafter as [more ->].
    apply in_or_app. left. unfold getTokens, stream.
    apply filter_In. split; [assumption |].
    cbn [nt_range]. fold (node_start node) (node_end node). rewrite Hcomment.
    rewrite !andb_true_r. apply andb_true_iff. split; apply Z.leb_le; lia.
  - intros Hlead. apply in_rev in Hlead.
    assert (Hbound : tok_end c <= node_start node).
    { apply (commentsBefore_bound (node_start node) fuel
               (getTokenBefore sc (ANode node) true) [] pushed);
        try assumption.
      - intros x [].
      - intros t Ht. unfold getTokenBefore, stream in Ht.
        apply find_some in Ht as [Ht Hle]. apply in_rev in Ht.
        split; [assumption |]. now apply Z.leb_le in Hle. }
    pose proof (entry_not_empty sc Hne c Hc). lia.
Qed.

(** With enough fuel [getComments] gives a result on an empty cache. *)
Lemma getComments_ends :
  exists (r : Comments),
    forall (fuel : nat), (S (length (tokensAndComments sc)) < fuel)%nat ->
      getComments fuel sc node ∅ = Some (r, <[node_id node := r]> ∅).
Proof.
  unfold getComments. rewrite lookup_empty. cbv zeta.
  destruct (String.eqb (node_type node) "Program").
  - destruct (len (node_field node "body") =? 0); eexists; intros; reflexivity.
  - destruct (commentsBefore_ends (S (length (tokensAndComments sc)))
                (getTokenBefore sc (ANode node) true) [] (stepsBefore_bound _))
      as [pushed Hpushed].
    destruct (commentsAfter_ends (S (length (tokensAndComments sc)))
                (getTokenAfter sc (ANode node) true)
                (if onlyContainsComments node
                 then getTokens sc (ANode node) true isCommentToken else [])
                (stepsAfter_bound _))
      as [after Hafter].
    exists (mkComments (rev pushed) after). intros fuel Hfuel.
    now rewrite (Hpushed fuel Hfuel), (Hafter fuel Hfuel).
Qed.

End CommentLoops.

(** C8: for a node other than the root that is empty by construction (an
    empty block, class body, object expression or array expression, or a
    switch statement without cases), [getComments] gives a result, and every
    comment strictly inside the range of the node is among its trailing
    comments and not among its leading comments.  The cache only ever holds
    what [getComments] computed. *)
Theorem getComments_empty_node (sc : SourceCode) (nodes : list Node) (node : Node)
    (cache : gmap N Comments) :
  nonEmptyEntries sc ->
  node_type node <> "Program" -> onlyContainsComments node = true ->
  NoDup (map node_id nodes) -> In node nodes ->
  commentCacheHolds sc nodes cache ->
  exists (r : Comments) (cache' : gmap N Comments),
    (forall (fuel : nat), (S (length (tokensAndComments sc)) < fuel)%nat ->
       getComments fuel sc node cache = Some (r, cache'))
    /\ insideAreTrailing sc node r
    /\ commentCacheHolds sc nodes cache'.
Proof.
  intros Hne Htype Hempty Hnd Hnode Hcache.
  destruct (cache !! node_id node) as [cached |] eqn:Hlook.
  - (* cached by an earlier call *)
    exists cached, cache. split; [| split; [| exact Hcache]].
    + intros fuel _. unfold getComments. now rewrite Hlook.
    + destruct (Hcache node cached Hnode Hlook) as [fuel Hfuel].
      exact (getComments_inside sc Hne node fuel cached _ Htype Hempty Hfuel).
  - destruct (getComments_ends sc Hne node) as [r Hr].
    exists r, (<[node_id node := r]> cache). split; [| split].
    + intros fuel Hfuel. rewrite (getComments_miss fuel sc node cache Hlook).
      now rewrite (Hr fuel Hfuel).
    + exact (getComments_inside sc Hne node _ r _ Htype Hempty
               (Hr (S (S (length (tokensAndComments sc)))) ltac:(lia))).
    + intros n r' Hn Hlook'.
      destruct (decide (node_id node = node_id n)) as [E | E].
      * rewrite E, lookup_insert_eq in Hlook'. injection Hlook' as <-.
        rewrite <- (NoDup_node_id nodes node n Hnd Hnode Hn E).
        exists (S (S (length (tokensAndComments sc)))). apply Hr. lia.
      * rewrite lookup_insert_ne in Hlook' by exact E. now apply Hcache.
Qed.

(** C8 on the empty block of the spec: the comment is the one trailing
    comment of the block, and the block has no leading comment. *)
Lemma getComments_empty_node_witness :
  option_map fst (getComments 5 blockSource emptyBlock ∅)
  = Some {| leading := []; trailing := [commentC] |}
  /\ exists (r : Comments) (cache' : gmap N Comments),
       (forall (fuel : nat), (S (length (tokensAndComments blockSource)) < fuel)%nat ->
          getComments fuel blockSource emptyBlock ∅ = Some (r, cache'))
       /\ insideAreTrailing blockSource emptyBlock r
       /\ commentCacheHolds blockSource [emptyBlock] cache'.
Proof.
  split; [vm_compute; reflexivity |].
  apply (getComments_empty_node blockSource [emptyBlock] emptyBlock ∅).
  - unfold nonEmptyEntries. vm_compute. repeat constructor.
  - discriminate.
  - reflexivity.
  - apply (bool_decide_unpack _). vm_compute. exact I.
  - left. reflexivity.
  - intros n r _ H. rewrite lookup_empty in H. discriminate H.
Defined.


(** * More properties of the code *)

(** ** [sortedMerge]: nothing is lost, order is kept *)

Lemma sortedMerge_perm (tokens comments : list Token) :
  Permutation (sortedMerge tokens comments) (tokens ++ comments).
Proof.
  revert comments. induction tokens as [| t tokens IHt]; intros comments.
  - reflexivity.
  - induction comments as [| c comments IHc].
    + rewrite sortedMerge_nil_r, app_nil_r. reflexivity.
    + rewrite sortedMerge_cons. destruct (tok_start t <? tok_start c).
      * cbn [app]. constructor. apply IHt.
      * rewrite IHc. exact (Permutation_middle (t :: tokens) comments c).
Qed.

(** X1: The merged stream holds the tokens and the comments, each as often as
    the two arrays do, and nothing else. *)
Theorem sortedMerge_Permutation (tokens comments : list Token) :
  Permutation (sortedMerge tokens comments) (tokens ++ comments)
  /\ length (sortedMerge tokens comments) = (length tokens + length comments)%nat.
Proof.
  split; [apply sortedMerge_perm | apply sortedMerge_length].
Qed.

Lemma startsAscending_spec (l : list Token) :
  startsAscending l = true
  <-> forall (pre post : list Token) (a b : Token),
        l = pre ++ a :: post -> In b post -> tok_start a <= tok_start b.
Proof.
  induction l as [| x l IH].
  - split; [| reflexivity]. intros _ pre post a b E. destruct pre; discriminate E.
  - simpl. rewrite andb_true_iff, forallb_forall, IH. split.
    + intros [Hhead Htail] pre post a b E Hb. destruct pre as [| p pre].
      * injection E as <- <-. apply Z.leb_le, Hhead, Hb.
      * injection E as _ E. exact (Htail pre post a b E Hb).
    + intros H. split.
      * intros b Hb. apply Z.leb_le. exact (H [] l x b eq_refl Hb).
      * intros pre post a b E Hb. apply (H (x :: pre) post a b); [| exact Hb].
        now rewrite E.
Qed.

Lemma startsAscending_head (x : Token) (l : list Token) :
  startsAscending (x :: l) = true
  <-> (forall (b : Token), In b l -> tok_start x <= tok_start b)
      /\ startsAscending l = true.
Proof.
  simpl. rewrite andb_true_iff, forallb_forall. split; intros [H1 H2]; split;
    try assumption; intros b Hb; [apply Z.leb_le | apply Z.leb_le]; auto.
Qed.

(** X2: Two arrays in ascending order of start give a merged stream in
    ascending order of start. *)
Theorem sortedMerge_ascending (tokens comments : list Token) :
  startsAscending tokens = true -> startsAscending comments = true ->
  startsAscending (sortedMerge tokens comments) = true.
Proof.
  revert comments. induction tokens as [| t tokens IHt]; intros comments Ht Hc.
  - exact Hc.
  - induction comments as [| c comments IHc].
    + now rewrite sortedMerge_nil_r.
    + apply startsAscending_head in Ht as Ht'. destruct Ht' as [Ht1 Ht2].
      apply startsAscending_head in Hc as Hc'. destruct Hc' as [Hc1 Hc2].
      rewrite sortedMerge_cons.
      destruct (Z.ltb_spec (tok_start t) (tok_start c)) as [Hlt | Hge].
      * apply startsAscending_head. split; [| now apply IHt].
        intros b Hb. apply sortedMerge_In in Hb as [Hb | [<- | Hb]].
        -- now apply Ht1.
        -- lia.
        -- specialize (Hc1 b Hb). lia.
      * apply startsAscending_head. split; [| now apply IHc].
        intros b Hb. apply sortedMerge_In in Hb as [[<- | Hb] | Hb].
        -- lia.
        -- specialize (Ht1 b Hb). lia.
        -- now apply Hc1.
Qed.

Lemma sortedMerge_ascending_witness :
  startsAscending [tokenA; tokenB] = true
  /\ startsAscending [commentX] = true
  /\ startsAscending (sortedMerge [tokenA; tokenB] [commentX]) = true.
Proof.
  assert (H1 : startsAscending [tokenA; tokenB] = true) by reflexivity.
  assert (H2 : startsAscending [commentX] = true) by reflexivity.
  split; [exact H1 |]. split; [exact H2 |].
  exact (sortedMerge_ascending [tokenA; tokenB] [commentX] H1 H2).
Defined.

(** ** [nodesOrTokensOverlap] and [isSpaceBetween] *)

(** X3: The overlap test does not depend on the order of its arguments; on
    ranges with start <= end it holds exactly when the later start is at or
    before the earlier end, so two ranges that only touch overlap, and a
    range overlaps itself. *)
Theorem nodesOrTokensOverlap_spec (a b : NodeOrToken) :
  nodesOrTokensOverlap a b = nodesOrTokensOverlap b a
  /\ (wellFormedRange a -> wellFormedRange b ->
      (nodesOrTokensOverlap a b = true
       <-> Z.max (fst (nt_range a)) (fst (nt_range b))
           <= Z.min (snd (nt_range a)) (snd (nt_range b))))
  /\ (wellFormedRange a -> nodesOrTokensOverlap a a = true).
Proof.
  split; [apply nodesOrTokensOverlap_comm |]. split.
  - intros Ha Hb. pose proof (nodesOrTokensOverlap_apart a b Ha Hb) as Hapart.
    unfold wellFormedRange, rangesApart in *.
    destruct (nodesOrTokensOverlap a b).
    + split; [intros _ | reflexivity].
      destruct (Z.le_gt_cases (Z.max (fst (nt_range a)) (fst (nt_range b)))
                  (Z.min (snd (nt_range a)) (snd (nt_range b)))) as [H | H];
        [exact H |].
      assert (Hfalse : true = false) by (apply Hapart; lia). discriminate Hfalse.
    + split; [discriminate |]. intros H.
      destruct (proj1 Hapart eq_refl); lia.
  - intros Ha. unfold nodesOrTokensOverlap, wellFormedRange in *.
    rewrite Z.leb_refl. cbn [andb].
    destruct (Z.geb_spec (snd (nt_range a)) (fst (nt_range a))); [reflexivity | lia].
Qed.

(** The same walk with and without the check inside JSXText tokens. *)
Lemma spaceWalk_legacy (sc : SourceCode) (finalToken : NodeOrToken) (fuel : nat) :
  forall (cur : NodeOrToken),
    (spaceWalk fuel sc cur finalToken false = Some (Ok true) ->
     spaceWalk fuel sc cur finalToken true = Some (Ok true))
    /\ (spaceWalk fuel sc cur finalToken true = Some (Ok false) ->
        spaceWalk fuel sc cur finalToken false = Some (Ok false)).
Proof.
  induction fuel as [| fuel IH]; intros cur; simpl.
  - destruct (same_object cur finalToken); split; intros H; try discriminate H;
      reflexivity.
  - destruct (same_object cur finalToken); [split; intros H; [discriminate H | reflexivity] |].
    destruct (getTokenAfter sc cur true) as [next |]; [| split; intros H; discriminate H].
    destruct (IH (AToken next)) as [IH1 IH2].
    destruct (negb (snd (nt_range cur) =? tok_start next)); cbn [orb andb].
    + split; intros H; [reflexivity | discriminate H].
    + destruct (negb (same_object (AToken next) finalToken)
                && String.eqb (tok_type next) "JSXText"
                && hasWhitespace (tok_value next)).
      * split; intros H; [reflexivity | discriminate H].
      * split; assumption.
Qed.

(** X4: The check inside JSXText tokens only ever turns an answer into [true]:
    when [isSpaceBetween] says [true], so does [isSpaceBetweenTokens], and
    when [isSpaceBetweenTokens] says [false], so does [isSpaceBetween]. *)
Theorem isSpaceBetweenTokens_adds_true (fuel : nat) (sc : SourceCode)
    (first second : NodeOrToken) :
  (SourceCode_isSpaceBetween fuel sc first second = Some (Ok true) ->
   isSpaceBetweenTokens fuel sc first second = Some (Ok true))
  /\ (isSpaceBetweenTokens fuel sc first second = Some (Ok false) ->
      SourceCode_isSpaceBetween fuel sc first second = Some (Ok false)).
Proof.
  unfold SourceCode_isSpaceBetween, isSpaceBetweenTokens, isSpaceBetween.
  destruct (nodesOrTokensOverlap first second).
  - split; intros H; [discriminate H | reflexivity].
  - destruct (if snd (nt_range first) <=? fst (nt_range second)
              then (first, second) else (second, first)) as [starting ending].
    apply spaceWalk_legacy.
Qed.

(** A walk that meets no JSXText token with whitespace. *)
Lemma spaceWalk_without_JSXText (sc : SourceCode) (finalToken : NodeOrToken)
    (fuel : nat) :
  Forall (fun t => isJSXTextWithSpace t = false) (tokensAndComments sc) ->
  forall (cur : NodeOrToken),
    spaceWalk fuel sc cur finalToken true = spaceWalk fuel sc cur finalToken false.
Proof.
  intros Hnone. rewrite List.Forall_forall in Hnone.
  induction fuel as [| fuel IH]; intros cur; simpl; [reflexivity |].
  destruct (same_object cur finalToken); [reflexivity |].
  destruct (getTokenAfter sc cur true) as [next |] eqn:Hnext; [| reflexivity].
  unfold getTokenAfter, stream in Hnext. apply find_some in Hnext as [Hin _].
  specialize (Hnone next Hin). unfold isJSXTextWithSpace in Hnone.
  rewrite <- andb_assoc, Hnone, andb_false_r. cbn [andb]. now rewrite IH.
Qed.

(** X5: Without a JSXText token that contains whitespace in the stream, the two
    methods agree on every pair, whatever the fuel. *)
Theorem isSpaceBetweenTokens_without_JSXText (fuel : nat) (sc : SourceCode)
    (first second : NodeOrToken) :
  Forall (fun t => isJSXTextWithSpace t = false) (tokensAndComments sc) ->
  isSpaceBetweenTokens fuel sc first second
  = SourceCode_isSpaceBetween fuel sc first second.
Proof.
  intros Hnone.
  unfold SourceCode_isSpaceBetween, isSpaceBetweenTokens, isSpaceBetween.
  destruct (nodesOrTokensOverlap first second); [reflexivity |].
  destruct (if snd (nt_range first) <=? fst (nt_range second)
            then (first, second) else (second, first)) as [starting ending].
  now apply spaceWalk_without_JSXText.
Qed.

Lemma isSpaceBetweenTokens_without_JSXText_witness :
  Forall (fun t => isJSXTextWithSpace t = false) (tokensAndComments exampleSource)
  /\ isSpaceBetweenTokens 4 exampleSource (AToken tokenA) (AToken tokenB)
     = SourceCode_isSpaceBetween 4 exampleSource (AToken tokenA) (AToken tokenB).
Proof.
  assert (H : Forall (fun t => isJSXTextWithSpace t = false)
                (tokensAndComments exampleSource))
    by (vm_compute; repeat constructor).
  split; [exact H |].
  exact (isSpaceBetweenTokens_without_JSXText 4 exampleSource
           (AToken tokenA) (AToken tokenB) H).
Defined.

Example isSpaceBetweenTokens_differs :
  SourceCode_isSpaceBetween 4 jsxSource (AToken jsxOpen) (AToken jsxClose)
  = Some (Ok false)
  /\ isSpaceBetweenTokens 4 jsxSource (AToken jsxOpen) (AToken jsxClose)
     = Some (Ok true).
Proof. split; reflexivity. Qed.

(** ** The constructor: lines and line starts *)

(** The cases of the line-break matcher at the head [c :: rest] of a text:
    a CR at the end, CR LF, a CR before something else, another line break,
    any other code unit. *)
Ltac linebreak_cases c rest :=
  let d := fresh "d" in
  let rest' := fresh "rest'" in
  destruct (c =? 13) eqn:Hcr;
  [ destruct rest as [| d rest']; [| destruct (d =? 10) eqn:Hlf]
  | destruct (isLinebreakUnit c) eqn:Hbreak ].

Lemma slice_empty {A : Type} (s : list A) (a : Z) : 0 <= a -> slice s a a = [].
Proof.
  intros Ha. rewrite slice_take_drop by lia.
  destruct (Z.le_gt_cases a (len s)).
  - rewrite Z.min_l by lia. now rewrite Z.sub_diag.
  - rewrite drop_ge by (unfold len in *; lia). apply take_nil.
Qed.

Lemma slice_snoc {A : Type} (pre rest : list A) (c : A) (a : Z) :
  0 <= a <= len pre ->
  slice (pre ++ c :: rest) a (len pre + 1) = slice (pre ++ c :: rest) a (len pre) ++ [c].
Proof.
  intros Ha. unfold len in *. rewrite !slice_take_drop by lia. unfold len.
  rewrite length_app. cbn [length].
  rewrite !Z.min_l by lia.
  rewrite drop_app_le by lia.
  replace (Z.to_nat (Z.of_nat (length pre) + 1 - a))
    with (S (length (drop (Z.to_nat a) pre))) by (rewrite length_drop; lia).
  replace (Z.to_nat (Z.of_nat (length pre) - a))
    with (length (drop (Z.to_nat a) pre)) by (rewrite length_drop; lia).
  rewrite take_app_length. 
  change (c :: rest) with ([c] ++ rest). rewrite app_assoc.
  replace (S (length (drop (Z.to_nat a) pre)))
    with (length (drop (Z.to_nat a) pre ++ [c])) by (rewrite length_app; simpl; lia).
  now rewrite take_app_length.
Qed.

Lemma slice_to_end {A : Type} (s : list A) (a : Z) :
  slice_from s a = slice s a (len s).
Proof. reflexivity. Qed.

Lemma len_snoc {A : Type} (l : list A) (x : A) : len (l ++ [x]) = len l + 1.
Proof. unfold len. rewrite length_app. simpl. lia. Qed.

(** The loop of the constructor, started in the middle of the text with the
    current line read up to [pre], pushes the pieces that [split] gives. *)
Lemma constructor_loop_split (text : jsstring) (n : nat) :
  forall (s pre cur : jsstring) (lines0 : list jsstring) (starts0 : list Z)
         (lineStart : Z),
    (length s <= n)%nat -> text = pre ++ s ->
    arr_get starts0 (len starts0 - 1) = Some lineStart ->
    0 <= lineStart <= len pre ->
    slice text lineStart (len pre) = cur ->
    let st := fold_left (pushLine text) (linebreakMatches (len pre) s) (lines0, starts0) in
    fst st ++ [slice_from text (default 0 (arr_get (snd st) (len (snd st) - 1)))]
    = lines0 ++ linesFrom cur s.
Proof.
  induction n as [| n IH]; intros s pre cur lines0 starts0 lineStart Hn Htext Hlast Hstart Hcur.
  - destruct s; [| simpl in Hn; lia]. simpl. rewrite Hlast. simpl.
    rewrite app_nil_r in Htext. subst text. now rewrite slice_to_end, Hcur.
  - destruct s as [| c rest].
    { simpl. rewrite Hlast. simpl.
      rewrite app_nil_r in Htext. subst text. now rewrite slice_to_end, Hcur. }
    simpl in Hn.
    assert (Hpush : forall (k : Z),
               pushLine text (lines0, starts0) (len pre, k)
               = (lines0 ++ [cur], starts0 ++ [len pre + k])).
    { intros k. unfold pushLine. rewrite Hlast. simpl. now rewrite Hcur. }
    cbv zeta. simpl linebreakMatches. simpl linesFrom.
    linebreak_cases c rest.
    + (* a CR at the end of the text *)
      cbn [fold_left]. rewrite Hpush. cbn [fst snd].
      rewrite arr_get_last. cbn [default from_option id].
      rewrite <- app_assoc. cbn [app]. do 3 f_equal.
      rewrite slice_to_end. subst text. rewrite len_snoc. apply slice_empty.
      unfold len. lia.
    + (* CR LF *)
      cbn [fold_left]. rewrite Hpush.
      replace (len pre + 2) with (len ((pre ++ [c]) ++ [d]))
        by (rewrite !len_snoc; lia).
      rewrite (IH rest' ((pre ++ [c]) ++ [d]) [] (lines0 ++ [cur])
                 (starts0 ++ [len ((pre ++ [c]) ++ [d])]) (len ((pre ++ [c]) ++ [d]))).
      * now rewrite <- app_assoc.
      * simpl in Hn. lia.
      * subst text. now rewrite <- !app_assoc.
      * apply arr_get_last.
      * unfold len. lia.
      * apply slice_empty. unfold len. lia.
    + (* a CR before something else *)
      cbn [fold_left]. rewrite Hpush.
      replace (len pre + 1) with (len (pre ++ [c])) by apply len_snoc.
      rewrite (IH (d :: rest') (pre ++ [c]) [] (lines0 ++ [cur])
                 (starts0 ++ [len (pre ++ [c])]) (len (pre ++ [c]))).
      * now rewrite <- app_assoc.
      * lia.
      * subst text. now rewrite <- !app_assoc.
      * apply arr_get_last.
      * unfold len. lia.
      * apply slice_empty. unfold len. lia.
    + (* LF, U+2028 or U+2029 *)
      cbn [fold_left]. rewrite Hpush.
      replace (len pre + 1) with (len (pre ++ [c])) by apply len_snoc.
      rewrite (IH rest (pre ++ [c]) [] (lines0 ++ [cur])
                 (starts0 ++ [len (pre ++ [c])]) (len (pre ++ [c]))).
      * now rewrite <- app_assoc.
      * lia.
      * subst text. now rewrite <- !app_assoc.
      * apply arr_get_last.
      * unfold len. lia.
      * apply slice_empty. unfold len. lia.
    + (* the line goes on *)
      replace (len pre + 1) with (len (pre ++ [c])) by apply len_snoc.
      apply (IH rest (pre ++ [c]) (cur ++ [c]) lines0 starts0 lineStart).
      * lia.
      * subst text. now rewrite <- !app_assoc.
      * exact Hlast.
      * rewrite len_snoc. lia.
      * rewrite len_snoc. subst text cur. now apply slice_snoc.
Qed.

Lemma splitAtLinebreaks_linesOf (text : jsstring) :
  fst (splitAtLinebreaks text) = linesOf text.
Proof.
  unfold splitAtLinebreaks, linesOf.
  pose proof (constructor_loop_split text (length text) text [] [] [] [0] 0
                ltac:(lia) eq_refl eq_refl ltac:(unfold len; simpl; lia)
                (slice_empty text 0 ltac:(lia))) as H.
  cbv zeta in H. change (len []) with 0 in H.
  destruct (fold_left (pushLine text) (linebreakMatches 0 text) ([], [0])) as [ls st].
  exact H.
Qed.

(** The loop of the constructor and [split] cut the text at the same
    places. *)
Lemma fold_pushLine_pieces (text : jsstring) (ms : list (Z * Z)) :
  forall (lines0 : list jsstring) (starts0 : list Z) (from : Z),
    arr_get starts0 (len starts0 - 1) = Some from ->
    let st := fold_left (pushLine text) ms (lines0, starts0) in
    fst st ++ [slice_from text (default 0 (arr_get (snd st) (len (snd st) - 1)))]
    = lines0 ++ piecesBetween text from ms.
Proof.
  induction ms as [| m ms IH]; intros lines0 starts0 from Hfrom; cbv zeta.
  - cbn [fold_left fst snd piecesBetween]. now rewrite Hfrom.
  - cbn [fold_left piecesBetween].
    assert (Hpush : pushLine text (lines0, starts0) m
                    = (lines0 ++ [slice text from (fst m)], starts0 ++ [matchEnd m])).
    { unfold pushLine. now rewrite Hfrom. }
    rewrite Hpush.
    specialize (IH (lines0 ++ [slice text from (fst m)]) (starts0 ++ [matchEnd m])
                  (matchEnd m)).
    cbv zeta in IH. rewrite IH.
    + now rewrite <- app_assoc.
    + apply arr_get_last.
Qed.

Lemma splitAtLinebreaks_pieces (text : jsstring) :
  fst (splitAtLinebreaks text) = splitLines text.
Proof.
  unfold splitAtLinebreaks, splitLines.
  pose proof (fold_pushLine_pieces text (linebreakMatches 0 text) [] [0] 0 eq_refl) as H.
  cbv zeta in H.
  destruct (fold_left (pushLine text) (linebreakMatches 0 text) ([], [0])) as [ls st].
  exact H.
Qed.

Lemma splitLines_linesOf (text : jsstring) : splitLines text = linesOf text.
Proof. now rewrite <- splitAtLinebreaks_pieces, splitAtLinebreaks_linesOf. Qed.

(** X6: The array [lines] the constructor builds is what the static method
    [splitLines] gives for the text (after the BOM is taken off). *)
Theorem lines_splitLines (text0 : jsstring) (ast0 : Node) (sm : option ScopeManager) :
  let sc := SourceCode_new text0 ast0 sm in
  getLines sc = splitLines (text sc).
Proof.
  unfold getLines, SourceCode_new.
  set (txt := if match text0 with c :: _ => c =? 65279 | [] => false end
              then slice_from text0 1 else text0).
  pose proof (splitAtLinebreaks_pieces txt) as H.
  destruct (splitAtLinebreaks txt) as [ls st]. exact H.
Qed.

Lemma linesFrom_spec (n : nat) :
  forall (s cur : jsstring),
    (length s <= n)%nat ->
    joinLines (linesFrom cur s) (linebreaksOf s) = cur ++ s
    /\ length (linesFrom cur s) = S (length (linebreaksOf s))
    /\ Forall isLinebreakSequence (linebreaksOf s)
    /\ (Forall (fun c => isLinebreakUnit c = false) cur ->
        Forall (Forall (fun c => isLinebreakUnit c = false)) (linesFrom cur s)).
Proof.
  induction n as [| n IH]; intros s cur Hn.
  - destruct s; [| simpl in Hn; lia]. simpl. rewrite app_nil_r.
    repeat split; try constructor; auto.
  - destruct s as [| c rest].
    { simpl. rewrite app_nil_r. repeat split; try constructor; auto. }
    simpl in Hn. simpl linesFrom. simpl linebreaksOf.
    linebreak_cases c rest.
    + simpl. split; [reflexivity |]. split; [reflexivity |]. split.
      * constructor; [| constructor]. right. exists c. split; [reflexivity |].
        apply Z.eqb_eq in Hcr. now subst c.
      * intros Hcur. constructor; [exact Hcur | repeat constructor].
    + destruct (IH rest' [] ltac:(simpl in Hn; lia)) as (Hj & Hl & Hb & Hf).
      cbn [joinLines]. rewrite Hj. cbn [length]. rewrite Hl.
      split; [reflexivity |]. split; [reflexivity |]. split.
      * constructor; [| exact Hb]. left.
        apply Z.eqb_eq in Hcr, Hlf. now subst.
      * intros Hcur. constructor; [exact Hcur | apply Hf; constructor].
    + destruct (IH (d :: rest') [] ltac:(lia)) as (Hj & Hl & Hb & Hf).
      cbn [joinLines]. rewrite Hj. cbn [length]. rewrite Hl.
      split; [reflexivity |]. split; [reflexivity |]. split.
      * constructor; [| exact Hb]. right. exists c. split; [reflexivity |].
        apply Z.eqb_eq in Hcr. now subst c.
      * intros Hcur. constructor; [exact Hcur | apply Hf; constructor].
    + destruct (IH rest [] ltac:(lia)) as (Hj & Hl & Hb & Hf).
      cbn [joinLines]. rewrite Hj. cbn [length]. rewrite Hl.
      split; [reflexivity |]. split; [reflexivity |]. split.
      * constructor; [| exact Hb]. right. exists c. split; [reflexivity | assumption].
      * intros Hcur. constructor; [exact Hcur | apply Hf; constructor].
    + destruct (IH rest (cur ++ [c]) ltac:(lia)) as (Hj & Hl & Hb & Hf).
      rewrite Hj, Hl, <- app_assoc.
      split; [reflexivity |]. split; [reflexivity |]. split; [exact Hb |].
      intros Hcur. apply Hf. apply Forall_app. split; [exact Hcur |].
      constructor; [assumption | constructor].
Qed.

(** X7: [splitLines] loses nothing: the pieces, each followed by the line break
    that ended it, give the text back; there is one piece more than there
    are line breaks; no piece contains a line break. *)
Theorem splitLines_joinLines (text : jsstring) :
  joinLines (splitLines text) (linebreaksOf text) = text
  /\ length (splitLines text) = S (length (linebreaksOf text))
  /\ Forall isLinebreakSequence (linebreaksOf text)
  /\ Forall (Forall (fun c => isLinebreakUnit c = false)) (splitLines text).
Proof.
  rewrite splitLines_linesOf. unfold linesOf.
  destruct (linesFrom_spec (length text) text [] ltac:(lia))
    as (Hj & Hl & Hb & Hf).
  repeat split; try assumption. apply Hf. constructor.
Qed.

Example splitLines_examples :
  splitLines [] = [[]]
  /\ splitLines (units "a" ++ [13; 10] ++ units "b" ++ [10])
     = [units "a"; units "b"; []]
  /\ splitLines [13; 13; 10; 8232] = [[]; []; []; []].
Proof. repeat split; vm_compute; reflexivity. Qed.

Lemma ascendingMatches_lower (lo lo' hi : Z) (ms : list (Z * Z)) :
  lo <= lo' -> ascendingMatches lo' hi ms -> ascendingMatches lo hi ms.
Proof.
  destruct ms as [| m ms]; [auto |]. simpl. intros Hlo (H1 & H2 & H3 & H4).
  repeat split; try assumption. lia.
Qed.

Lemma linebreakMatches_ascending (n : nat) :
  forall (s : jsstring) (pos : Z),
    (length s <= n)%nat ->
    ascendingMatches pos (pos + len s) (linebreakMatches pos s).
Proof.
  unfold len. induction n as [| n IH]; intros s pos Hn.
  - destruct s; [exact I | simpl in Hn; lia].
  - destruct s as [| c rest]; [exact I |].
    simpl in Hn. simpl linebreakMatches.
    linebreak_cases c rest.
    + simpl. unfold matchEnd. simpl. lia.
    + cbn [ascendingMatches]. change (matchEnd (pos, 2)) with (pos + 2).
      cbn [fst snd length] in *.
      split; [lia |]. split; [lia |]. split; [lia |].
      replace (pos + Z.of_nat (S (S (length rest'))))
        with (pos + 2 + Z.of_nat (length rest')) by lia.
      apply IH. lia.
    + cbn [ascendingMatches]. change (matchEnd (pos, 1)) with (pos + 1).
      cbn [fst snd]. cbn [length] in Hn.
      split; [lia |]. split; [lia |]. split; [cbn [length]; lia |].
      replace (pos + Z.of_nat (length (c :: d :: rest')))
        with (pos + 1 + Z.of_nat (length (d :: rest'))) by (cbn [length]; lia).
      apply IH. cbn [length]. lia.
    + cbn [ascendingMatches]. change (matchEnd (pos, 1)) with (pos + 1).
      cbn [fst snd].
      split; [lia |]. split; [lia |]. split; [cbn [length]; lia |].
      replace (pos + Z.of_nat (length (c :: rest)))
        with (pos + 1 + Z.of_nat (length rest)) by (cbn [length]; lia).
      apply IH. lia.
    + apply (ascendingMatches_lower pos (pos + 1)); [lia |].
      replace (pos + Z.of_nat (length (c :: rest)))
        with (pos + 1 + Z.of_nat (length rest)) by (cbn [length]; lia).
      apply IH. lia.
Qed.

Lemma ascendingMatches_ends (lo hi : Z) (ms : list (Z * Z)) :
  ascendingMatches lo hi ms ->
  strictlyAscending (lo :: map matchEnd ms)
  /\ Forall (fun e => lo <= e <= hi) (map matchEnd ms).
Proof.
  revert lo. induction ms as [| m ms IH]; intros lo H.
  - split; [| constructor]. intros [| i] [| j] a b Hij Ha Hb; simpl in *;
      try lia; discriminate.
  - simpl in H. destruct H as (H1 & H2 & H3 & H4).
    destruct (IH (matchEnd m) H4) as [Hasc Hall]. unfold matchEnd in *.
    split.
    + intros i j a b Hij Ha Hb. destruct j as [| j]; [lia |].
      destruct i as [| i].
      * simpl in Ha. injection Ha as <-. simpl in Hb.
        destruct j as [| j].
        -- simpl in Hb. injection Hb as <-. lia.
        -- assert (fst m + snd m < b)
             by (apply (Hasc 0%nat (S j)); [lia | reflexivity | exact Hb]).
           lia.
      * apply (Hasc i j); [lia | exact Ha | exact Hb].
    + simpl. constructor; [lia |].
      apply (List.Forall_impl (P := fun e => fst m + snd m <= e <= hi));
        [intros e He; lia | exact Hall].
Qed.

Lemma lineStartIndices_facts
    (text0 : jsstring) (ast0 : Node) (sm : option ScopeManager) :
  let sc := SourceCode_new text0 ast0 sm in
  strictlyAscending (lineStartIndices sc)
  /\ Forall (fun e => 0 <= e <= len (text sc)) (lineStartIndices sc).
Proof.
  intros sc.
  destruct (line_table_spec text0 ast0 sm) as (Hs & _). fold sc in Hs.
  rewrite Hs. unfold lineStarts.
  pose proof (linebreakMatches_ascending (length (text sc)) (text sc) 0 ltac:(lia))
    as Hasc.
  apply ascendingMatches_ends in Hasc as [Hstrict Hall]. rewrite Z.add_0_l in Hall.
  split; [exact Hstrict |]. constructor; [unfold len; lia | exact Hall].
Qed.

(** X8: What the constructor leaves in [lineStartIndices]: as many entries as
    there are lines, the first is 0, they are in strictly ascending order,
    and none exceeds the text length. *)
Theorem lineStartIndices_ascending
    (text0 : jsstring) (ast0 : Node) (sm : option ScopeManager) :
  let sc := SourceCode_new text0 ast0 sm in
  length (lineStartIndices sc) = length (lines sc)
  /\ lineStartIndices sc !! 0%nat = Some 0
  /\ strictlyAscending (lineStartIndices sc)
  /\ Forall (fun e => 0 <= e <= len (text sc)) (lineStartIndices sc).
Proof.
  intros sc.
  destruct (lineStartIndices_facts text0 ast0 sm) as [Hstrict Hall].
  destruct (line_table_last text0 ast0 sm) as (Hlen & _ & Hfirst & _).
  fold sc in Hstrict, Hall, Hlen, Hfirst.
  split; [unfold len in Hlen; lia |].
  split; [now apply arr_get_Some in Hfirst as [_ Hfirst] |].
  split; assumption.
Qed.

(** ** Offsets and locations, continued *)

Lemma arr_get_num_Some (a : list Z) (i z : Z) :
  arr_get a i = Some z -> arr_get_num a (Int i) = Int z.
Proof. intros H. unfold arr_get_num. cbn [to_int]. now rewrite H. Qed.

Lemma getLocFromIndex_line_of
    (text0 : jsstring) (ast0 : Node) (sm : option ScopeManager) (i : Z) :
  let sc := SourceCode_new text0 ast0 sm in
  0 <= i <= len (text sc) ->
  exists (l c lineStart : Z),
    getLocFromIndex sc (VNumber (Int i)) = Ok (mkLoc (Int l) (Int c))
    /\ 1 <= l <= len (lines sc) /\ 0 <= c
    /\ arr_get (lineStartIndices sc) (l - 1) = Some lineStart
    /\ lineStart + c = i
    /\ forall (next : Z), arr_get (lineStartIndices sc) l = Some next -> i < next.
Proof.
  intros sc Hi.
  destruct (line_table_last text0 ast0 sm)
    as (Hlen & Hne & Hfirst & Hstart & Hlast & Hb).
  fold sc in Hlen, Hne, Hfirst, Hstart, Hlast, Hb.
  set (starts := lineStartIndices sc) in *.
  set (last_start := lastStart 0 (text sc)) in *.
  assert (Hpast : forall (next : Z), arr_get starts (len starts) = Some next -> False).
  { intros next H. apply arr_get_Some in H as [_ H].
    apply lookup_lt_Some in H. unfold len in H. lia. }
  unfold getLocFromIndex.
  rewrite num_lt_Int, num_gt_Int, num_eq_Int.
  destruct (Z.ltb_spec i 0); [lia |].
  destruct (Z.ltb_spec (len (text sc)) i); [lia |]. cbn [orb].
  destruct (Z.eqb_spec i (len (text sc))) as [Heof | Hin].
  - rewrite Hlast.
    exists (len (lines sc)), (len (drop (Z.to_nat last_start) (text sc))), last_start.
    split; [reflexivity |]. rewrite Hlen.
    split; [lia |]. split; [unfold len; lia |]. split; [exact Hstart |].
    split; [unfold len in *; rewrite length_drop; lia |].
    intros next Hnext. destruct (Hpast next Hnext).
  - fold starts. cbv zeta.
    rewrite (arr_get_num_Some _ _ _ Hstart), num_ge_Int.
    destruct (Z.leb_spec last_start i) as [Hlastline | Hearlier].
    + rewrite (arr_get_num_Some _ _ _ Hstart). cbn [num_sub].
      exists (len starts), (i - last_start), last_start.
      split; [reflexivity |]. rewrite Hlen.
      split; [lia |]. split; [lia |]. split; [exact Hstart |]. split; [lia |].
      intros next Hnext. destruct (Hpast next Hnext).
    + assert (Hex : In last_start starts).
      { apply arr_get_Some in Hstart as [_ Hstart'].
        apply list_elem_of_In, list_elem_of_lookup. eauto. }
      destruct (findIndex_from_first (fun el => num_lt (Int i) (Int el))
                  starts 0 last_start Hex) as (k & next & Hk & Hnext & Hp & Hmin).
      { rewrite num_lt_Int. apply Z.ltb_lt. lia. }
      fold (findIndex (fun el => num_lt (Int i) (Int el)) starts) in Hk.
      rewrite Hk, Z.add_0_l.
      rewrite num_lt_Int in Hp. apply Z.ltb_lt in Hp.
      destruct k as [| k].
      { apply arr_get_Some in Hfirst as [_ Hfirst'].
        change (Z.to_nat 0) with 0%nat in Hfirst'.
        rewrite Hfirst' in Hnext. injection Hnext as <-. lia. }
      assert (Hklt : (S k < length starts)%nat)
        by (apply lookup_lt_is_Some; eauto).
      destruct (lookup_lt_is_Some_2 starts k ltac:(lia)) as [prev Hprev].
      pose proof (Hmin k prev ltac:(lia) Hprev) as Hprevle.
      rewrite num_lt_Int in Hprevle. apply Z.ltb_ge in Hprevle.
      replace (Z.of_nat (S k) - 1) with (Z.of_nat k) by lia.
      assert (Hprev' : arr_get starts (Z.of_nat k) = Some prev)
        by now rewrite arr_get_nat.
      rewrite (arr_get_num_Some _ _ _ Hprev'). cbn [num_sub].
      exists (Z.of_nat (S k)), (i - prev), prev.
      split; [reflexivity |]. rewrite Hlen.
      split; [unfold len; lia |]. split; [lia |].
      replace (Z.of_nat (S k) - 1) with (Z.of_nat k) by lia.
      split; [exact Hprev' |]. split; [lia |].
      intros next' Hnext'. rewrite arr_get_nat, Hnext in Hnext'.
      injection Hnext' as <-. exact Hp.
Qed.

(** X9: The location [getLocFromIndex] gives for an offset of the text: the
    line is one of the lines, the column is not negative, the offset is the
    start of the line plus the column, and it lies before the start of the
    next line. *)
Theorem getLocFromIndex_on_line
    (text0 : jsstring) (ast0 : Node) (sm : option ScopeManager) (i : Z) :
  let sc := SourceCode_new text0 ast0 sm in
  0 <= i <= len (text sc) ->
  exists (l c lineStart : Z),
    getLocFromIndex sc (VNumber (Int i)) = Ok (mkLoc (Int l) (Int c))
    /\ 1 <= l <= len (lines sc) /\ 0 <= c
    /\ arr_get (lineStartIndices sc) (l - 1) = Some lineStart
    /\ lineStart + c = i
    /\ forall (next : Z), arr_get (lineStartIndices sc) l = Some next -> i < next.
Proof.
  intros sc Hi.
  destruct (getLocFromIndex_line_of text0 ast0 sm i Hi)
    as (l & c & lineStart & Hloc & Hl & Hc & Hstart & Hsum & Hnext).
  exists l, c, lineStart. repeat split; try assumption; apply Hl.
Qed.

Lemma getLocFromIndex_on_line_witness :
  0 <= 5 <= len (text exampleSource)
  /\ exists (l c lineStart : Z),
       getLocFromIndex exampleSource (VNumber (Int 5)) = Ok (mkLoc (Int l) (Int c))
       /\ 1 <= l <= len (lines exampleSource) /\ 0 <= c
       /\ arr_get (lineStartIndices exampleSource) (l - 1) = Some lineStart
       /\ lineStart + c = 5
       /\ forall (next : Z),
            arr_get (lineStartIndices exampleSource) l = Some next -> 5 < next.
Proof.
  assert (H : 0 <= 5 <= len (text exampleSource))
    by (vm_compute; split; discriminate).
  split; [exact H |].
  exact (getLocFromIndex_on_line exampleText exampleAst None 5 H).
Defined.

Lemma strictlyAscending_le (l : list Z) (i j : nat) (a b : Z) :
  strictlyAscending l -> (i <= j)%nat ->
  l !! i = Some a -> l !! j = Some b -> a <= b.
Proof.
  intros Hasc Hij Ha Hb. destruct (Nat.eq_dec i j) as [-> | Hne].
  - rewrite Ha in Hb. injection Hb as <-. lia.
  - assert (a < b) by (apply (Hasc i j); [lia | assumption..]). lia.
Qed.

(** What [getIndexFromLoc] answers for an integer line and column: the
    line is one of the lines, and the answer is the start of the line plus
    the column, before the start of the next line and within the text. *)
Lemma getIndexFromLoc_Ok_inv
    (text0 : jsstring) (ast0 : Node) (sm : option ScopeManager)
    (l c : Z) (idx : number) :
  let sc := SourceCode_new text0 ast0 sm in
  getIndexFromLoc sc (Loc_object (mkLoc (Int l) (Int c))) = Ok idx ->
  exists (lineStart : Z),
    1 <= l <= len (lineStartIndices sc)
    /\ arr_get (lineStartIndices sc) (l - 1) = Some lineStart
    /\ idx = Int (lineStart + c)
    /\ lineStart + c <= len (text sc)
    /\ forall (next : Z), arr_get (lineStartIndices sc) l = Some next ->
         lineStart + c < next.
Proof.
  intros sc H.
  destruct (lineStartIndices_facts text0 ast0 sm) as [Hasc Hall].
  fold sc in Hasc, Hall. rewrite List.Forall_forall in Hall.
  assert (Hl : 1 <= l <= len (lineStartIndices sc)).
  { rewrite getIndexFromLoc_Int in H. cbv zeta in H.
    destruct (Z.leb_spec l 0); [discriminate H |].
    destruct (Z.ltb_spec (len (lineStartIndices sc)) l); [discriminate H |]. lia. }
  destruct (lookup_lt_is_Some_2 (lineStartIndices sc) (Z.to_nat (l - 1))
              ltac:(unfold len in *; lia)) as [lineStart Hstart].
  assert (Hstart' : arr_get (lineStartIndices sc) (l - 1) = Some lineStart)
    by (apply arr_get_Some; split; [lia | exact Hstart]).
  exists lineStart. split; [exact Hl |]. split; [exact Hstart' |].
  destruct (Z.eq_dec l (len (lineStartIndices sc))) as [-> | Hinner].
  - rewrite (getIndexFromLoc_last_line sc c lineStart Hstart') in H.
    destruct (Z.ltb_spec (len (text sc)) (lineStart + c)); [discriminate H |].
    injection H as <-. split; [reflexivity |]. split; [assumption |].
    intros next Hnext. apply arr_get_Some in Hnext as [_ Hnext].
    apply lookup_lt_Some in Hnext. unfold len in Hnext. lia.
  - destruct (lookup_lt_is_Some_2 (lineStartIndices sc) (Z.to_nat l)
                ltac:(unfold len in *; lia)) as [next Hnext].
    assert (Hnext' : arr_get (lineStartIndices sc) l = Some next)
      by (apply arr_get_Some; split; [lia | exact Hnext]).
    rewrite (getIndexFromLoc_inner_line sc l c lineStart next
               ltac:(unfold len in *; lia) Hstart' Hnext') in H.
    destruct (Z.leb_spec next (lineStart + c)); [discriminate H |].
    injection H as <-. split; [reflexivity |].
    assert (next <= len (text sc)).
    { apply (Hall next). apply list_elem_of_In, list_elem_of_lookup. eauto. }
    split; [lia |].
    intros next' Hn. rewrite Hnext' in Hn. now injection Hn as <-.
Qed.

(** X10: The other round trip: a location with a column that is not negative
    and that [getIndexFromLoc] accepts is the location [getLocFromIndex]
    gives for the offset. *)
Theorem getLocFromIndex_getIndexFromLoc
    (text0 : jsstring) (ast0 : Node) (sm : option ScopeManager)
    (l c : Z) (idx : number) :
  let sc := SourceCode_new text0 ast0 sm in
  0 <= c ->
  getIndexFromLoc sc (Loc_object (mkLoc (Int l) (Int c))) = Ok idx ->
  getLocFromIndex sc (VNumber idx) = Ok (mkLoc (Int l) (Int c)).
Proof.
  intros sc Hc H.
  destruct (getIndexFromLoc_Ok_inv text0 ast0 sm l c idx H)
    as (s & Hl & Hs & -> & Hin & Hnext).
  destruct (lineStartIndices_facts text0 ast0 sm) as [Hasc Hall].
  fold sc in Hs, Hl, Hnext, Hin, Hasc, Hall. rewrite List.Forall_forall in Hall.
  assert (Hs0 : 0 <= s).
  { apply arr_get_Some in Hs as [_ Hs'].
    apply (Hall s), list_elem_of_In, list_elem_of_lookup. eauto. }
  destruct (getLocFromIndex_line_of text0 ast0 sm (s + c) ltac:(fold sc; lia))
    as (l' & c' & s' & Hloc & Hl' & Hc' & Hs' & Hsum & Hnext').
  fold sc in Hloc, Hl', Hs', Hnext'.
  rewrite Hloc.
  apply arr_get_Some in Hs as [_ Hs]. apply arr_get_Some in Hs' as [_ Hs'].
  assert (Hsame : l' = l).
  { destruct (Z.lt_trichotomy l' l) as [Hlt | [Heq | Hgt]]; [| exact Heq |].
    - destruct (lookup_lt_is_Some_2 (lineStartIndices sc) (Z.to_nat l')
                  ltac:(unfold len in *; lia)) as [next Hn].
      assert (s + c < next)
        by (apply Hnext', arr_get_Some; split; [lia | exact Hn]).
      assert (next <= s)
        by (apply (strictlyAscending_le (lineStartIndices sc) (Z.to_nat l') (Z.to_nat (l - 1)));
            [assumption | lia | assumption..]).
      lia.
    - destruct (lookup_lt_is_Some_2 (lineStartIndices sc) (Z.to_nat l)
                  ltac:(apply lookup_lt_Some in Hs'; lia)) as [next Hn].
      assert (s + c < next)
        by (apply Hnext, arr_get_Some; split; [lia | exact Hn]).
      assert (next <= s')
        by (apply (strictlyAscending_le (lineStartIndices sc) (Z.to_nat l) (Z.to_nat (l' - 1)));
            [assumption | lia | assumption..]).
      lia. }
  subst l'. rewrite Hs in Hs'. injection Hs' as <-.
  do 3 f_equal. lia.
Qed.

Lemma getLocFromIndex_getIndexFromLoc_witness :
  0 <= 3
  /\ getIndexFromLoc exampleSource (Loc_object (mkLoc (Int 1) (Int 3))) = Ok (Int 3)
  /\ getLocFromIndex exampleSource (VNumber (Int 3)) = Ok (mkLoc (Int 1) (Int 3)).
Proof.
  assert (H1 : 0 <= 3) by lia.
  assert (H2 : getIndexFromLoc exampleSource (Loc_object (mkLoc (Int 1) (Int 3)))
               = Ok (Int 3)) by reflexivity.
  split; [exact H1 |]. split; [exact H2 |].
  exact (getLocFromIndex_getIndexFromLoc exampleText exampleAst None 1 3 (Int 3) H1 H2).
Defined.

(** The column has no lower bound: on a line of the text a column that is
    not positive passes the range test, on the last line as on the others. *)
Lemma getIndexFromLoc_column_not_positive
    (text0 : jsstring) (ast0 : Node) (sm : option ScopeManager) (l c : Z) :
  let sc := SourceCode_new text0 ast0 sm in
  1 <= l <= len (lines sc) -> c <= 0 ->
  exists (lineStart : Z),
    arr_get (lineStartIndices sc) (l - 1) = Some lineStart
    /\ getIndexFromLoc sc (Loc_object (mkLoc (Int l) (Int c))) = Ok (Int (lineStart + c)).
Proof.
  intros sc Hl Hc.
  destruct (lineStartIndices_facts text0 ast0 sm) as [Hasc Hall].
  destruct (line_table_last text0 ast0 sm) as (Hlen & _).
  fold sc in Hasc, Hall, Hlen. rewrite List.Forall_forall in Hall.
  rewrite Hlen in Hl.
  destruct (lookup_lt_is_Some_2 (lineStartIndices sc) (Z.to_nat (l - 1))
              ltac:(unfold len in *; lia)) as [lineStart Hstart].
  assert (Hstart' : arr_get (lineStartIndices sc) (l - 1) = Some lineStart)
    by (apply arr_get_Some; split; [lia | exact Hstart]).
  exists lineStart. split; [exact Hstart' |].
  destruct (Z.eq_dec l (len (lineStartIndices sc))) as [-> | Hinner].
  - rewrite (getIndexFromLoc_last_line sc c lineStart Hstart').
    assert (lineStart <= len (text sc)).
    { apply (Hall lineStart), list_elem_of_In, list_elem_of_lookup. eauto. }
    destruct (Z.ltb_spec (len (text sc)) (lineStart + c)); [lia | reflexivity].
  - destruct (lookup_lt_is_Some_2 (lineStartIndices sc) (Z.to_nat l)
                ltac:(unfold len in *; lia)) as [next Hnext].
    assert (Hnext' : arr_get (lineStartIndices sc) l = Some next)
      by (apply arr_get_Some; split; [lia | exact Hnext]).
    rewrite (getIndexFromLoc_inner_line sc l c lineStart next
               ltac:(unfold len in *; lia) Hstart' Hnext').
    assert (lineStart < next)
      by (apply (Hasc (Z.to_nat (l - 1)) (Z.to_nat l)); [lia | assumption..]).
    destruct (Z.leb_spec next (lineStart + c)); [lia | reflexivity].
Qed.

(** X11: Column 0 of every line is accepted, and its offset is the start of the
    line: the design the comment in [getIndexFromLoc] states.  On an empty
    text this is line 1, column 0, offset 0. *)
Theorem getIndexFromLoc_line_start
    (text0 : jsstring) (ast0 : Node) (sm : option ScopeManager) (l : Z) :
  let sc := SourceCode_new text0 ast0 sm in
  1 <= l <= len (lines sc) ->
  exists (lineStart : Z),
    arr_get (lineStartIndices sc) (l - 1) = Some lineStart
    /\ getIndexFromLoc sc (Loc_object (mkLoc (Int l) (Int 0))) = Ok (Int lineStart).
Proof.
  intros sc Hl.
  destruct (getIndexFromLoc_column_not_positive text0 ast0 sm l 0 Hl ltac:(lia))
    as (lineStart & Hstart & Hloc).
  exists lineStart. rewrite Z.add_0_r in Hloc. split; assumption.
Qed.

Lemma getIndexFromLoc_line_start_witness :
  1 <= 2 <= len (lines exampleSource)
  /\ exists (lineStart : Z),
       arr_get (lineStartIndices exampleSource) (2 - 1) = Some lineStart
       /\ getIndexFromLoc exampleSource (Loc_object (mkLoc (Int 2) (Int 0)))
          = Ok (Int lineStart).
Proof.
  assert (H : 1 <= 2 <= len (lines exampleSource))
    by (vm_compute; split; discriminate).
  split; [exact H |].
  exact (getIndexFromLoc_line_start exampleText exampleAst None 2 H).
Defined.

(** X12: A negative column is not refused: on a line of the text
    [getIndexFromLoc] answers the offset that many units before the start of
    the line, which lies on an earlier line or before the text. *)
Theorem getIndexFromLoc_negative_column
    (text0 : jsstring) (ast0 : Node) (sm : option ScopeManager) (l c : Z) :
  let sc := SourceCode_new text0 ast0 sm in
  1 <= l <= len (lines sc) -> c < 0 ->
  exists (lineStart : Z),
    arr_get (lineStartIndices sc) (l - 1) = Some lineStart
    /\ getIndexFromLoc sc (Loc_object (mkLoc (Int l) (Int c))) = Ok (Int (lineStart + c))
    /\ lineStart + c < lineStart.
Proof.
  intros sc Hl Hc.
  destruct (getIndexFromLoc_column_not_positive text0 ast0 sm l c Hl ltac:(lia))
    as (lineStart & Hstart & Hloc).
  exists lineStart. split; [assumption |]. split; [assumption | lia].
Qed.

Lemma getIndexFromLoc_negative_column_witness :
  1 <= 1 <= len (lines exampleSource)
  /\ -1 < 0
  /\ getIndexFromLoc exampleSource (Loc_object (mkLoc (Int 1) (Int (-1)))) = Ok (Int (-1))
  /\ exists (lineStart : Z),
       arr_get (lineStartIndices exampleSource) (1 - 1) = Some lineStart
       /\ getIndexFromLoc exampleSource (Loc_object (mkLoc (Int 1) (Int (-1))))
          = Ok (Int (lineStart + -1))
       /\ lineStart + -1 < lineStart.
Proof.
  assert (H1 : 1 <= 1 <= len (lines exampleSource))
    by (vm_compute; split; discriminate).
  assert (H2 : -1 < 0) by lia.
  split; [exact H1 |]. split; [exact H2 |]. split; [reflexivity |].
  exact (getIndexFromLoc_negative_column exampleText exampleAst None 1 (-1) H1 H2).
Defined.

(** X13: How [getIndexFromLoc] fails.  It throws a TypeError exactly when [loc]
    is not an object with a numeric [line] and a numeric [column]; [null]
    passes the [typeof] test and fails at the property read.  It throws no
    plain Error.  A line at or below 0 or beyond the number of lines is a
    RangeError.  A [line] that is NaN passes every test, and the answer is
    NaN. *)
Theorem getIndexFromLoc_failures (sc : SourceCode) (loc : value) :
  (getIndexFromLoc sc loc = Throw TypeError
   <-> ~ exists (props : list (string * value)) (l c : number),
           loc = VObject props
           /\ lookup_prop "line" props = VNumber l
           /\ lookup_prop "column" props = VNumber c)
  /\ getIndexFromLoc sc loc <> Throw Error
  /\ (forall (props : list (string * value)) (l c : number),
        loc = VObject props ->
        lookup_prop "line" props = VNumber l ->
        lookup_prop "column" props = VNumber c ->
        num_le l (Int 0) = true \/ num_gt l (Int (len (lineStartIndices sc))) = true ->
        getIndexFromLoc sc loc = Throw RangeError)
  /\ forall (c : number), getIndexFromLoc sc (Loc_object (mkLoc NaN c)) = Ok NaN.
Proof.
  assert (Hnum : forall (props : list (string * value)) (l c : number),
             lookup_prop "line" props = VNumber l ->
             lookup_prop "column" props = VNumber c ->
             getIndexFromLoc sc (VObject props) <> Throw TypeError
             /\ getIndexFromLoc sc (VObject props) <> Throw Error
             /\ (num_le l (Int 0) = true
                 \/ num_gt l (Int (len (lineStartIndices sc))) = true ->
                 getIndexFromLoc sc (VObject props) = Throw RangeError)).
  { intros props l c Hl Hc. unfold getIndexFromLoc.
    cbn [typeof String.eqb negb get_prop]. rewrite Hl, Hc. cbv zeta.
    destruct (num_le l (Int 0)) eqn:Hle.
    - repeat split; try discriminate.
    - destruct (num_gt l (Int (len (lineStartIndices sc)))) eqn:Hgt.
      + repeat split; try discriminate.
      + match goal with
        | |- context [if ?b then Throw RangeError else _] => destruct b
        end; repeat split; try discriminate; intros [H | H]; discriminate H. }
  split; [| split; [| split]].
  - split.
    + intros H (props & l & c & -> & Hl & Hc).
      destruct (Hnum props l c Hl Hc) as [Hn _]. exact (Hn H).
    + intros Hno. destruct loc as [| | b | n | s | props]; try reflexivity.
      unfold getIndexFromLoc. cbn [typeof String.eqb negb get_prop].
      destruct (lookup_prop "line" props) as [| | ? | l | ? | ?] eqn:Hl;
        try reflexivity.
      destruct (lookup_prop "column" props) as [| | ? | c | ? | ?] eqn:Hc;
        try reflexivity.
      exfalso. apply Hno. exists props, l, c. auto.
  - destruct loc as [| | b | n | s | props]; try discriminate.
    unfold getIndexFromLoc. cbn [typeof String.eqb negb get_prop].
    destruct (lookup_prop "line" props) as [| | ? | l | ? | ?] eqn:Hl;
      try discriminate.
    destruct (lookup_prop "column" props) as [| | ? | c | ? | ?] eqn:Hc;
      try discriminate.
    assert (H := Hnum props l c Hl Hc). unfold getIndexFromLoc in H.
    cbn [typeof String.eqb negb get_prop] in H. rewrite Hl, Hc in H.
    destruct H as (_ & Hn & _). exact Hn.
  - intros props l c -> Hl Hc Hrange.
    destruct (Hnum props l c Hl Hc) as (_ & _ & Hr). exact (Hr Hrange).
  - intros c. reflexivity.
Qed.

(** ** [getText] *)

(** A slice is a part of the list it is taken from. *)
Lemma slice_part {A : Type} (s : list A) (from to : Z) :
  exists (pre post : list A), s = pre ++ slice s from to ++ post.
Proof.
  unfold slice. cbv zeta.
  set (k := Z.to_nat (if from <? 0 then Z.max (len s + from) 0 else Z.min from (len s))).
  set (n := Z.to_nat _).
  exists (take k s), (drop n (drop k s)).
  now rewrite take_drop, take_drop.
Qed.

(** Slices between bounds inside the list: their length, and how two that
    meet make one. *)
Lemma slice_inside {A : Type} (s : list A) (i j : Z) :
  0 <= i <= j -> j <= len s ->
  slice s i j = take (Z.to_nat (j - i)) (drop (Z.to_nat i) s)
  /\ len (slice s i j) = j - i.
Proof.
  intros Hi Hj.
  assert (E : slice s i j = take (Z.to_nat (j - i)) (drop (Z.to_nat i) s)).
  { rewrite slice_take_drop by lia. now rewrite Z.min_l by lia. }
  split; [exact E |]. rewrite E. unfold len in *.
  rewrite length_take, length_drop. lia.
Qed.

Lemma slice_join {A : Type} (s : list A) (i j k : Z) :
  0 <= i <= j -> j <= k -> k <= len s ->
  slice s i k = slice s i j ++ slice s j k.
Proof.
  intros Hi Hj Hk.
  destruct (slice_inside s i k ltac:(lia) Hk) as [-> _].
  destruct (slice_inside s i j Hi ltac:(lia)) as [-> _].
  destruct (slice_inside s j k ltac:(lia) Hk) as [-> _].
  replace (Z.to_nat (k - i)) with (Z.to_nat (j - i) + Z.to_nat (k - j))%nat by lia.
  rewrite <- take_take_drop, drop_drop. do 3 f_equal. lia.
Qed.

(** X14: Whatever the node and the counts, [getText] answers one connected part
    of the text. *)
Theorem getText_part (sc : SourceCode) (node : option NodeOrToken)
    (beforeCount afterCount : option Z) :
  exists (pre post : jsstring),
    text sc = pre ++ getText sc node beforeCount afterCount ++ post.
Proof.
  destruct node as [node |]; cbn [getText].
  - apply slice_part.
  - exists [], []. now rewrite app_nil_r.
Qed.

(** X15: For a node inside the text and counts that stay inside the text,
    [getText] with counts is the text of the node between the [beforeCount]
    units before it and the [afterCount] units after it. *)
Theorem getText_context (sc : SourceCode) (node : NodeOrToken) (b a : Z) :
  let first := fst (nt_range node) in
  let final := snd (nt_range node) in
  0 <= b <= first -> first <= final -> 0 <= a -> final + a <= len (text sc) ->
  getText sc (Some node) (Some b) (Some a)
  = slice (text sc) (first - b) first
    ++ getText sc (Some node) None None
    ++ slice (text sc) final (final + a)
  /\ len (getText sc (Some node) (Some b) (Some a)) = b + (final - first) + a.
Proof.
  intros first final Hb Hrange Ha Hend. unfold getText.
  cbn [default from_option id]. fold first final.
  rewrite Z.sub_0_r, Z.add_0_r, !Z.max_l by lia.
  split.
  - rewrite (slice_join (text sc) (first - b) first (final + a)) by lia.
    now rewrite (slice_join (text sc) first final (final + a)) by lia.
  - destruct (slice_inside (text sc) (first - b) (final + a) ltac:(lia) Hend) as [_ ->].
    lia.
Qed.

Lemma getText_context_witness :
  0 <= 1 <= fst (nt_range (AToken tokenB))
  /\ fst (nt_range (AToken tokenB)) <= snd (nt_range (AToken tokenB))
  /\ 0 <= 0
  /\ snd (nt_range (AToken tokenB)) + 0 <= len (text exampleSource)
  /\ getText exampleSource (Some (AToken tokenB)) (Some 1) (Some 0)
     = slice (text exampleSource) (fst (nt_range (AToken tokenB)) - 1)
         (fst (nt_range (AToken tokenB)))
       ++ getText exampleSource (Some (AToken tokenB)) None None
       ++ slice (text exampleSource) (snd (nt_range (AToken tokenB)))
            (snd (nt_range (AToken tokenB)) + 0)
  /\ len (getText exampleSource (Some (AToken tokenB)) (Some 1) (Some 0))
     = 1 + (snd (nt_range (AToken tokenB)) - fst (nt_range (AToken tokenB))) + 0.
Proof.
  assert (H1 : 0 <= 1 <= fst (nt_range (AToken tokenB)))
    by (vm_compute; split; discriminate).
  assert (H2 : fst (nt_range (AToken tokenB)) <= snd (nt_range (AToken tokenB)))
    by (vm_compute; discriminate).
  assert (H3 : 0 <= 0) by lia.
  assert (H4 : snd (nt_range (AToken tokenB)) + 0 <= len (text exampleSource))
    by (vm_compute; discriminate).
  split; [exact H1 |]. split; [exact H2 |]. split; [exact H3 |]. split; [exact H4 |].
  exact (getText_context exampleSource (AToken tokenB) 1 0 H1 H2 H3 H4).
Defined.

(** ** [getNodeByRangeIndex] on any tree *)

Section RangeIndexAnyTree.

Variable index : Z.
Variable root : Node.

(** The loop over the children keeps a [result] that is a node of the tree
    around the index, and does not lose a result. *)
Lemma visitChildren_rangeIndex_any (cs : list (option Node)) :
  (forall (c : Node), In c (someNodes cs) ->
     forall (s : option Node),
       (forall (r : Node), s = Some r ->
          In r (nodesOf root) /\ containsIndex r index = true) ->
       (forall (r : Node), fst (traverse (rangeIndexVisitor index) c s) = Some r ->
          In r (nodesOf root) /\ containsIndex r index = true)
       /\ (is_Some s -> is_Some (fst (traverse (rangeIndexVisitor index) c s)))) ->
  forall (s : option Node),
    (forall (r : Node), s = Some r ->
       In r (nodesOf root) /\ containsIndex r index = true) ->
    (forall (r : Node),
       fst (visitChildren (traverse (rangeIndexVisitor index)) cs s) = Some r ->
       In r (nodesOf root) /\ containsIndex r index = true)
    /\ (is_Some s ->
        is_Some (fst (visitChildren (traverse (rangeIndexVisitor index)) cs s))).
Proof.
  induction cs as [| [c |] cs IH]; intros Hall s Hs.
  - split; [exact Hs | auto].
  - destruct (Hall c ltac:(simpl; now left) s Hs) as [Hkeep Hsome].
    cbn [visitChildren].
    destruct (traverse (rangeIndexVisitor index) c s) as [s' [|]] eqn:Hc.
    + split; [exact Hkeep | exact Hsome].
    + cbn [fst] in Hkeep, Hsome.
      destruct (IH ltac:(intros c' Hc'; apply Hall; simpl; now right) s' Hkeep)
        as [Hkeep' Hsome'].
      split; [exact Hkeep' | auto].
  - cbn [visitChildren]. apply IH; [| exact Hs].
    intros c Hc. apply Hall. exact Hc.
Qed.

(** The traversal of a subtree of [root]. *)
Lemma traverse_rangeIndex_any (n : Node) :
  (forall (d : Node), In d (nodesOf n) -> In d (nodesOf root)) ->
  forall (s : option Node),
    (forall (r : Node), s = Some r ->
       In r (nodesOf root) /\ containsIndex r index = true) ->
    (forall (r : Node), fst (traverse (rangeIndexVisitor index) n s) = Some r ->
       In r (nodesOf root) /\ containsIndex r index = true)
    /\ (is_Some s -> is_Some (fst (traverse (rangeIndexVisitor index) n s)))
    /\ (containsIndex n index = true ->
        is_Some (fst (traverse (rangeIndexVisitor index) n s)))
    /\ (containsIndex n index = false ->
        fst (traverse (rangeIndexVisitor index) n s) = s).
Proof.
  induction n as [n IH] using Node_children_ind. intros Hsub s Hs.
  rewrite traverse_eq. cbn [enter leave rangeIndexVisitor].
  fold (containsIndex n index).
  destruct (containsIndex n index) eqn:Hn.
  - rewrite visitFields_flat.
    destruct (visitChildren_rangeIndex_any (flat_map snd (node_fields n))) with (s := Some n)
      as [Hkeep Hsome].
    + rewrite <- childNodes_flat. intros c Hc s' Hs'.
      destruct (IH c Hc) with (s := s') as (H1 & H2 & _); [| exact Hs' | auto].
      intros d Hd. apply Hsub. rewrite nodesOf_eq. right.
      exact (In_nodesOf_child n c d Hc Hd).
    + intros r [= <-]. split; [apply Hsub, In_nodesOf_self | exact Hn].
    + destruct (visitChildren _ _ (Some n)) as [s2 broken]. cbn [fst] in Hkeep, Hsome.
      assert (Hfst : fst (if broken then (s2, true)
                          else let '(s3, asked') :=
                                 if is_result n s2 then (s2, Break) else (s2, Continue) in
                               (s3, match asked' with Break => true | _ => false end))
                     = s2).
      { destruct broken; [reflexivity |]. destruct (is_result n s2); reflexivity. }
      rewrite Hfst.
      split; [exact Hkeep |]. split; [intros _; apply Hsome; eauto |].
      split; [intros _; apply Hsome; eauto | discriminate].
  - assert (Hfst : fst (let '(s3, asked') :=
                          if is_result n s then (s, Break) else (s, Continue) in
                        (s3, match asked' with Break => true | _ => false end))
                   = s).
    { destruct (is_result n s); reflexivity. }
    cbv iota beta. rewrite Hfst.
    split; [exact Hs |]. split; [auto |]. split; [discriminate | reflexivity].
Qed.

End RangeIndexAnyTree.

(** X16: On any tree, nested or not: the node [getNodeByRangeIndex] answers is a
    node of the tree whose range contains the index, and the answer is
    [null] exactly when the range of the root does not contain the index,
    whatever the nodes below the root are. *)
Theorem getNodeByRangeIndex_contains (sc : SourceCode) (index : Z) :
  match getNodeByRangeIndex sc index with
  | Some r =>
      In r (nodesOf (ast sc))
      /\ containsIndex r index = true
      /\ containsIndex (ast sc) index = true
  | None => containsIndex (ast sc) index = false
  end.
Proof.
  unfold getNodeByRangeIndex.
  destruct (traverse_rangeIndex_any index (ast sc) (ast sc) ltac:(auto) None
              ltac:(intros ? [=])) as (Hkeep & _ & Hyes & Hno).
  destruct (containsIndex (ast sc) index) eqn:Hroot.
  - destruct (Hyes eq_refl) as [r Hr]. rewrite Hr.
    destruct (Hkeep r Hr). auto.
  - now rewrite (Hno eq_refl).
Qed.

(** ** [getComments]: what is attached to a node *)

Section CommentsPushed.

Variable sc : SourceCode.
Hypothesis Hne : nonEmptyEntries sc.
Variable node : Node.

(** What the first loop pushes: comments of the merged stream that end at
    or before [bound] and do not start before a parent that is not the
    root. *)
Lemma commentsBefore_pushed (bound : Z) (fuel : nat) :
  forall (cur : option Token) (acc out : list Token),
    (forall (t : Token), cur = Some t ->
       In t (tokensAndComments sc) /\ tok_end t <= bound) ->
    commentsBefore fuel sc node cur acc = Some out ->
    forall (x : Token), In x out ->
      In x acc
      \/ (In x (tokensAndComments sc) /\ isCommentToken x = true
          /\ tok_end x <= bound
          /\ outsideParent node (fun parent => tok_start x <? node_start parent) = false).
Proof.
  induction fuel as [| fuel IH]; intros cur acc out Hcur H; [discriminate H |].
  cbn [commentsBefore] in H. destruct cur as [tok |]; [| injection H as <-; auto].
  destruct (Hcur tok eq_refl) as [Hin Hend].
  destruct (isCommentToken tok) eqn:Hcomment; [| injection H as <-; auto].
  destruct (outsideParent node (fun parent => tok_start tok <? node_start parent))
    eqn:Hout; [injection H as <-; auto |].
  intros x Hx.
  destruct (IH (getTokenBefore sc (AToken tok) true) (acc ++ [tok]) out) with (x := x)
    as [Hacc | Hnew]; try assumption.
  - intros t Ht. unfold getTokenBefore, stream in Ht.
    apply find_some in Ht as [Ht Hle]. apply in_rev in Ht.
    split; [assumption |]. apply Z.leb_le in Hle. cbn [nt_range] in Hle.
    pose proof (entry_not_empty sc Hne tok Hin) as Htok.
    unfold tok_start, tok_end in *. lia.
  - apply in_app_or in Hacc as [Hacc | [<- | []]]; [now left |].
    right. repeat split; assumption.
  - now right.
Qed.

(** What the second loop pushes: comments of the merged stream that start
    at or after [bound] and do not end after a parent that is not the
    root. *)
Lemma commentsAfter_pushed (bound : Z) (fuel : nat) :
  forall (cur : option Token) (acc out : list Token),
    (forall (t : Token), cur = Some t ->
       In t (tokensAndComments sc) /\ bound <= tok_start t) ->
    commentsAfter fuel sc node cur acc = Some out ->
    forall (x : Token), In x out ->
      In x acc
      \/ (In x (tokensAndComments sc) /\ isCommentToken x = true
          /\ bound <= tok_start x
          /\ outsideParent node (fun parent => tok_end x >? node_end parent) = false).
Proof.
  induction fuel as [| fuel IH]; intros cur acc out Hcur H; [discriminate H |].
  cbn [commentsAfter] in H. destruct cur as [tok |]; [| injection H as <-; auto].
  destruct (Hcur tok eq_refl) as [Hin Hstart].
  destruct (isCommentToken tok) eqn:Hcomment; [| injection H as <-; auto].
  destruct (outsideParent node (fun parent => tok_end tok >? node_end parent))
    eqn:Hout; [injection H as <-; auto |].
  intros x Hx.
  destruct (IH (getTokenAfter sc (AToken tok) true) (acc ++ [tok]) out) with (x := x)
    as [Hacc | Hnew]; try assumption.
  - intros t Ht. unfold getTokenAfter, stream in Ht.
    apply find_some in Ht as [Ht Hle].
    split; [assumption |]. apply Z.leb_le in Hle. cbn [nt_range] in Hle.
    pose proof (entry_not_empty sc Hne tok Hin) as Htok.
    unfold tok_start, tok_end in *. lia.
  - apply in_app_or in Hacc as [Hacc | [<- | []]]; [now left |].
    right. repeat split; assumption.
  - now right.
Qed.

End CommentsPushed.

(** The test on the parent, read for a parent that is not the root. *)
Lemma outsideParent_false (node parent : Node) (outside : Node -> bool) :
  outsideParent node outside = false ->
  node_parent node = Some parent -> node_type parent <> "Program" ->
  outside parent = false.
Proof.
  unfold outsideParent. intros H Hp Htype. rewrite Hp in H.
  apply String.eqb_neq in Htype. now rewrite Htype in H.
Qed.

(** X17: What [getComments] computes for a node other than the root, over a
    merged stream without empty entries.  With enough fuel there is a result,
    and the cache records it.  Every leading and trailing entry is a comment
    of the merged stream.  A leading comment ends at or before the start of
    the node and does not start before the start of a parent that is not the
    root.  A trailing comment lies inside the node, or starts at or after
    the end of the node and does not end after the end of such a parent. *)
Theorem getComments_attached (sc : SourceCode) (node : Node)
    (cache : gmap N Comments) :
  nonEmptyEntries sc -> node_type node <> "Program" ->
  cache !! node_id node = None ->
  exists (r : Comments),
    (forall (fuel : nat), (S (length (tokensAndComments sc)) < fuel)%nat ->
       getComments fuel sc node cache = Some (r, <[node_id node := r]> cache))
    /\ (forall (c : Token), In c (leading r) -> leadingFor sc node c)
    /\ (forall (c : Token), In c (trailing r) -> trailingFor sc node c).
Proof.
  intros Hne Htype Hmiss.
  destruct (getComments_ends sc Hne node) as [r Hr].
  exists r. split.
  { intros fuel Hfuel. rewrite (getComments_miss fuel sc node cache Hmiss).
    now rewrite (Hr fuel Hfuel). }
  specialize (Hr (S (S (length (tokensAndComments sc)))) ltac:(lia)).
  set (fuel := S (S (length (tokensAndComments sc)))) in Hr.
  unfold getComments in Hr. rewrite lookup_empty in Hr.
  apply String.eqb_neq in Htype as Hprogram. rewrite Hprogram in Hr.
  destruct (commentsBefore fuel sc node (getTokenBefore sc (ANode node) true) [])
    as [pushed |] eqn:Hbefore; [| discriminate Hr].
  destruct (commentsAfter fuel sc node (getTokenAfter sc (ANode node) true) _)
    as [after |] eqn:Hafter; [| discriminate Hr].
  injection Hr as Hr _. subst r. cbn [leading trailing].
  unfold leadingFor, trailingFor. split.
  - intros c Hc. apply in_rev in Hc.
    destruct (commentsBefore_pushed sc Hne node (node_start node) fuel
                (getTokenBefore sc (ANode node) true) [] pushed) with (x := c)
      as [[] | (Hin & Hcomment & Hend & Hparent)]; try assumption.
    + intros t Ht. unfold getTokenBefore, stream in Ht.
      apply find_some in Ht as [Ht Hle]. apply in_rev in Ht.
      split; [assumption |]. now apply Z.leb_le in Hle.
    + repeat split; try assumption.
      intros parent Hp Hptype.
      pose proof (outsideParent_false node parent _ Hparent Hp Hptype) as Hlt.
      cbv beta in Hlt. lia.
  - intros c Hc.
    destruct (commentsAfter_pushed sc Hne node (node_end node) fuel
                (getTokenAfter sc (ANode node) true)
                (if onlyContainsComments node
                 then getTokens sc (ANode node) true isCommentToken else [])
                after) with (x := c)
      as [Hinside | (Hin & Hcomment & Hstart & Hparent)]; try assumption.
    + intros t Ht. unfold getTokenAfter, stream in Ht.
      apply find_some in Ht as [Ht Hle].
      split; [assumption |]. now apply Z.leb_le in Hle.
    + destruct (onlyContainsComments node); [| destruct Hinside].
      unfold getTokens, stream in Hinside.
      apply filter_In in Hinside as [Hin Htest].
      apply andb_true_iff in Htest as [Hrange Hcomment].
      apply andb_true_iff in Hrange as [Hs He].
      apply Z.leb_le in Hs, He. cbn [nt_range] in Hs, He.
      repeat split; try assumption. left. split; assumption.
    + repeat split; try assumption. right. split; [assumption |].
      intros parent Hp Hptype.
      pose proof (outsideParent_false node parent _ Hparent Hp Hptype) as Hgt.
      cbv beta in Hgt. lia.
Qed.

(** On the running example the statement [b] has the comment [//x] as its
    one leading comment. *)
Lemma getComments_attached_witness :
  nonEmptyEntries exampleSource
  /\ node_type (exampleStatement 3 (5, 6)) <> "Program"
  /\ (∅ : gmap N Comments) !! node_id (exampleStatement 3 (5, 6)) = None
  /\ option_map fst (getComments 5 exampleSource (exampleStatement 3 (5, 6)) ∅)
     = Some {| leading := [commentX]; trailing := [] |}
  /\ exists (r : Comments),
       (forall (fuel : nat), (S (length (tokensAndComments exampleSource)) < fuel)%nat ->
          getComments fuel exampleSource (exampleStatement 3 (5, 6)) ∅
          = Some (r, <[node_id (exampleStatement 3 (5, 6)) := r]> ∅))
       /\ (forall (c : Token), In c (leading r) ->
             leadingFor exampleSource (exampleStatement 3 (5, 6)) c)
       /\ (forall (c : Token), In c (trailing r) ->
             trailingFor exampleSource (exampleStatement 3 (5, 6)) c).
Proof.
  assert (H1 : nonEmptyEntries exampleSource)
    by (unfold nonEmptyEntries; vm_compute; repeat constructor).
  assert (H2 : node_type (exampleStatement 3 (5, 6)) <> "Program") by discriminate.
  assert (H3 : (∅ : gmap N Comments) !! node_id (exampleStatement 3 (5, 6)) = None)
    by reflexivity.
  split; [exact H1 |]. split; [exact H2 |]. split; [exact H3 |].
  split; [vm_compute; reflexivity |].
  exact (getComments_attached exampleSource (exampleStatement 3 (5, 6)) ∅ H1 H2 H3).
Defined.

(** X18: [getComments] memoizes.  After a call that gave a result the cache
    holds that result for the node and is unchanged for every other node;
    a later call for the node, with any fuel, answers the same result and
    leaves the cache as it is. *)
Theorem getComments_memoized (fuel : nat) (sc : SourceCode) (node : Node)
    (cache cache' : gmap N Comments) (r : Comments) :
  getComments fuel sc node cache = Some (r, cache') ->
  cache' !! node_id node = Some r
  /\ (forall (k : N), k <> node_id node -> cache' !! k = cache !! k)
  /\ forall (fuel' : nat), getComments fuel' sc node cache' = Some (r, cache').
Proof.
  intros H.
  assert (Hhit : cache' !! node_id node = Some r
                 /\ forall (k : N), k <> node_id node -> cache' !! k = cache !! k).
  { unfold getComments in H.
    destruct (cache !! node_id node) as [cached |] eqn:Hlook.
    - injection H as <- <-. auto.
    - match type of H with
      | match ?computed with _ => _ end = _ => destruct computed; [| discriminate H]
      end.
      injection H as <- <-. split; [apply lookup_insert_eq |].
      intros k Hk. now apply lookup_insert_ne. }
  destruct Hhit as [Hhit Hframe]. split; [exact Hhit |]. split; [exact Hframe |].
  intros fuel'. unfold getComments. now rewrite Hhit.
Qed.

Lemma getComments_memoized_witness :
  getComments 5 blockSource emptyBlock ∅
  = Some ({| leading := []; trailing := [commentC] |},
          <[node_id emptyBlock := {| leading := []; trailing := [commentC] |}]> ∅)
  /\ forall (fuel' : nat),
       getComments fuel' blockSource emptyBlock
         (<[node_id emptyBlock := {| leading := []; trailing := [commentC] |}]> ∅)
       = Some ({| leading := []; trailing := [commentC] |},
               <[node_id emptyBlock := {| leading := []; trailing := [commentC] |}]> ∅).
Proof.
  assert (H : getComments 5 blockSource emptyBlock ∅
              = Some ({| leading := []; trailing := [commentC] |},
                      <[node_id emptyBlock
                        := {| leading := []; trailing := [commentC] |}]> ∅))
    by (vm_compute; reflexivity).
  split; [exact H |].
  exact (proj2 (proj2 (getComments_memoized 5 blockSource emptyBlock ∅ _ _ H))).
Defined.

(** ** [getScope] and [getAncestors] *)

(** A call that does not find a scope in the cache asks the scope manager
    and stores the answer. *)
Lemma getScope_miss (sc : SourceCode) (sm : ScopeManager) (n : Node)
    (cache : gmap N (option Scope)) :
  scopeManager sc = Some sm ->
  (forall (s : Scope), cache !! node_id n <> Some (Some s)) ->
  getScope sc (Some n) cache
  = (Ok (scopeOf sm n), <[node_id n := scopeOf sm n]> cache).
Proof.
  intros Hsm Hmiss. unfold getScope, scopeOf.
  rewrite Hsm, acquireFirst_firstYield.
  destruct (cache !! node_id n) as [[s |] |]; [now destruct (Hmiss s) | |];
    destruct (firstYield sm _ (parentChain n)) as [scope |];
    try destruct (String.eqb (scope_type scope) "function-expression-name");
    reflexivity.
Qed.

(** X19: [getScope] and its cache.  A second call with the cache the first one
    left answers the same and leaves the cache as it is.  A call touches at
    most the entry of its node.  The only failure is a TypeError, for a
    missing node or a missing scope manager, and it leaves the cache as it
    is.  A scope the cache holds for the node is answered without the scope
    manager; a scope that is answered is in the cache afterwards. *)
Theorem getScope_cache (sc : SourceCode) (node : option Node)
    (cache : gmap N (option Scope)) :
  let r := fst (getScope sc node cache) in
  let cache' := snd (getScope sc node cache) in
  getScope sc node cache' = (r, cache')
  /\ (forall (n : Node) (k : N),
        node = Some n -> k <> node_id n -> cache' !! k = cache !! k)
  /\ (forall (e : error), r = Throw e -> e = TypeError /\ cache' = cache)
  /\ (node = None -> r = Throw TypeError)
  /\ (forall (n : Node) (s : Scope),
        node = Some n -> cache !! node_id n = Some (Some s) ->
        r = Ok (Some s) /\ cache' = cache)
  /\ (forall (n : Node) (s : Scope),
        node = Some n -> r = Ok (Some s) -> cache' !! node_id n = Some (Some s)).
Proof.
  destruct node as [n |]; cycle 1.
  { cbn. split; [reflexivity |]. split; [discriminate |].
    split; [intros e [= <-]; auto |]. split; [reflexivity |].
    split; discriminate. }
  assert (Hcases : (exists (s : Scope), cache !! node_id n = Some (Some s))
                   \/ forall (s : Scope), cache !! node_id n <> Some (Some s)).
  { destruct (cache !! node_id n) as [[s |] |]; [left; eauto | |];
      right; intros s; discriminate. }
  destruct Hcases as [[s Hlook] | Hmiss].
  - assert (E : getScope sc (Some n) cache = (Ok (Some s), cache))
      by (unfold getScope; now rewrite Hlook).
    rewrite E. cbn [fst snd]. split; [exact E |].
    split; [reflexivity |]. split; [discriminate |]. split; [discriminate |].
    split.
    + intros n' s' [= <-] Hlook'. rewrite Hlook in Hlook'.
      injection Hlook' as <-. auto.
    + intros n' s' [= <-] [= <-]. exact Hlook.
  - destruct (scopeManager sc) as [sm |] eqn:Hsm.
    + rewrite (getScope_miss sc sm n cache Hsm Hmiss). cbn [fst snd].
      split.
      { destruct (scopeOf sm n) as [s |] eqn:Hs.
        - unfold getScope. now rewrite lookup_insert_eq.
        - rewrite (getScope_miss sc sm n _ Hsm), Hs.
          + now rewrite insert_insert_eq.
          + intros s'. rewrite lookup_insert_eq. discriminate. }
      split; [intros n' k [= <-] Hk; now apply lookup_insert_ne |].
      split; [discriminate |]. split; [discriminate |]. split.
      * intros n' s [= <-] Hlook. now destruct (Hmiss s).
      * intros n' s [= <-] [= ->]. apply lookup_insert_eq.
    + assert (E : getScope sc (Some n) cache = (Throw TypeError, cache)).
      { unfold getScope. rewrite Hsm.
        destruct (cache !! node_id n) as [[s |] |]; [now destruct (Hmiss s) | |];
          reflexivity. }
      rewrite E. cbn [fst snd]. split; [exact E |].
      split; [reflexivity |]. split; [intros e [= <-]; auto |].
      split; [discriminate |]. split.
      * intros n' s [= <-] Hlook. now destruct (Hmiss s).
      * discriminate.
Qed.

(** The ancestors of a node, outermost first: those of its parent, then
    the parent. *)
Lemma ancestors_parent (node parent : Node) :
  node_parent node = Some parent ->
  rev (ancestorsStartingAtParent node)
  = rev (ancestorsStartingAtParent parent) ++ [parent].
Proof.
  intros Hp. destruct node as [id type range p fields toks coms].
  cbn in Hp. subst p. reflexivity.
Qed.

Lemma ancestors_root (node : Node) :
  node_parent node = None -> ancestorsStartingAtParent node = [].
Proof.
  intros Hp. destruct node as [id type range p fields toks coms].
  cbn in Hp. subst p. reflexivity.
Qed.

(** X20: [getAncestors] fails with a TypeError for a missing node and for no
    other.  The array it answers goes from the root inward: its first element
    has no parent, each further element has the element before it as its
    parent, and its last element is the parent of the node; it is empty
    exactly for a node without a parent. *)
Theorem getAncestors_chain (node : Node) :
  getAncestors None = Throw TypeError
  /\ exists (l : list Node),
       getAncestors (Some node) = Ok l
       /\ last l = node_parent node
       /\ (forall (a : Node), head l = Some a -> node_parent a = None)
       /\ (forall (i : nat) (a b : Node),
             l !! i = Some a -> l !! S i = Some b -> node_parent b = Some a)
       /\ (l = [] <-> node_parent node = None).
Proof.
  split; [reflexivity |].
  exists (rev (ancestorsStartingAtParent node)). split; [reflexivity |].
  induction node as [node IH] using Node_parent_ind.
  destruct (node_parent node) as [parent |] eqn:Hp.
  - rewrite (ancestors_parent node parent Hp).
    destruct (IH parent eq_refl) as (Hlast & Hhead & Hnext & Hempty).
    set (l := rev (ancestorsStartingAtParent parent)) in *.
    split; [apply last_snoc |]. split; [| split].
    + intros a Ha. destruct l as [| x l'] eqn:Hl.
      * cbn in Ha. injection Ha as <-. now apply Hempty.
      * cbn in Ha. injection Ha as <-. now apply Hhead.
    + intros i a b Ha Hb.
      assert (Hi : (S i < length (l ++ [parent]))%nat)
        by (apply lookup_lt_is_Some; eauto).
      rewrite length_app in Hi. cbn [length] in Hi.
      destruct (Nat.eq_dec (S i) (length l)) as [E | E].
      * rewrite lookup_app_l in Ha by lia.
        rewrite lookup_app_r, E, Nat.sub_diag in Hb by lia.
        cbn in Hb. injection Hb as <-.
        rewrite <- Hlast, last_lookup. rewrite <- E. exact Ha.
      * rewrite lookup_app_l in Ha by lia. rewrite lookup_app_l in Hb by lia.
        exact (Hnext i a b Ha Hb).
    + split; [intros H; now destruct l | discriminate].
  - rewrite (ancestors_root node Hp). cbn.
    split; [reflexivity |]. split; [discriminate |]. split; [discriminate |].
    split; reflexivity.
Qed.

(** ** The constructor *)

(** X21: The byte order mark: [hasBOM] tells whether the text given to the
    constructor starts with U+FEFF, and [text] is that text without this one
    unit; a second U+FEFF stays. *)
Theorem SourceCode_new_BOM (text0 : jsstring) (ast0 : Node)
    (sm : option ScopeManager) :
  let sc := SourceCode_new text0 ast0 sm in
  text0 = (if hasBOM sc then [65279] else []) ++ text sc
  /\ (hasBOM sc = true <-> head text0 = Some 65279)
  /\ len (text sc) = len text0 - (if hasBOM sc then 1 else 0).
Proof.
  assert (Hfields :
    hasBOM (SourceCode_new text0 ast0 sm)
    = match text0 with c :: _ => c =? 65279 | [] => false end
    /\ text (SourceCode_new text0 ast0 sm)
       = if match text0 with c :: _ => c =? 65279 | [] => false end
         then slice_from text0 1 else text0).
  { unfold SourceCode_new. cbv zeta.
    destruct (splitAtLinebreaks _) as [lines0 starts0]. split; reflexivity. }
  cbv zeta. destruct Hfields as [-> ->].
  destruct text0 as [| c rest]; [repeat split; discriminate |].
  destruct (Z.eqb_spec c 65279) as [-> | Hc].
  - rewrite slice_from_drop by (unfold len; cbn [length]; lia).
    change (drop (Z.to_nat 1) (65279 :: rest)) with rest.
    unfold len. cbn [length head]. repeat split; lia.
  - cbn [app head]. split; [reflexivity |]. split; [| lia].
    split; [discriminate | intros [= ->]; now destruct Hc].
Qed.

(** The shebang check changes at most the [type] of the first comment. *)
Lemma retagShebang_spec (text : jsstring) (comments : list Token) :
  map tok_id (retagShebang text comments) = map tok_id comments
  /\ map tok_value (retagShebang text comments) = map tok_value comments
  /\ map tok_range (retagShebang text comments) = map tok_range comments
  /\ tail (retagShebang text comments) = tail comments
  /\ (forall (c c' : Token),
        head comments = Some c -> head (retagShebang text comments) = Some c' ->
        tok_type c' = tok_type c
        \/ tok_type c' = "Shebang" /\ shebangMatch text = Some (tok_value c)).
Proof.
  unfold retagShebang.
  destruct (shebangMatch text) as [body |]; [| repeat split; auto;
    intros c c' H1 H2; rewrite H1 in H2; injection H2 as <-; now left].
  destruct comments as [| c rest]; [repeat split; discriminate |].
  destruct (decide (tok_value c = body)) as [<- | Hne].
  - repeat split. intros c0 c' [= <-] [= <-]. right. split; reflexivity.
  - repeat split. intros c0 c' [= <-] [= <-]. now left.
Qed.

(** X22: The token arrays after the constructor.  The tokens are those of the
    AST.  The comments are those of the AST in the same order; only the
    [type] of the first may differ, and then it is "Shebang" and the value of
    the comment is what the shebang pattern captures on the text.  The AST
    holds the same comments ([getAllComments]).  The merged stream holds the
    tokens and the comments, each once. *)
Theorem SourceCode_new_token_arrays (text0 : jsstring) (ast0 : Node)
    (sm : option ScopeManager) :
  let sc := SourceCode_new text0 ast0 sm in
  tokens sc = node_tokens ast0
  /\ map tok_id (comments sc) = map tok_id (node_comments ast0)
  /\ map tok_value (comments sc) = map tok_value (node_comments ast0)
  /\ map tok_range (comments sc) = map tok_range (node_comments ast0)
  /\ tail (comments sc) = tail (node_comments ast0)
  /\ (forall (c c' : Token),
        head (node_comments ast0) = Some c -> head (comments sc) = Some c' ->
        tok_type c' = tok_type c
        \/ tok_type c' = "Shebang" /\ shebangMatch (text sc) = Some (tok_value c))
  /\ getAllComments sc = comments sc
  /\ Permutation (tokensAndComments sc) (tokens sc ++ comments sc).
Proof.
  assert (Hfields :
    let sc := SourceCode_new text0 ast0 sm in
    tokens sc = node_tokens ast0
    /\ comments sc = retagShebang (text sc) (node_comments ast0)
    /\ node_comments (ast sc) = comments sc
    /\ tokensAndComments sc = sortedMerge (tokens sc) (comments sc)).
  { unfold SourceCode_new. cbv zeta.
    destruct (splitAtLinebreaks _) as [lines0 starts0]. repeat split. }
  cbv zeta in *. destruct Hfields as (Htok & Hcom & Hast & Hmerged).
  destruct (retagShebang_spec (text (SourceCode_new text0 ast0 sm)) (node_comments ast0))
    as (Hid & Hval & Hrange & Htail & Hhead).
  rewrite <- Hcom in Hid, Hval, Hrange, Htail, Hhead.
  split; [exact Htok |]. split; [exact Hid |]. split; [exact Hval |].
  split; [exact Hrange |]. split; [exact Htail |]. split; [exact Hhead |].
  split; [exact Hast |].
  rewrite Hmerged. apply sortedMerge_perm.
Qed.

(** ** [getJSDocComment] *)

Section JSDocResults.

Variable startLine : Node -> Z.
Variable endLine : Token -> Z.
Variable getCommentsBefore : Node -> list Token.
Variable sc : SourceCode.

(** What [findJSDocComment] answers, when it answers a token. *)
Lemma findJSDocComment_Some (astNode : Node) (c : Token) :
  findJSDocComment startLine endLine sc astNode = Some c ->
  In c (tokensAndComments sc)
  /\ tok_type c = "Block" /\ startsWithStar (tok_value c) = true
  /\ tok_end c <= node_start astNode
  /\ startLine astNode - endLine c <= 1.
Proof.
  unfold findJSDocComment. intros H.
  destruct (getTokenBefore sc (ANode astNode) true) as [t |] eqn:Ht;
    [| discriminate H].
  destruct (isCommentToken t && String.eqb (tok_type t) "Block"
            && startsWithStar (tok_value t)
            && (startLine astNode - endLine t <=? 1)) eqn:Htest;
    [| discriminate H].
  injection H as <-.
  apply andb_true_iff in Htest as [Htest Hline].
  apply andb_true_iff in Htest as [Htest Hstar].
  apply andb_true_iff in Htest as [_ Hblock].
  unfold getTokenBefore, stream in Ht.
  apply find_some in Ht as [Hin Hle]. apply in_rev in Hin.
  apply Z.leb_le in Hle, Hline. apply String.eqb_eq in Hblock.
  repeat split; assumption.
Qed.

(** The loop over the ancestors ends at one of them. *)
Lemma jsdocAncestor_chain (parent found : Node) :
  jsdocAncestor getCommentsBefore parent = Some found ->
  In found (parentChain parent).
Proof.
  unfold parentChain.
  induction parent as [parent IH] using Node_parent_ind.
  destruct parent as [id type range p fields toks coms].
  cbn [jsdocAncestor node_parent node_type ancestorsStartingAtParent] in *.
  destruct (_ && _).
  - destruct p as [ancestor |]; [| discriminate].
    intros H. right. exact (IH ancestor eq_refl H).
  - intros [= <-]. now left.
Qed.

End JSDocResults.

(** X23: What [getJSDocComment] answers is never a line comment, a shebang or
    a token: an answer that is not [null] is a block comment of the merged
    stream whose value starts with a star.  It stands before the node or
    before one of its ancestors, which starts at most one line below the
    end of the comment. *)
Theorem getJSDocComment_found (startLine : Node -> Z) (endLine : Token -> Z)
    (getCommentsBefore : Node -> list Token) (sc : SourceCode)
    (node : Node) (c : Token) :
  getJSDocComment startLine endLine getCommentsBefore sc node = Ok (Some c) ->
  In c (tokensAndComments sc)
  /\ isCommentToken c = true
  /\ tok_type c = "Block" /\ startsWithStar (tok_value c) = true
  /\ exists (documented : Node),
       In documented (parentChain node)
       /\ findJSDocComment startLine endLine sc documented = Some c
       /\ tok_end c <= node_start documented
       /\ startLine documented - endLine c <= 1.
Proof.
  intros H.
  assert (Hfound : exists (documented : Node),
             In documented (parentChain node)
             /\ findJSDocComment startLine endLine sc documented = Some c).
  { unfold getJSDocComment in H. cbv zeta in H. unfold parentChain.
    destruct node as [id type range p fields toks coms].
    cbn [node_parent node_type ancestorsStartingAtParent] in *.
    set (node := mkNode id type range p fields toks coms) in *.
    destruct (String.eqb type "ClassDeclaration" || String.eqb type "FunctionDeclaration").
    { destruct p as [parent |]; [| discriminate H]. injection H as H.
      destruct (looksLikeExport parent).
      - exists parent. split; [right; now left | exact H].
      - exists node. split; [now left | exact H]. }
    destruct (String.eqb type "ClassExpression").
    { destruct p as [parent |]; [| discriminate H].
      destruct (node_parent parent) as [grandparent |] eqn:Hg; [| discriminate H].
      injection H as H. exists grandparent. split; [| exact H].
      right. right. destruct parent as [? ? ? pp ? ? ?]. cbn in Hg. subst pp.
      now left. }
    destruct (String.eqb type "ArrowFunctionExpression"
              || String.eqb type "FunctionExpression"); [| discriminate H].
    destruct p as [parent |]; [| discriminate H].
    assert (Hself : Ok (findJSDocComment startLine endLine sc node) = Ok (Some c) ->
                    exists (documented : Node),
                      In documented (node :: parent :: ancestorsStartingAtParent parent)
                      /\ findJSDocComment startLine endLine sc documented = Some c).
    { intros [= E]. exists node. split; [now left | exact E]. }
    destruct (negb (String.eqb (node_type parent) "CallExpression")
              && negb (String.eqb (node_type parent) "NewExpression"));
      [| exact (Hself H)].
    destruct (jsdocAncestor getCommentsBefore parent) as [found |] eqn:Hloop;
      [| exact (Hself H)].
    destruct (negb (String.eqb (node_type found) "FunctionDeclaration")
              && negb (String.eqb (node_type found) "Program"));
      [| exact (Hself H)].
    injection H as H. exists found. split; [| exact H].
    right. exact (jsdocAncestor_chain getCommentsBefore parent found Hloop). }
  destruct Hfound as (documented & Hchain & Hfind).
  destruct (findJSDocComment_Some startLine endLine sc documented c Hfind)
    as (Hin & Hblock & Hstar & Hend & Hline).
  split; [exact Hin |]. split.
  { unfold isCommentToken. rewrite Hblock. reflexivity. }
  split; [exact Hblock |]. split; [exact Hstar |].
  exists documented. auto.
Qed.

(** X24: When [getJSDocComment] fails.  A node of another type than the five
    the function looks at gets [null].  A node of one of the five types
    without a parent, and a class expression whose parent has no parent, make
    the function throw a TypeError; there is no other failure. *)
Theorem getJSDocComment_failures (startLine : Node -> Z) (endLine : Token -> Z)
    (getCommentsBefore : Node -> list Token) (sc : SourceCode) (node : Node) :
  (documentedType (node_type node) = false ->
   getJSDocComment startLine endLine getCommentsBefore sc node = Ok None)
  /\ forall (e : error),
       getJSDocComment startLine endLine getCommentsBefore sc node = Throw e
       <-> e = TypeError
           /\ documentedType (node_type node) = true
           /\ (node_parent node = None
               \/ node_type node = "ClassExpression"
                  /\ exists (parent : Node),
                       node_parent node = Some parent /\ node_parent parent = None).
Proof.
  unfold getJSDocComment, documentedType. cbv zeta.
  destruct (String.eqb (node_type node) "ClassDeclaration"
            || String.eqb (node_type node) "FunctionDeclaration") eqn:Hdecl.
  { cbn [orb]. split; [discriminate |]. intros e.
    assert (Hnot : node_type node <> "ClassExpression").
    { intros E. rewrite E in Hdecl. discriminate Hdecl. }
    destruct (node_parent node) as [parent |].
    - split; [discriminate |]. intros (_ & _ & [H | [H _]]); [discriminate H |].
      now destruct Hnot.
    - split; [intros [= <-]; auto |]. now intros [-> _]. }
  cbn [orb].
  destruct (String.eqb (node_type node) "ClassExpression") eqn:Hexpr.
  { cbn [orb]. split; [discriminate |]. intros e.
    apply String.eqb_eq in Hexpr.
    destruct (node_parent node) as [parent |].
    - destruct (node_parent parent) as [grandparent |] eqn:Hg.
      + split; [discriminate |].
        intros (_ & _ & [H | (_ & parent' & [= <-] & H)]); [discriminate H |].
        rewrite Hg in H. discriminate H.
      + split; [intros [= <-] | now intros [-> _]].
        split; [reflexivity |]. split; [reflexivity |]. right. eauto.
    - split; [intros [= <-]; auto |]. now intros [-> _]. }
  cbn [orb].
  destruct (String.eqb (node_type node) "ArrowFunctionExpression"
            || String.eqb (node_type node) "FunctionExpression") eqn:Hfun.
  { split; [discriminate |]. intros e.
    apply String.eqb_neq in Hexpr.
    destruct (node_parent node) as [parent |].
    - assert (Hok : forall (r : result (option Token)),
                 (exists (found : option Token), r = Ok found) ->
                 r = Throw e
                 <-> e = TypeError /\ true = true
                     /\ (Some parent = None
                         \/ node_type node = "ClassExpression"
                            /\ exists (parent0 : Node),
                                 Some parent = Some parent0
                                 /\ node_parent parent0 = None)).
      { intros r [found ->]. split; [discriminate |].
        intros (_ & _ & [H | [H _]]); [discriminate H | now destruct Hexpr]. }
      apply Hok.
      destruct (negb _ && negb _); [| eauto].
      destruct (jsdocAncestor getCommentsBefore parent) as [found |]; [| eauto].
      destruct (negb _ && negb _); eauto.
    - split; [intros [= <-]; auto |]. now intros [-> _]. }
  split; [reflexivity |]. intros e. split; [discriminate |].
  intros (_ & H & _). discriminate H.
Qed.

(** On a function declaration under its JSDoc comment. *)
Lemma getJSDocComment_found_witness :
  getJSDocComment docStartLine docEndLine (fun _ => []) docSource docFunction
  = Ok (Some docComment)
  /\ In docComment (tokensAndComments docSource)
  /\ isCommentToken docComment = true
  /\ tok_type docComment = "Block" /\ startsWithStar (tok_value docComment) = true
  /\ exists (documented : Node),
       In documented (parentChain docFunction)
       /\ findJSDocComment docStartLine docEndLine docSource documented = Some docComment
       /\ tok_end docComment <= node_start documented
       /\ docStartLine documented - docEndLine docComment <= 1.
Proof.
  assert (H : getJSDocComment docStartLine docEndLine (fun _ => []) docSource docFunction
              = Ok (Some docComment)) by (vm_compute; reflexivity).
  split; [exact H |].
  exact (getJSDocComment_found docStartLine docEndLine (fun _ => []) docSource
           docFunction docComment H).
Defined.

(** ** [validate] *)

(** X25: [validate] accepts exactly the objects whose [tokens], [comments],
    [loc] and [range] are truthy, so empty arrays pass.  It fails with a
    TypeError exactly when the AST is [undefined] or [null]: a constructor
    call without an AST does not get the "AST is missing" Error.  Every other
    failure is a plain Error. *)
Theorem validate_accepts (ast : value) :
  (validate ast = Ok tt
   <-> exists (props : list (string * value)),
         ast = VObject props
         /\ truthy (lookup_prop "tokens" props) = true
         /\ truthy (lookup_prop "comments" props) = true
         /\ truthy (lookup_prop "loc" props) = true
         /\ truthy (lookup_prop "range" props) = true)
  /\ (validate ast = Throw TypeError <-> ast = VUndefined \/ ast = VNull)
  /\ validate ast <> Throw RangeError
  /\ validate (VObject [("tokens", VObject []); ("comments", VObject []);
                        ("loc", VObject []); ("range", VObject [])]) = Ok tt.
Proof.
  split; [| split; [| split; [| reflexivity]]].
  - split.
    + intros H. destruct ast as [| | b | n | s | props]; try discriminate H.
      exists props. unfold validate, required in H. cbn [get_prop] in H.
      destruct (truthy (lookup_prop "tokens" props)); [| discriminate H].
      destruct (truthy (lookup_prop "comments" props)); [| discriminate H].
      destruct (truthy (lookup_prop "loc" props)); [| discriminate H].
      destruct (truthy (lookup_prop "range" props)); [| discriminate H].
      repeat split.
    + intros (props & -> & H1 & H2 & H3 & H4).
      unfold validate, required. cbn [get_prop]. now rewrite H1, H2, H3, H4.
  - split.
    + intros H. destruct ast as [| | b | n | s | props]; auto; try discriminate H.
      unfold validate, required in H. cbn [get_prop] in H.
      destruct (truthy (lookup_prop "tokens" props)); [| discriminate H].
      destruct (truthy (lookup_prop "comments" props)); [| discriminate H].
      destruct (truthy (lookup_prop "loc" props)); [| discriminate H].
      destruct (truthy (lookup_prop "range" props)); discriminate H.
    + intros [-> | ->]; reflexivity.
  - destruct ast as [| | b | n | s | props]; try discriminate.
    unfold validate, required. cbn [get_prop].
    destruct (truthy (lookup_prop "tokens" props)); [| discriminate].
    destruct (truthy (lookup_prop "comments" props)); [| discriminate].
    destruct (truthy (lookup_prop "loc" props)); [| discriminate].
    destruct (truthy (lookup_prop "range" props)); discriminate.
Qed.

(** ** Order *)

(** X26: [getLocFromIndex] keeps the order of the offsets: of two offsets
    of the text the later one is on a later line, or on the same line at a
    column that is not smaller; two different offsets get two different
    locations. *)
Theorem getLocFromIndex_monotone
    (text0 : jsstring) (ast0 : Node) (sm : option ScopeManager) (i j : Z) :
  let sc := SourceCode_new text0 ast0 sm in
  0 <= i -> i <= j -> j <= len (text sc) ->
  exists (li ci lj cj : Z),
    getLocFromIndex sc (VNumber (Int i)) = Ok (mkLoc (Int li) (Int ci))
    /\ getLocFromIndex sc (VNumber (Int j)) = Ok (mkLoc (Int lj) (Int cj))
    /\ (li < lj \/ li = lj /\ ci <= cj)
    /\ (i < j -> li < lj \/ li = lj /\ ci < cj).
Proof.
  intros sc Hi Hij Hj.
  destruct (getLocFromIndex_line_of text0 ast0 sm i ltac:(fold sc; lia))
    as (li & ci & si & Hloci & Hli & Hci & Hsi & Hsumi & Hnexti).
  destruct (getLocFromIndex_line_of text0 ast0 sm j ltac:(fold sc; lia))
    as (lj & cj & sj & Hlocj & Hlj & Hcj & Hsj & Hsumj & Hnextj).
  destruct (lineStartIndices_facts text0 ast0 sm) as [Hasc _].
  destruct (line_table_last text0 ast0 sm) as (Hlen & _).
  fold sc in Hloci, Hli, Hsi, Hnexti, Hlocj, Hlj, Hsj, Hnextj, Hasc, Hlen.
  exists li, ci, lj, cj. split; [exact Hloci |]. split; [exact Hlocj |].
  apply arr_get_Some in Hsi as [_ Hsi]. apply arr_get_Some in Hsj as [_ Hsj].
  assert (Hline : li <= lj).
  { destruct (Z.le_gt_cases li lj) as [H | H]; [exact H |].
    destruct (lookup_lt_is_Some_2 (lineStartIndices sc) (Z.to_nat lj)
                ltac:(apply lookup_lt_Some in Hsi; lia)) as [next Hn].
    assert (j < next)
      by (apply Hnextj, arr_get_Some; split; [lia | exact Hn]).
    assert (next <= si)
      by (apply (strictlyAscending_le (lineStartIndices sc)
                   (Z.to_nat lj) (Z.to_nat (li - 1)));
          [assumption | lia | assumption..]).
    lia. }
  destruct (Z.eq_dec li lj) as [E | E].
  - subst lj. rewrite Hsi in Hsj. injection Hsj as <-.
    split; [right; split; [reflexivity | lia] |].
    intros Hlt. right. split; [reflexivity | lia].
  - split; [left; lia | intros _; left; lia].
Qed.

Lemma getLocFromIndex_monotone_witness :
  0 <= 3 /\ 3 <= 5 /\ 5 <= len (text exampleSource)
  /\ exists (li ci lj cj : Z),
       getLocFromIndex exampleSource (VNumber (Int 3)) = Ok (mkLoc (Int li) (Int ci))
       /\ getLocFromIndex exampleSource (VNumber (Int 5)) = Ok (mkLoc (Int lj) (Int cj))
       /\ (li < lj \/ li = lj /\ ci <= cj)
       /\ (3 < 5 -> li < lj \/ li = lj /\ ci < cj).
Proof.
  assert (H1 : 0 <= 3) by lia.
  assert (H2 : 3 <= 5) by lia.
  assert (H3 : 5 <= len (text exampleSource)) by (vm_compute; discriminate).
  split; [exact H1 |]. split; [exact H2 |]. split; [exact H3 |].
  exact (getLocFromIndex_monotone exampleText exampleAst None 3 5 H1 H2 H3).
Defined.

(** X27: [sortedMerge] never changes the order inside either array, sorted
    or not: the tokens are in the merged stream in the order of the token
    array, and the comments in the order of the comment array. *)
Theorem sortedMerge_keeps_order (tokens comments : list Token) :
  sublist tokens (sortedMerge tokens comments)
  /\ sublist comments (sortedMerge tokens comments).
Proof.
  revert comments. induction tokens as [| t tokens IHt]; intros comments.
  - cbn [sortedMerge]. split; [apply sublist_nil_l | reflexivity].
  - induction comments as [| c comments IHc].
    + rewrite sortedMerge_nil_r. split; [reflexivity | apply sublist_nil_l].
    + rewrite sortedMerge_cons. destruct (tok_start t <? tok_start c).
      * destruct (IHt (c :: comments)) as [Ht Hc].
        split; [now apply sublist_skip | now apply sublist_cons].
      * destruct IHc as [Ht Hc].
        split; [now apply sublist_cons | now apply sublist_skip].
Qed.

(** X28: For the root, [getComments] walks over no token, so it needs no
    fuel: a Program without statements gets the comments of the file as
    leading comments, a Program with statements gets none, and there are
    never trailing comments.  After the constructor the comments of the root
    are those of the token store, the shebang comment with its new type. *)
Theorem getComments_Program (fuel : nat) (text0 : jsstring) (ast0 : Node)
    (sm : option ScopeManager) (cache : gmap N Comments) :
  let sc := SourceCode_new text0 ast0 sm in
  let r := mkComments
             (if len (node_field ast0 "body") =? 0 then comments sc else []) [] in
  node_type ast0 = "Program" -> cache !! node_id ast0 = None ->
  getComments fuel sc (ast sc) cache = Some (r, <[node_id ast0 := r]> cache).
Proof.
  intros sc r Htype Hmiss.
  assert (Hast : ast sc = mkNode (node_id ast0) (node_type ast0) (node_range ast0)
                           (node_parent ast0) (node_fields ast0) (node_tokens ast0)
                           (comments sc)).
  { unfold sc, SourceCode_new. cbv zeta.
    destruct (splitAtLinebreaks _) as [lines0 starts0]. reflexivity. }
  unfold getComments. rewrite Hast.
  cbn [node_id node_type node_comments]. rewrite Hmiss, Htype.
  cbn [String.eqb Ascii.eqb Bool.eqb]. unfold node_field. cbn [node_fields].
  fold (node_field ast0 "body"). subst r.
  destruct (len (node_field ast0 "body") =? 0); reflexivity.
Qed.

Lemma getComments_Program_witness :
  node_type exampleAst = "Program"
  /\ (∅ : gmap N Comments) !! node_id exampleAst = None
  /\ getComments 0 exampleSource (ast exampleSource) ∅
     = Some (mkComments [] [], <[node_id exampleAst := mkComments [] []]> ∅).
Proof.
  assert (H1 : node_type exampleAst = "Program") by reflexivity.
  assert (H2 : (∅ : gmap N Comments) !! node_id exampleAst = None) by reflexivity.
  split; [exact H1 |]. split; [exact H2 |].
  exact (getComments_Program 0 exampleText exampleAst None ∅ H1 H2).
Defined.
